(** * threejs_gravsim: the gravity simulation core

    A shallow embedding of [js/PhysicsEngine.js], of the [Planet] class, of
    the constants they use, and of the code of the page that drives the
    engine (the animation loop with its camera and the input handler),
    followed by the properties of the engine and of the page.

    Conventions of the embedding.
    - A JavaScript number is an IEEE 754 binary64 value: Rocq's primitive
      [float], whose operations round to nearest even exactly as the
      JavaScript operators and [Math.sqrt] do.  Comparisons are the IEEE
      ones ([x > y] is [y <? x]; every comparison with NaN is false).
    - [Date.now()] is an input: every read of the clock is an argument of the
      operation that performs it.  Timestamps are integer milliseconds ([Z]).
    - [Math.random()] is an input as well: [addPlanet] receives the colour
      that [Planet.randomPastelColor()] drew.
    - The three.js scene graph (meshes, geometries, materials, the collision
      overlay mesh) is display state and is not part of the embedding, with
      one exception: a call that dereferences a display object which does not
      exist yet throws a [TypeError], and that is modelled.
    - A call either returns or lets a [TypeError] escape.  JavaScript mutates
      in place, so both completions carry the state the call leaves behind. *)

From Stdlib Require Import Floats ZArith List Bool Arith Lia.
From Stdlib Require String DecimalString.
Import ListNotations.

Set Warnings "-inexact-float".

(** ** Completions *)

Inductive completion (R S : Type) : Type :=
| Normal (r : R) (s : S)
| TypeError (s : S).

Arguments Normal {R S} r s.
Arguments TypeError {R S} s.

Definition state_of {R S} (c : completion R S) : S :=
  match c with
  | Normal _ s => s
  | TypeError s => s
  end.

(** ** Constants (the constants file) *)

Module PhysicsConstants.
Definition G : float := 6.67430e-11%float.
Definition TIME_SCALE : float := 2.0e11%float.
Definition DISTANCE_SCALE : float := 1.0e9%float.
Definition MIN_DISTANCE : float := 1.0%float.
Definition MAX_FORCE_DISTANCE : float := 100.0%float.
Definition SPEED_FACTOR : float := 2.0e-14%float.
End PhysicsConstants.

Module SunConstants.
Definition MASS : float := 1.11e7%float.
Definition RADIUS : float := 5%float.
End SunConstants.

Module PlanetConstants.
Definition MASS : float := 200000%float.
Definition MAX_COUNT : nat := 10.
Definition TRAIL_LENGTH : nat := 10.
End PlanetConstants.

Module RenderConstants.
Definition DRAW_INTERVAL : Z := 70.
Definition TRAIL_UPDATE_INTERVAL : Z := 35.
Definition SCREEN_MARGIN : float := 20%float.
End RenderConstants.

Module CollisionConstants.
Definition COLLISION_EFFECT_DURATION : Z := 105.
End CollisionConstants.

(** ** JavaScript arrays

    An array of numbers is a [list float].  Reading past the end yields
    [undefined], which every arithmetic operator turns into NaN; writing past
    the end extends the array with holes, which read as [undefined] again.
    The accumulators are only ever used in arithmetic, so a hole is
    represented by NaN. *)

Definition num_get (a : list float) (i : nat) : float := nth i a nan.

Fixpoint num_set (a : list float) (i : nat) (v : float) : list float :=
  match i, a with
  | O, [] => [v]
  | O, _ :: t => v :: t
  | S k, [] => nan :: num_set [] k v
  | S k, h :: t => h :: num_set t k v
  end.

(** An array of objects is a list of [option]: [None] is [undefined]. *)

Definition obj_get {A} (a : list (option A)) (i : nat) : option A :=
  match nth_error a i with
  | Some v => v
  | None => None
  end.

Fixpoint obj_set {A} (a : list (option A)) (i : nat) (v : option A)
  : list (option A) :=
  match i, a with
  | O, [] => [v]
  | O, _ :: t => v :: t
  | S k, [] => None :: obj_set [] k v
  | S k, h :: t => h :: obj_set t k v
  end.

(** [a.splice(i, 1)] *)
Fixpoint splice1 {A} (a : list A) (i : nat) : list A :=
  match i, a with
  | _, [] => []
  | O, _ :: t => t
  | S k, h :: t => h :: splice1 t k
  end.

(** In-place update of the object stored at index [i]. *)
Fixpoint put_at {A} (a : list A) (i : nat) (v : A) : list A :=
  match i, a with
  | _, [] => []
  | O, _ :: t => v :: t
  | S k, h :: t => h :: put_at t k v
  end.

(** ** The Planet class *)

Record Point : Type := mkPoint { px : float; py : float }.

Module Planet.

Record t : Type := mk {
  x : float;
  y : float;
  vx : float;
  vy : float;
  color : Z;
  (** [undefined] until the deferred [initTrail] has run; the trail
      geometry, material and line exist exactly when this array does. *)
  trailPositions : option (list (option Point))
}.

(** [new Planet(scene, x, y, vx, vy, color)].  The constructor schedules
    [initTrail] with [setTimeout(..., 0)]: the trail does not exist when it
    returns. *)
Definition new (x0 y0 vx0 vy0 : float) (c : Z) : t :=
  mk x0 y0 vx0 vy0 c None.

(** [initTrail()], run by the timer. *)
Definition initTrail (p : t) : t :=
  mk (x p) (y p) (vx p) (vy p) (color p)
     (Some (repeat (Some (mkPoint (x p) (y p))) PlanetConstants.TRAIL_LENGTH)).

(** The shifting loop of [update]:
    [for (j = TRAIL_LENGTH - 1; j > 0; j--) trail[j] = trail[j - 1]],
    entered with [j] and run down to 1. *)
Fixpoint shiftTrail (j : nat) (a : list (option Point)) : list (option Point) :=
  match j with
  | O => a
  | S k => shiftTrail k (obj_set a (S k) (obj_get a k))
  end.

Definition is_defined {A} (o : option A) : bool :=
  match o with Some _ => true | None => false end.

(** [update(ax, ay, updateTrails)].  With [updateTrails] set and no trail
    array, the first trail access throws after velocity and position have
    been written.  [updateTrailGeometry] reads [point.x] of every entry and
    throws on a hole. *)
Definition update (ax ay : float) (updateTrails : bool) (p : t)
  : completion unit t :=
  let vx1 := (vx p + ax * PhysicsConstants.TIME_SCALE)%float in
  let vy1 := (vy p + ay * PhysicsConstants.TIME_SCALE)%float in
  let x1 := (x p + vx1 * PhysicsConstants.TIME_SCALE)%float in
  let y1 := (y p + vy1 * PhysicsConstants.TIME_SCALE)%float in
  if updateTrails then
    match trailPositions p with
    | None => TypeError (mk x1 y1 vx1 vy1 (color p) None)
    | Some a =>
        let a1 := shiftTrail (PlanetConstants.TRAIL_LENGTH - 1) a in
        let a2 := obj_set a1 0 (Some (mkPoint x1 y1)) in
        let p1 := mk x1 y1 vx1 vy1 (color p) (Some a2) in
        if forallb is_defined a2 then Normal tt p1 else TypeError p1
    end
  else Normal tt (mk x1 y1 vx1 vy1 (color p) (trailPositions p)).

(** [isOutOfBounds(maxX, maxY)] *)
Definition isOutOfBounds (maxX maxY : float) (p : t) : bool :=
  (maxX <? abs (x p))%float || (maxY <? abs (y p))%float.

(** [isCollidedWithSun()] *)
Definition isCollidedWithSun (p : t) : bool :=
  (x p * x p + y p * y p <? SunConstants.RADIUS * SunConstants.RADIUS)%float.

(** [remove()] releases display resources only; it throws at
    [this.trailGeometry.dispose()] when [initTrail] has not run. *)
Definition remove (p : t) : completion unit t :=
  match trailPositions p with
  | Some _ => Normal tt p
  | None => TypeError p
  end.

End Planet.

(** ** The PhysicsEngine class *)

Record PhysicsEngine : Type := mkEngine {
  planets : list Planet.t;
  lastTrailUpdateTime : Z;
  collisionEffectActive : bool;
  collisionEffectX : float;
  collisionEffectY : float;
  collisionEffectStartTime : Z
}.

(** [this.distanceScaleSquared], written once by the constructor. *)
Definition distanceScaleSquared : float :=
  (PhysicsConstants.DISTANCE_SCALE * PhysicsConstants.DISTANCE_SCALE)%float.

(** [new PhysicsEngine(scene)] *)
Definition constructor : PhysicsEngine :=
  mkEngine [] 0 false 0%float 0%float 0.

(** The engine with its array holding [ps] after an in-place mutation. *)
Definition set_planets (e : PhysicsEngine) (ps : list Planet.t) : PhysicsEngine :=
  mkEngine ps (lastTrailUpdateTime e) (collisionEffectActive e)
           (collisionEffectX e) (collisionEffectY e) (collisionEffectStartTime e).

(** [addPlanet(x, y, vx, vy)]; [c] is the colour drawn by
    [Planet.randomPastelColor()]. *)
Definition addPlanet (x y vx vy : float) (c : Z) (e : PhysicsEngine)
  : completion unit PhysicsEngine :=
  let planet := Planet.new x y vx vy c in
  let pushed := planets e ++ [planet] in
  if PlanetConstants.MAX_COUNT <? length pushed then
    match pushed with
    | oldestPlanet :: rest =>
        match Planet.remove oldestPlanet with
        | Normal _ _ => Normal tt (set_planets e rest)
        | TypeError _ => TypeError (set_planets e rest)
        end
    | [] => TypeError (set_planets e [])
    end
  else Normal tt (set_planets e pushed).

(** The timer callback of the planet that is now at index [i]: it runs
    [initTrail] once, on a planet whose trail does not exist yet. *)
Definition timerInitTrail (i : nat) (e : PhysicsEngine) : PhysicsEngine :=
  match nth_error (planets e) i with
  | Some p =>
      match Planet.trailPositions p with
      | None => set_planets e (put_at (planets e) i (Planet.initTrail p))
      | Some _ => e
      end
  | None => e
  end.

(** [getPlanetCount()] *)
Definition getPlanetCount (e : PhysicsEngine) : nat := length (planets e).

(** [shouldUpdateTrails()]; [currentTime] is its [Date.now()]. *)
Definition shouldUpdateTrails (currentTime : Z) (e : PhysicsEngine)
  : bool * PhysicsEngine :=
  if (RenderConstants.TRAIL_UPDATE_INTERVAL <? currentTime - lastTrailUpdateTime e)%Z
  then (true,
        mkEngine (planets e) currentTime (collisionEffectActive e)
                 (collisionEffectX e) (collisionEffectY e)
                 (collisionEffectStartTime e))
  else (false, e).

(** The acceleration [calculateSunGravity] computes for one planet
    ([accelX], [accelY]); the sun is at the origin. *)
Definition sunAcceleration (planet : Planet.t) : float * float :=
  let dx := (- Planet.x planet)%float in
  let dy := (- Planet.y planet)%float in
  let r2 := (dx * dx + dy * dy)%float in
  let r := sqrt r2 in
  let force :=
    ((PhysicsConstants.G * PlanetConstants.MASS * SunConstants.MASS)
     / (r * r * distanceScaleSquared))%float in
  let accelX := ((force * dx) / (r * PlanetConstants.MASS))%float in
  let accelY := ((force * dy) / (r * PlanetConstants.MASS))%float in
  (accelX, accelY).

(** [calculateSunGravity(planetIndex, ax, ay)].  The engine is only read;
    [None] is the [TypeError] of [planet.x] on a missing planet. *)
Definition calculateSunGravity (planetIndex : nat) (ax ay : list float)
    (e : PhysicsEngine) : option (list float * list float) :=
  match nth_error (planets e) planetIndex with
  | None => None
  | Some planet =>
      let (accelX, accelY) := sunAcceleration planet in
      Some (num_set ax planetIndex (num_get ax planetIndex + accelX)%float,
            num_set ay planetIndex (num_get ay planetIndex + accelY)%float)
  end.

(** [maxDistanceSquared] and [minDistanceSquared] of the pair loop. *)
Definition maxDistanceSquared : float :=
  (PhysicsConstants.MAX_FORCE_DISTANCE * PhysicsConstants.MAX_FORCE_DISTANCE)%float.

Definition minDistanceSquared : float :=
  (PhysicsConstants.MIN_DISTANCE * PhysicsConstants.MIN_DISTANCE)%float.

(** [r2] of the pair loop: the squared separation of planets [i] and [j]. *)
Definition separationSquared (pi pj : Planet.t) : float :=
  let dx := (Planet.x pj - Planet.x pi)%float in
  let dy := (Planet.y pj - Planet.y pi)%float in
  (dx * dx + dy * dy)%float.

(** [effectiveR2]: the squared separation, floored. *)
Definition effectiveR2 (r2 : float) : float :=
  if (r2 <? minDistanceSquared)%float then minDistanceSquared else r2.

(** [force] of the pair loop, from the squared distance actually used. *)
Definition pairForce (effR2 : float) : float :=
  let r := sqrt effR2 in
  ((PhysicsConstants.G * PlanetConstants.MASS * PlanetConstants.MASS)
   / (r * r * distanceScaleSquared))%float.

(** ([accelX], [accelY]) of the pair loop for a pair that is not skipped. *)
Definition pairAcceleration (pi pj : Planet.t) : float * float :=
  let dx := (Planet.x pj - Planet.x pi)%float in
  let dy := (Planet.y pj - Planet.y pi)%float in
  let effR2 := effectiveR2 (separationSquared pi pj) in
  let r := sqrt effR2 in
  let force := pairForce effR2 in
  (((force * dx) / (r * PlanetConstants.MASS))%float,
   ((force * dy) / (r * PlanetConstants.MASS))%float).

(** The body of the inner loop of [calculatePlanetGravity] at ([i], [j]). *)
Definition pairStep (e : PhysicsEngine) (i j : nat) (acc : list float * list float)
  : option (list float * list float) :=
  match nth_error (planets e) i, nth_error (planets e) j with
  | Some pi, Some pj =>
      if (maxDistanceSquared <? separationSquared pi pj)%float then Some acc
      else
        let (ax, ay) := acc in
        let (accelX, accelY) := pairAcceleration pi pj in
        let ax1 := num_set ax i (num_get ax i + accelX)%float in
        let ay1 := num_set ay i (num_get ay i + accelY)%float in
        let ax2 := num_set ax1 j (num_get ax1 j - accelX)%float in
        let ay2 := num_set ay1 j (num_get ay1 j - accelY)%float in
        Some (ax2, ay2)
  | _, _ => None
  end.

(** [for (k = lo; k < lo + n; k++) body(k)] over a state that may throw. *)
Definition for_up {S} (lo n : nat) (body : nat -> S -> option S) (s : S)
  : option S :=
  fold_left (fun acc k => match acc with Some s' => body k s' | None => None end)
            (seq lo n) (Some s).

(** [calculatePlanetGravity(ax, ay)] *)
Definition calculatePlanetGravity (ax ay : list float) (e : PhysicsEngine)
  : option (list float * list float) :=
  let n := length (planets e) in
  for_up 0 n (fun i => for_up (S i) (n - S i) (pairStep e i)) (ax, ay).

(** The last loop of [update]: [planets[i].update(ax[i], ay[i], flag)] for
    the [k] indices from [i] on. *)
Fixpoint updatePlanets (k i : nat) (ax ay : list float) (flag : bool)
    (ps : list Planet.t) : completion unit (list Planet.t) :=
  match k with
  | O => Normal tt ps
  | S k' =>
      match nth_error ps i with
      | None => TypeError ps
      | Some p =>
          match Planet.update (num_get ax i) (num_get ay i) flag p with
          | Normal _ p' => updatePlanets k' (S i) ax ay flag (put_at ps i p')
          | TypeError p' => TypeError (put_at ps i p')
          end
      end
  end.

(** The expiry check at the head of [update]; [currentTime] is the
    [Date.now()] read when the effect is active. *)
Definition expireCollisionEffect (currentTime : Z) (e : PhysicsEngine)
  : PhysicsEngine :=
  if collisionEffectActive e then
    if (CollisionConstants.COLLISION_EFFECT_DURATION
          <? currentTime - collisionEffectStartTime e)%Z
    then mkEngine (planets e) (lastTrailUpdateTime e) false
                  (collisionEffectX e) (collisionEffectY e)
                  (collisionEffectStartTime e)
    else e
  else e.

(** The force phase of [update] on a non-empty engine: the two zeroed
    accumulators, the [calculateSunGravity] loop and
    [calculatePlanetGravity]. *)
Definition accelerations (e : PhysicsEngine) : option (list float * list float) :=
  let n := length (planets e) in
  let accelerationX := repeat 0%float n in
  let accelerationY := repeat 0%float n in
  match for_up 0 n (fun i acc => calculateSunGravity i (fst acc) (snd acc) e)
               (accelerationX, accelerationY) with
  | None => None
  | Some (ax, ay) => calculatePlanetGravity ax ay e
  end.

(** [update()]; [t1] is the clock read by [shouldUpdateTrails], [t2] the one
    read by the expiry check.  The result is [shouldUpdateTrailPositions]. *)
Definition update (t1 t2 : Z) (e : PhysicsEngine) : completion bool PhysicsEngine :=
  let (shouldUpdateTrailPositions, e1) := shouldUpdateTrails t1 e in
  let e2 := expireCollisionEffect t2 e1 in
  let n := length (planets e2) in
  if (n =? 0)%nat then Normal shouldUpdateTrailPositions e2
  else
    match accelerations e2 with
    | None => TypeError e2
    | Some (accelerationX, accelerationY) =>
        match updatePlanets n 0 accelerationX accelerationY
                            shouldUpdateTrailPositions (planets e2) with
        | Normal _ ps => Normal shouldUpdateTrailPositions (set_planets e2 ps)
        | TypeError ps => TypeError (set_planets e2 ps)
        end
    end.

(** What one iteration of the removal loop did with the planet it read. *)
Inductive Outcome : Type := Kept | BoundaryExit | SunCollision.

(** One iteration: the index, the planet read from [planets[i]], the branch. *)
Definition Visit : Type := (nat * Planet.t * Outcome)%type.

(** The four assignments that record a collision. *)
Definition set_collisionEffect (e : PhysicsEngine) (cx cy : float) (t : Z)
  : PhysicsEngine :=
  mkEngine (planets e) (lastTrailUpdateTime e) true cx cy t.

(** The loop of [removeOutOfBoundsPlanets], entered with [i = i1 - 1] and run
    down to 0.  [now i] is the [Date.now()] read while index [i] is
    processed.  [log] is a ghost record of the iterations, most recent
    first; it is not program state. *)
Fixpoint removeLoop (now : nat -> Z) (maxX maxY : float) (i1 : nat)
    (log : list Visit) (e : PhysicsEngine)
  : completion (list Visit) PhysicsEngine :=
  match i1 with
  | O => Normal log e
  | S i =>
      match nth_error (planets e) i with
      | None => TypeError e
      | Some planet =>
          if Planet.isOutOfBounds maxX maxY planet then
            match Planet.remove planet with
            | TypeError _ => TypeError e
            | Normal _ _ =>
                removeLoop now maxX maxY i ((i, planet, BoundaryExit) :: log)
                           (set_planets e (splice1 (planets e) i))
            end
          else if Planet.isCollidedWithSun planet then
            let e1 := set_collisionEffect e (Planet.x planet) (Planet.y planet) (now i) in
            match Planet.remove planet with
            | TypeError _ => TypeError e1
            | Normal _ _ =>
                removeLoop now maxX maxY i ((i, planet, SunCollision) :: log)
                           (set_planets e1 (splice1 (planets e1) i))
            end
          else removeLoop now maxX maxY i ((i, planet, Kept) :: log) e
      end
  end.

(** [removeOutOfBoundsPlanets(maxX, maxY)] *)
Definition removeOutOfBoundsPlanets (now : nat -> Z) (maxX maxY : float)
    (e : PhysicsEngine) : completion (list Visit) PhysicsEngine :=
  if (length (planets e) =? 0)%nat then Normal [] e
  else removeLoop now maxX maxY (length (planets e)) [] e.

(** [hasActiveCollisionEffect()], [getCollisionEffectX()], [getCollisionEffectY()] *)
Definition hasActiveCollisionEffect (e : PhysicsEngine) : bool :=
  collisionEffectActive e.
Definition getCollisionEffectX (e : PhysicsEngine) : float := collisionEffectX e.
Definition getCollisionEffectY (e : PhysicsEngine) : float := collisionEffectY e.

(** ** Reachable engine states

    The engine is driven by four kinds of events: the three public mutators
    and the timers that the [Planet] constructor schedules.  An exception
    that escapes a handler does not stop the page, so the state left behind
    by either completion is a state the next event starts from. *)

Inductive reachable : PhysicsEngine -> Prop :=
| reach_constructor : reachable constructor
| reach_addPlanet e x y vx vy c :
    reachable e -> reachable (state_of (addPlanet x y vx vy c e))
| reach_update e t1 t2 :
    reachable e -> reachable (state_of (update t1 t2 e))
| reach_remove e now maxX maxY :
    reachable e -> reachable (state_of (removeOutOfBoundsPlanets now maxX maxY e))
| reach_timer e i :
    reachable e -> reachable (timerInitTrail i e).

(** The arguments of one [addPlanet] call, colour included. *)
Definition Call : Type := (float * float * float * float * Z)%type.

(** The planet a call creates, and the state a call leaves. *)
Definition planetOfCall (a : Call) : Planet.t :=
  let '(x, y, vx, vy, c) := a in Planet.new x y vx vy c.

Definition addPlanetCall (e : PhysicsEngine) (a : Call) : PhysicsEngine :=
  let '(x, y, vx, vy, c) := a in state_of (addPlanet x y vx vy c e).

(** [addPlanet] called once per element of [calls], in order. *)
Definition addPlanets (calls : list Call) (e : PhysicsEngine) : PhysicsEngine :=
  fold_left addPlanetCall calls e.

(** ** Array references

    [this.planets] holds a reference to an array object.  [push], [shift] and
    [splice] mutate that object in place, and the field is assigned by the
    constructor only.  [getPlanets()] returns the reference it holds.  To
    speak about what a holder of that reference sees, the page is an
    explicit store of array objects together with the engine object; the
    record [PhysicsEngine] above is the engine with its array read through
    the reference. *)

Definition ref : Type := nat.

Record Page : Type := mkPage {
  arrays : ref -> list Planet.t;
  this_planets : ref;
  this_lastTrailUpdateTime : Z;
  this_collisionEffectActive : bool;
  this_collisionEffectX : float;
  this_collisionEffectY : float;
  this_collisionEffectStartTime : Z
}.

(** The engine of the page, its array read through the reference. *)
Definition engineOf (w : Page) : PhysicsEngine :=
  mkEngine (arrays w (this_planets w)) (this_lastTrailUpdateTime w)
           (this_collisionEffectActive w) (this_collisionEffectX w)
           (this_collisionEffectY w) (this_collisionEffectStartTime w).

(** The array object at [r] mutated in place to hold [ps]. *)
Definition writeArray (r : ref) (ps : list Planet.t) (w : Page) : Page :=
  mkPage (fun r' => if (r' =? r)%nat then ps else arrays w r')
         (this_planets w) (this_lastTrailUpdateTime w)
         (this_collisionEffectActive w) (this_collisionEffectX w)
         (this_collisionEffectY w) (this_collisionEffectStartTime w).

(** A method of the engine run on the page: the array object it mutates is
    the one [this.planets] refers to, and stays there. *)
Definition runMethod (m : PhysicsEngine -> PhysicsEngine) (w : Page) : Page :=
  let e' := m (engineOf w) in
  mkPage (fun r' => if (r' =? this_planets w)%nat then planets e' else arrays w r')
         (this_planets w) (lastTrailUpdateTime e')
         (collisionEffectActive e') (collisionEffectX e')
         (collisionEffectY e') (collisionEffectStartTime e').

(** [new PhysicsEngine(scene)] on a page: a fresh empty array at [r]. *)
Definition newPage (r : ref) : Page :=
  mkPage (fun _ => []) r 0 false 0%float 0%float 0.

(** [getPlanets()] *)
Definition getPlanets (w : Page) : ref := this_planets w.

(** What a holder of the reference [r] reads, and [r.push(p)] by a holder. *)
Definition readArray (w : Page) (r : ref) : list Planet.t := arrays w r.
Definition pushThrough (r : ref) (p : Planet.t) (w : Page) : Page :=
  writeArray r (arrays w r ++ [p]) w.

(** ** The page: camera, animation loop and planet counter *)

Module Camera.
(** The four frustum planes of the orthographic camera that the page reads
    and writes. *)
Record t : Type := mk {
  left : float;
  right : float;
  top : float;
  bottom : float
}.
End Camera.

(** [viewSize], the same constant in [initThreeJS] and [onWindowResize]. *)
Definition viewSize : float := 50.

(** [initThreeJS()] for a window of [width] by [height]
    ([window.innerWidth], [window.innerHeight]): the four numbers it passes
    to [new THREE.OrthographicCamera(left, right, top, bottom, ...)], which
    keeps them in the fields of the same names. *)
Definition initThreeJS (width height : float) : Camera.t :=
  let aspectRatio := (width / height)%float in
  Camera.mk ((- viewSize) * aspectRatio)%float (viewSize * aspectRatio)%float
            viewSize (- viewSize)%float.

(** [onWindowResize()]: the four fields are assigned anew. *)
Definition onWindowResize (width height : float) (camera : Camera.t) : Camera.t :=
  let aspectRatio := (width / height)%float in
  Camera.mk ((- viewSize) * aspectRatio)%float (viewSize * aspectRatio)%float
            viewSize (- viewSize)%float.

Module PlanetCount.
Import String.
(** The text [updatePlanetCount] writes: [`Planets: ${count}`]. *)
Definition text (count : nat) : string :=
  "Planets: " ++ DecimalString.NilZero.string_of_uint (Nat.to_uint count).
End PlanetCount.

(** The state of the page that a frame reads and writes: [lastDrawTime], the
    engine, the camera and the text of the planet counter element. *)
Record App : Type := mkApp {
  lastDrawTime : Z;
  physicsEngine : PhysicsEngine;
  camera : Camera.t;
  planetCountText : String.string
}.

(** [updatePlanetCount()] *)
Definition updatePlanetCount (a : App) : App :=
  mkApp (lastDrawTime a) (physicsEngine a) (camera a)
        (PlanetCount.text (getPlanetCount (physicsEngine a))).

(** The bounds [animate] passes to [removeOutOfBoundsPlanets]. *)
Definition maxBoundsX (cam : Camera.t) : float :=
  (Camera.right cam + RenderConstants.SCREEN_MARGIN)%float.
Definition maxBoundsY (cam : Camera.t) : float :=
  (Camera.top cam + RenderConstants.SCREEN_MARGIN)%float.

(** One call of [animate].  [currentTime] is the clock it reads, [t1] and
    [t2] are the clocks read by [update], [now] the clocks read by the
    removal pass.  [requestAnimationFrame(animate)] has been called before
    anything can throw, so the next frame runs whatever this one does;
    [inputHandler.update()] returns a flag and changes nothing; [sun.update()]
    and [renderer.render] only draw. *)
Definition animate (currentTime t1 t2 : Z) (now : nat -> Z) (a : App)
  : completion unit App :=
  if (RenderConstants.DRAW_INTERVAL <? currentTime - lastDrawTime a)%Z then
    let a1 := mkApp currentTime (physicsEngine a) (camera a) (planetCountText a) in
    match update t1 t2 (physicsEngine a1) with
    | TypeError e1 =>
        TypeError (mkApp (lastDrawTime a1) e1 (camera a1) (planetCountText a1))
    | Normal _ e1 =>
        match removeOutOfBoundsPlanets now (maxBoundsX (camera a1))
                                       (maxBoundsY (camera a1)) e1 with
        | TypeError e2 =>
            TypeError (mkApp (lastDrawTime a1) e2 (camera a1) (planetCountText a1))
        | Normal _ e2 =>
            Normal tt (updatePlanetCount
                         (mkApp (lastDrawTime a1) e2 (camera a1) (planetCountText a1)))
        end
    end
  else Normal tt a.

(** [init()] for a window of [width] by [height]; [text0] is the text the
    counter element has in the document. *)
Definition init (width height : float) (text0 : String.string) : App :=
  mkApp 0 constructor (initThreeJS width height) text0.

(** ** The input handler *)

Module Rect.
(** The numbers the handler reads from [container.getBoundingClientRect()]. *)
Record t : Type := mk {
  left : float;
  top : float;
  width : float;
  height : float
}.
End Rect.

(** The fields of the handler that its methods read and write.  The three
    arrow fields hold display objects: [true] when the field holds its
    object, [false] when it is [null] or [undefined]. *)
Record InputHandler : Type := mkInputHandler {
  isPointerDown : bool;
  pointerStartX : float;
  pointerStartY : float;
  pointerCurrentX : float;
  pointerCurrentY : float;
  startCircle : bool;
  arrowLine : bool;
  arrowHead : bool
}.

(** [new InputHandler(physicsEngine, camera, container)] *)
Definition newInputHandler : InputHandler :=
  mkInputHandler false 0 0 0 0 false false false.

(** [removeArrowHelper()] *)
Definition removeArrowHelper (h : InputHandler) : InputHandler :=
  mkInputHandler (isPointerDown h) (pointerStartX h) (pointerStartY h)
                 (pointerCurrentX h) (pointerCurrentY h) false false false.

(** [createArrowHelper()] *)
Definition createArrowHelper (h : InputHandler) : InputHandler :=
  let h1 := removeArrowHelper h in
  mkInputHandler (isPointerDown h1) (pointerStartX h1) (pointerStartY h1)
                 (pointerCurrentX h1) (pointerCurrentY h1) true true true.

(** [screenToWorld(screenX, screenY)].  [unproject] is
    [vector.unproject(this.camera)] of three.js on the normalized
    coordinates, read back as ([vector.x], [vector.y]). *)
Definition screenToWorld (unproject : float -> float -> float * float)
    (rect : Rect.t) (screenX screenY : float) : float * float :=
  let normalizedX := ((screenX / Rect.width rect) * 2 - 1)%float in
  let normalizedY := ((- (screenY / Rect.height rect)) * 2 + 1)%float in
  unproject normalizedX normalizedY.

(** [onPointerDown(event)]; [clientX] and [clientY] are those of the mouse
    event or of its first touch. *)
Definition onPointerDown (clientX clientY : float) (rect : Rect.t)
    (h : InputHandler) : InputHandler :=
  let x := (clientX - Rect.left rect)%float in
  let y := (clientY - Rect.top rect)%float in
  createArrowHelper
    (mkInputHandler true x y x y (startCircle h) (arrowLine h) (arrowHead h)).

(** [onPointerMove(event)].  [updateArrowHelper] redraws the arrow objects
    when they exist and changes no field. *)
Definition onPointerMove (clientX clientY : float) (rect : Rect.t)
    (h : InputHandler) : InputHandler :=
  if negb (isPointerDown h) then h
  else
    let x := (clientX - Rect.left rect)%float in
    let y := (clientY - Rect.top rect)%float in
    mkInputHandler (isPointerDown h) (pointerStartX h) (pointerStartY h) x y
                   (startCircle h) (arrowLine h) (arrowHead h).

(** [onPointerUp(event)] on the handler and the engine it holds; [c] is the
    colour [addPlanet] draws.  When [addPlanet] throws, the statements
    behind it do not run. *)
Definition onPointerUp (rect : Rect.t) (unproject : float -> float -> float * float)
    (c : Z) (s : InputHandler * PhysicsEngine)
  : completion unit (InputHandler * PhysicsEngine) :=
  let (h, e) := s in
  if negb (isPointerDown h) then Normal tt (h, e)
  else
    let dx := (pointerCurrentX h - pointerStartX h)%float in
    let dy := (pointerCurrentY h - pointerStartY h)%float in
    let vx := (dx * PhysicsConstants.SPEED_FACTOR)%float in
    let vy := ((- dy) * PhysicsConstants.SPEED_FACTOR)%float in
    let worldCoords := screenToWorld unproject rect (pointerStartX h) (pointerStartY h) in
    match addPlanet (fst worldCoords) (snd worldCoords) vx vy c e with
    | TypeError e' => TypeError (h, e')
    | Normal _ e' =>
        Normal tt
          (removeArrowHelper
             (mkInputHandler false (pointerStartX h) (pointerStartY h)
                             (pointerCurrentX h) (pointerCurrentY h)
                             (startCircle h) (arrowLine h) (arrowHead h)),
           e')
    end.

(** The events [setupEventListeners] subscribes to: [mousedown] and
    [touchstart], [mousemove] and [touchmove], [mouseup] and [touchend]. *)
Inductive PointerEvent : Type :=
| PointerDown (clientX clientY : float) (rect : Rect.t)
| PointerMove (clientX clientY : float) (rect : Rect.t)
| PointerUp (rect : Rect.t) (unproject : float -> float -> float * float) (color : Z).

(** The handler each event runs. *)
Definition dispatch (ev : PointerEvent) (s : InputHandler * PhysicsEngine)
  : completion unit (InputHandler * PhysicsEngine) :=
  match ev with
  | PointerDown clientX clientY rect =>
      Normal tt (onPointerDown clientX clientY rect (fst s), snd s)
  | PointerMove clientX clientY rect =>
      Normal tt (onPointerMove clientX clientY rect (fst s), snd s)
  | PointerUp rect unproject color => onPointerUp rect unproject color s
  end.

(** The events of [evs] in order; an exception ends its handler only. *)
Definition dispatchAll (evs : list PointerEvent) (s : InputHandler * PhysicsEngine)
  : InputHandler * PhysicsEngine :=
  fold_left (fun s ev => state_of (dispatch ev s)) evs s.

(** ** Vocabulary of the properties *)

(** The two components of the central-mass acceleration. *)
Definition sunAccelerationX (p : Planet.t) : float := fst (sunAcceleration p).
Definition sunAccelerationY (p : Planet.t) : float := snd (sunAcceleration p).

(** Every pair of planets is beyond the cutoff. *)
Definition all_pairs_beyond_cutoff (ps : list Planet.t) : Prop :=
  forall i j pi pj,
    i < j -> nth_error ps i = Some pi -> nth_error ps j = Some pj ->
    (maxDistanceSquared <? separationSquared pi pj)%float = true.

(** The trail exists: the deferred [initTrail] has run, so that [remove]
    and the trail sampling of [update] do not throw. *)
Definition trail_initialized (p : Planet.t) : Prop :=
  Planet.trailPositions p <> None.

(** The planet is neither out of bounds nor inside the sun. *)
Definition survives (maxX maxY : float) (p : Planet.t) : bool :=
  negb (Planet.isOutOfBounds maxX maxY p) && negb (Planet.isCollidedWithSun p).

(** The display resources of the planet exist if the removal pass is going
    to release them: [remove] is only called on a planet that is out of
    bounds or inside the sun. *)
Definition releasable (maxX maxY : float) (p : Planet.t) : Prop :=
  survives maxX maxY p = false -> trail_initialized p.

(** A trail, once it exists, has [TRAIL_LENGTH] entries and no hole. *)
Definition trail_ok (p : Planet.t) : Prop :=
  match Planet.trailPositions p with
  | None => True
  | Some a =>
      length a = PlanetConstants.TRAIL_LENGTH /\
      forallb Planet.is_defined a = true
  end.

(** The trail of [p'] is the trail [p] had, shifted by one sample, with the
    position of [p'] in front. *)
Definition trail_sampled (p p' : Planet.t) : Prop :=
  exists a,
    Planet.trailPositions p = Some a /\
    Planet.trailPositions p'
    = Some (Some (mkPoint (Planet.x p') (Planet.y p')) :: removelast a) /\
    length (Some (mkPoint (Planet.x p') (Planet.y p')) :: removelast a)
    = PlanetConstants.TRAIL_LENGTH.

(** The collision effect as the accessors show it, with its start time. *)
Definition collisionEffect (e : PhysicsEngine) : bool * float * float * Z :=
  (collisionEffectActive e, collisionEffectX e, collisionEffectY e,
   collisionEffectStartTime e).

(** The branch the removal loop takes on a planet. *)
Definition outcomeOf (maxX maxY : float) (p : Planet.t) : Outcome :=
  if Planet.isOutOfBounds maxX maxY p then BoundaryExit
  else if Planet.isCollidedWithSun p then SunCollision
  else Kept.

(** One visit per planet of [ps], the first of them at index [k]. *)
Fixpoint visits (maxX maxY : float) (k : nat) (ps : list Planet.t) : list Visit :=
  match ps with
  | [] => []
  | p :: t => (k, p, outcomeOf maxX maxY p) :: visits maxX maxY (S k) t
  end.

(** The collision effect a log leaves: the most recent collision visit
    wrote it last. *)
Fixpoint effectOfLog (now : nat -> Z) (log : list Visit)
    (eff : bool * float * float * Z) : bool * float * float * Z :=
  match log with
  | [] => eff
  | (i, p, SunCollision) :: _ => (true, Planet.x p, Planet.y p, now i)
  | _ :: t => effectOfLog now t eff
  end.

(** A number of the float specification that is zero or finite. *)
Definition sf_finite (x : spec_float) : bool :=
  match x with
  | S754_zero _ | S754_finite _ _ _ => true
  | _ => false
  end.

(** A number that is zero or finite with an exponent field of at most [E]. *)
Definition sf_bounded (E : Z) (x : spec_float) : Prop :=
  match x with
  | S754_zero _ => True
  | S754_finite _ _ e => (e <= E)%Z
  | _ => False
  end.

(** NaN, or a number whose sign bit is [s]. *)
Definition sf_sign_is (s : bool) (x : spec_float) : Prop :=
  match x with
  | S754_nan => True
  | S754_zero s' | S754_infinity s' | S754_finite s' _ _ => s' = s
  end.

(** The trail cooldown has elapsed at clock value [t]. *)
Definition trails_due (t : Z) (e : PhysicsEngine) : bool :=
  (RenderConstants.TRAIL_UPDATE_INTERVAL <? t - lastTrailUpdateTime e)%Z.

(** [p'] is [p] advanced by one time step under the acceleration ([ax],
    [ay]): the velocity first, then the position from the new velocity; the
    colour is kept. *)
Definition advanced (ax ay : float) (p p' : Planet.t) : Prop :=
  Planet.vx p' = (Planet.vx p + ax * PhysicsConstants.TIME_SCALE)%float /\
  Planet.vy p' = (Planet.vy p + ay * PhysicsConstants.TIME_SCALE)%float /\
  Planet.x p' = (Planet.x p + Planet.vx p' * PhysicsConstants.TIME_SCALE)%float /\
  Planet.y p' = (Planet.y p + Planet.vy p' * PhysicsConstants.TIME_SCALE)%float /\
  Planet.color p' = Planet.color p.

(** The planets [ps], which start at index [i], after [Planet.update] has
    run on each of them with its entry of the accumulators. *)
Fixpoint integrated (ax ay : list float) (flag : bool) (i : nat)
    (ps : list Planet.t) : list Planet.t :=
  match ps with
  | [] => []
  | p :: t =>
      state_of (Planet.update (num_get ax i) (num_get ay i) flag p)
      :: integrated ax ay flag (S i) t
  end.

(** A coordinate of the planet is NaN. *)
Definition nan_position (p : Planet.t) : Prop :=
  is_nan (Planet.x p) = true \/ is_nan (Planet.y p) = true.

(** Position and velocity of the planet are NaN in both components. *)
Definition lost (p : Planet.t) : Prop :=
  is_nan (Planet.x p) = true /\ is_nan (Planet.y p) = true /\
  is_nan (Planet.vx p) = true /\ is_nan (Planet.vy p) = true.

(** Both accumulators hold NaN at index [k]. *)
Definition nan_at (acc : list float * list float) (k : nat) : Prop :=
  is_nan (num_get (fst acc) k) = true /\ is_nan (num_get (snd acc) k) = true.

(** The position of a planet as a trail point. *)
Definition positionOf (p : Planet.t) : option Point :=
  Some (mkPoint (Planet.x p) (Planet.y p)).

(** [Planet.update] with the trail flag, called once per acceleration of
    [accs]: the planet as each call left it, or [None] if a call threw. *)
Fixpoint sampledStates (accs : list (float * float)) (p : Planet.t)
  : option (list Planet.t) :=
  match accs with
  | [] => Some []
  | (ax, ay) :: rest =>
      match Planet.update ax ay true p with
      | Normal _ p' =>
          match sampledStates rest p' with
          | Some l => Some (p' :: l)
          | None => None
          end
      | TypeError _ => None
      end
  end.

(** A reachable state in which every [initTrail] timer has fired. *)
Definition settled (e : PhysicsEngine) : Prop :=
  reachable e /\ Forall trail_initialized (planets e).

(** NaN, [+infinity], or a positive finite number whose exponent field is at
    least [E]: a number that is not below [2 ^ (E + 52)]. *)
Definition sf_at_least (E : Z) (x : spec_float) : Prop :=
  match x with
  | S754_nan => True
  | S754_infinity s => s = false
  | S754_finite s _ e => s = false /\ (E <= e)%Z
  | S754_zero _ => False
  end.

(** Zero, or a finite number whose exponent field is below [E]: a number of
    magnitude below [2 ^ (E + 52)]. *)
Definition sf_magnitude_below (E : Z) (x : spec_float) : Prop :=
  match x with
  | S754_zero _ => True
  | S754_finite _ _ e => (e < E)%Z
  | _ => False
  end.

(** NaN, or a number whose sign bit is clear. *)
Definition not_negative (a : float) : Prop := sf_sign_is false (Prim2SF a).

(** The pointer position of an event, relative to the container. *)
Definition screenPoint (m : float * float * Rect.t) : float * float :=
  let '(clientX, clientY, rect) := m in
  ((clientX - Rect.left rect)%float, (clientY - Rect.top rect)%float).

(** The move event of such a position. *)
Definition moveEvent (m : float * float * Rect.t) : PointerEvent :=
  let '(clientX, clientY, rect) := m in PointerMove clientX clientY rect.

(** The arrow is on screen exactly when the pointer is down. *)
Definition arrow_matches_pointer (h : InputHandler) : Prop :=
  startCircle h = isPointerDown h /\ arrowLine h = isPointerDown h /\
  arrowHead h = isPointerDown h.

(** [+infinity], or a positive finite number whose exponent field is at
    least [E]: as [sf_at_least], NaN excluded. *)
Definition sf_positive_from (E : Z) (x : spec_float) : Prop :=
  match x with
  | S754_infinity s => s = false
  | S754_finite s _ e => s = false /\ (E <= e)%Z
  | _ => False
  end.

(** Both coordinates of the planet are finite numbers. *)
Definition finite_position (p : Planet.t) : Prop :=
  is_finite (Planet.x p) = true /\ is_finite (Planet.y p) = true.

(** No coordinate and no velocity component of the planet is NaN. *)
Definition free_of_nan (p : Planet.t) : Prop :=
  is_nan (Planet.x p) = false /\ is_nan (Planet.y p) = false /\
  is_nan (Planet.vx p) = false /\ is_nan (Planet.vy p) = false.

(** The planet is at a finite position outside the sun, and its velocity
    is not NaN. *)
Definition regular (p : Planet.t) : Prop :=
  finite_position p /\ Planet.isCollidedWithSun p = false /\
  is_nan (Planet.vx p) = false /\ is_nan (Planet.vy p) = false.

(** Both accumulators have [n] entries, all zero or finite with an exponent
    field of at most [E]. *)
Definition entries_bounded (E : Z) (n : nat) (acc : list float * list float) : Prop :=
  length (fst acc) = n /\ length (snd acc) = n /\
  Forall (fun v => sf_bounded E (Prim2SF v)) (fst acc) /\
  Forall (fun v => sf_bounded E (Prim2SF v)) (snd acc).

(** The pairs ([i], [j]) with [i < j < n], in the order in which the two
    loops of [calculatePlanetGravity] reach them. *)
Definition pairsOf (n : nat) : list (nat * nat) :=
  flat_map (fun i => map (fun j => (i, j)) (seq (S i) (n - S i))) (seq 0 n).

(** The pair step run on each pair of a list, in order, from accumulators
    that may already be lost to an exception. *)
Definition runPairs (e : PhysicsEngine) (l : list (nat * nat))
    (start : option (list float * list float)) : option (list float * list float) :=
  fold_left (fun acc ij =>
               match acc with
               | Some s => pairStep e (fst ij) (snd ij) s
               | None => None
               end) l start.

(** An infinity, or a finite number whose exponent field is at least [E]:
    a number of magnitude not below [2 ^ (E + 52)], of either sign. *)
Definition sf_magnitude_from (E : Z) (x : spec_float) : Prop :=
  match x with
  | S754_infinity _ => True
  | S754_finite _ _ e => (E <= e)%Z
  | _ => False
  end.

(** The position is neither so close to the origin nor so far from it that
    the central acceleration overflows or underflows: the larger of the two
    coordinates is at least [1e-140] and below [1e141] in magnitude. *)
Definition central_range (p : Planet.t) : Prop :=
  ((1e-140 <=? abs (Planet.x p)) || (1e-140 <=? abs (Planet.y p)))%float = true /\
  (abs (Planet.x p) <? 1e141)%float = true /\
  (abs (Planet.y p) <? 1e141)%float = true.

(** ** Example states *)

(** Eleven calls with distinct positions: the scenario of the capacity
    test. *)
Definition elevenCalls : list Call :=
  map (fun k : float => (k, (2 * k)%float, 0%float, 0%float, 7%Z))
      [1; 2; 3; 4; 5; 6; 7; 8; 9; 10; 11]%float.

(** The engine after the first ten of them: at capacity. *)
Definition fullEngine : PhysicsEngine :=
  addPlanets (firstn 10 elevenCalls) constructor.

(** Two planets five units apart. *)
Definition nearPair : PhysicsEngine :=
  set_planets constructor [Planet.new 10 0 0 0 1; Planet.new 13 4 0 0 2].

(** Two planets closer than [MIN_DISTANCE]. *)
Definition closePair : PhysicsEngine :=
  set_planets constructor [Planet.new 10 0 0 0 1; Planet.new 10.5 0.25 0 0 2].

(** A planet far out on the x axis, and one near the sun. *)
Definition farPlanet : Planet.t := Planet.new 1e160 0 0 0 1.
Definition innerPlanet : Planet.t := Planet.new 0 50 0 0 2.

(** Two planets farther apart than the cutoff, at viewport scale. *)
Definition farPair : PhysicsEngine :=
  set_planets constructor [Planet.new (-60) 30 0 0 1; Planet.new 60 (-30) 0 0 2].

(** A planet created at the centre of the sun, after its timer has run. *)
Definition originEngine : PhysicsEngine :=
  timerInitTrail 0 (state_of (addPlanet 0 0 0 0 7 constructor)).


(** Three planets: the first survives and has no trail yet, the middle one
    leaves through the boundary, the last one falls into the sun. *)
Definition threePlanets : PhysicsEngine :=
  timerInitTrail 2 (timerInitTrail 1
    (set_planets constructor
       [Planet.new 20 10 0 0 1; Planet.new 80 0 0 0 2; Planet.new 3 0 0 0 3])).

(** One planet in orbit, its trail in existence. *)
Definition orbiting : PhysicsEngine :=
  timerInitTrail 0 (state_of (addPlanet 50 0 0 1e-11 7 constructor)).

(** A page with a fresh engine, and a planet to push. *)
Definition emptyPage : Page := newPage 0.
Definition strayPlanet : Planet.t := Planet.new 1 2 0 0 7.

(** A planet created at the centre of the sun and one in orbit, both with
    their trails. *)
Definition originPair : PhysicsEngine :=
  timerInitTrail 1 (timerInitTrail 0
    (addPlanets [(0, 0, 0, 0, 7%Z); (50, 0, 0, 1e-11, 8%Z)]%float constructor)).

(** The same engine one [update] later. *)
Definition lostPair : PhysicsEngine := state_of (update 100 100 originPair).

(** Three planets with their trails: one in orbit and two inside the sun. *)
Definition twoCollisions : PhysicsEngine :=
  timerInitTrail 2 (timerInitTrail 1 (timerInitTrail 0
    (set_planets constructor
       [Planet.new 20 10 0 0 1; Planet.new 3 0 0 0 2; Planet.new 1 1 0 0 3]))).

(** Two planets in orbit; only the timer of the first has fired. *)
Definition halfTrailed : PhysicsEngine :=
  timerInitTrail 0
    (addPlanets [(50, 0, 0, 1e-11, 7%Z); (0, 50, 1e-11, 0, 8%Z)]%float constructor).

(** The page in an 800 by 600 window, with one planet in orbit. *)
Definition orbitingPage : App :=
  mkApp 0 orbiting (initThreeJS 800 600) (PlanetCount.text 0).

(** The rectangle of an 800 by 600 container at (10, 10), and an
    unprojection for it. *)
Definition container : Rect.t := Rect.mk 10 10 800 600.
Definition unproject66 (nx ny : float) : float * float :=
  ((nx * 66)%float, (ny * 50)%float).





(** * Properties *)

(** ** Lists and arrays *)

Lemma put_at_length {A} (a : list A) i v : length (put_at a i v) = length a.
Proof.
  revert i; induction a as [|h t IH]; intros [|i]; simpl; auto.
Qed.

Lemma splice1_length_le {A} (a : list A) i : length (splice1 a i) <= length a.
Proof.
  revert i; induction a as [|h t IH]; intros [|i]; simpl; auto.
  specialize (IH i); lia.
Qed.

(** ** addPlanet *)

Lemma addPlanet_planets x y vx vy c e :
  planets (state_of (addPlanet x y vx vy c e)) =
  (if PlanetConstants.MAX_COUNT <? S (length (planets e))
   then tl (planets e) else planets e) ++ [Planet.new x y vx vy c].
Proof.
  unfold addPlanet.
  rewrite length_app, Nat.add_comm; simpl length.
  change (1 + length (planets e)) with (S (length (planets e))).
  destruct (PlanetConstants.MAX_COUNT <? S (length (planets e))) eqn:Hfull.
  - destruct (planets e) as [|old rest] eqn:Hps.
    + discriminate Hfull.
    + simpl. destruct (Planet.remove old); reflexivity.
  - reflexivity.
Qed.

Lemma addPlanet_count_le x y vx vy c e :
  length (planets e) <= PlanetConstants.MAX_COUNT ->
  length (planets (state_of (addPlanet x y vx vy c e))) <= PlanetConstants.MAX_COUNT.
Proof.
  intros Hle. rewrite addPlanet_planets, length_app. simpl length.
  destruct (PlanetConstants.MAX_COUNT <? S (length (planets e))) eqn:Hfull.
  - apply Nat.ltb_lt in Hfull. unfold PlanetConstants.MAX_COUNT in *.
    destruct (planets e); simpl in *; lia.
  - apply Nat.ltb_ge in Hfull. lia.
Qed.


(** ** Accumulator arrays *)

Lemma num_get_set_same a i v : num_get (num_set a i v) i = v.
Proof.
  unfold num_get. revert a; induction i as [|i IH]; intros [|h t]; simpl; auto.
Qed.

Lemma num_get_set_other a i j v : i <> j -> num_get (num_set a i v) j = num_get a j.
Proof.
  unfold num_get. revert a j; induction i as [|i IH]; intros [|h t] [|j] Hij;
    simpl; try congruence; auto.
  - destruct j; reflexivity.
  - rewrite IH by congruence. destruct j; reflexivity.
Qed.

Lemma num_set_middle l1 z l2 v k :
  length l1 = k -> num_set (l1 ++ z :: l2) k v = l1 ++ v :: l2.
Proof. intros <-. induction l1 as [|h t IH]; simpl; congruence. Qed.

Lemma num_get_middle l1 z l2 k : length l1 = k -> num_get (l1 ++ z :: l2) k = z.
Proof. intros <-. unfold num_get. induction l1 as [|h t IH]; simpl; auto. Qed.

(** ** Counted loops *)

Lemma for_up_none {S} (body : nat -> S -> option S) ks :
  fold_left (fun acc k => match acc with Some s' => body k s' | None => None end)
            ks None = None.
Proof. induction ks; simpl; auto. Qed.

Lemma for_up_step {S} lo n (body : nat -> S -> option S) s :
  for_up lo (Datatypes.S n) body s =
  match body lo s with
  | Some s' => for_up (Datatypes.S lo) n body s'
  | None => None
  end.
Proof.
  unfold for_up; simpl. destruct (body lo s); auto. apply for_up_none.
Qed.

(** An invariant that every iteration re-establishes holds at loop exit, and
    the loop does not throw. *)
Lemma for_up_invariant {S} (P : nat -> S -> Prop) (body : nat -> S -> option S) :
  forall n lo s,
    P lo s ->
    (forall k s0, lo <= k < lo + n -> P k s0 ->
                  exists s1, body k s0 = Some s1 /\ P (Datatypes.S k) s1) ->
    exists s', for_up lo n body s = Some s' /\ P (lo + n) s'.
Proof.
  induction n as [|n IH]; intros lo s H0 Hstep.
  - exists s. rewrite Nat.add_0_r. split; [reflexivity | assumption].
  - rewrite for_up_step.
    destruct (Hstep lo s) as [s1 [Hb H1]]; [lia | assumption |].
    rewrite Hb.
    destruct (IH (Datatypes.S lo) s1 H1) as [s' [Hr Hp]].
    + intros k s0 Hk Hpk. apply Hstep; [lia | assumption].
    + exists s'. split; [assumption |].
      replace (lo + Datatypes.S n) with (Datatypes.S lo + n) by lia. assumption.
Qed.

(** ** The central-mass loop *)

Lemma nth_error_middle {A} (l1 : list A) z l2 :
  nth_error (l1 ++ z :: l2) (length l1) = Some z.
Proof. induction l1; simpl; auto. Qed.

Lemma sun_loop_spec e :
  let ps := planets e in
  for_up 0 (length ps)
         (fun i acc => calculateSunGravity i (fst acc) (snd acc) e)
         (repeat 0%float (length ps), repeat 0%float (length ps))
  = Some (map (fun p => (0 + sunAccelerationX p)%float) ps,
          map (fun p => (0 + sunAccelerationY p)%float) ps).
Proof.
  intros ps.
  pose (P := fun (k : nat) (acc : list float * list float) =>
    fst acc = map (fun p => (0 + sunAccelerationX p)%float) (firstn k ps)
              ++ repeat 0%float (length ps - k) /\
    snd acc = map (fun p => (0 + sunAccelerationY p)%float) (firstn k ps)
              ++ repeat 0%float (length ps - k)).
  destruct (@for_up_invariant _ P
              (fun i acc => calculateSunGravity i (fst acc) (snd acc) e)
              (length ps) 0
              (repeat 0%float (length ps), repeat 0%float (length ps)))
    as [[ax ay] [Hrun [Hx Hy]]].
  - unfold P; simpl. rewrite Nat.sub_0_r. auto.
  - intros k [ax ay] Hk [Hx Hy]; simpl in Hx, Hy.
    unfold calculateSunGravity; fold ps.
    destruct (nth_error ps k) as [p|] eqn:Hp.
    2:{ apply nth_error_None in Hp. lia. }
    unfold sunAccelerationX, sunAccelerationY in *.
    destruct (sunAcceleration p) as [accelX accelY] eqn:Hacc.
    eexists; split; [reflexivity |].
    assert (Hlen : forall f : Planet.t -> float,
               length (map f (firstn k ps)) = k).
    { intros f. rewrite length_map, length_firstn. lia. }
    assert (Hsplit : firstn (S k) ps = firstn k ps ++ [p]).
    { clear - Hp. revert k Hp; induction ps as [|q qs IH]; intros [|k] Hp;
        simpl in *; try discriminate.
      - congruence.
      - rewrite (IH k Hp). reflexivity. }
    assert (Hrep : repeat 0%float (length ps - k)
                   = 0%float :: repeat 0%float (length ps - S k)).
    { replace (length ps - k) with (S (length ps - S k)) by lia. reflexivity. }
    unfold P; cbn [fst snd].
    rewrite Hx, Hy, Hrep, Hsplit, !map_app; cbn [map].
    rewrite !(@num_get_middle _ _ _ k), !(@num_set_middle _ _ _ _ k) by apply Hlen.
    rewrite Hacc, <- !app_assoc. split; reflexivity.
  - simpl in Hx, Hy. rewrite Nat.sub_diag, firstn_all, app_nil_r in Hx, Hy.
    simpl in Hrun. rewrite Hrun. subst ax ay. reflexivity.
Qed.

(** ** The pair loop *)

Lemma pairStep_in_range e i j acc :
  i < length (planets e) -> j < length (planets e) ->
  exists acc', pairStep e i j acc = Some acc'.
Proof.
  intros Hi Hj. unfold pairStep.
  destruct (nth_error (planets e) i) as [pi|] eqn:Hpi.
  2:{ apply nth_error_None in Hpi. lia. }
  destruct (nth_error (planets e) j) as [pj|] eqn:Hpj.
  2:{ apply nth_error_None in Hpj. lia. }
  destruct (maxDistanceSquared <? separationSquared pi pj)%float.
  - eauto.
  - destruct acc as [ax ay]. destruct (pairAcceleration pi pj). eauto.
Qed.

(** A pair beyond the cutoff leaves both accumulators as they were. *)
Lemma pairStep_skip e i j pi pj acc :
  nth_error (planets e) i = Some pi ->
  nth_error (planets e) j = Some pj ->
  (maxDistanceSquared <? separationSquared pi pj)%float = true ->
  pairStep e i j acc = Some acc.
Proof.
  intros Hpi Hpj Hfar. unfold pairStep. rewrite Hpi, Hpj, Hfar. reflexivity.
Qed.

(** The loops of [calculatePlanetGravity] keep an invariant that every pair
    step keeps. *)
Lemma calculatePlanetGravity_invariant (P : list float * list float -> Prop) e :
  (forall i j acc, i < j < length (planets e) -> P acc ->
                   exists acc', pairStep e i j acc = Some acc' /\ P acc') ->
  forall ax ay, P (ax, ay) ->
  exists acc', calculatePlanetGravity ax ay e = Some acc' /\ P acc'.
Proof.
  intros Hstep ax ay H0. unfold calculatePlanetGravity.
  set (n := length (planets e)) in *.
  destruct (@for_up_invariant _ (fun _ acc => P acc)
              (fun i => for_up (S i) (n - S i) (pairStep e i)) n 0 (ax, ay) H0)
    as [acc' [Hrun Hp]]; [| eauto].
  intros i acc Hi Hacc.
  destruct (@for_up_invariant _ (fun _ a => P a) (pairStep e i)
              (n - S i) (S i) acc Hacc)
    as [acc1 [Hrun1 Hp1]]; [| eauto].
  intros j a Hj Ha. apply Hstep; [lia | assumption].
Qed.

Lemma calculatePlanetGravity_total ax ay e :
  exists acc', calculatePlanetGravity ax ay e = Some acc'.
Proof.
  destruct (@calculatePlanetGravity_invariant (fun _ => True) e) with (ax := ax) (ay := ay)
    as [acc' [H _]]; [| exact I | eauto].
  intros i j acc Hij _.
  destruct (@pairStep_in_range e i j acc) as [acc' H]; [lia | lia | eauto].
Qed.

Lemma calculatePlanetGravity_all_skipped ax ay e :
  all_pairs_beyond_cutoff (planets e) ->
  calculatePlanetGravity ax ay e = Some (ax, ay).
Proof.
  intros Hfar.
  destruct (@calculatePlanetGravity_invariant (fun acc => acc = (ax, ay)) e)
    with (ax := ax) (ay := ay) as [acc' [H ->]]; [| reflexivity | exact H].
  intros i j acc Hij ->.
  destruct (nth_error (planets e) i) as [pi|] eqn:Hpi.
  2:{ apply nth_error_None in Hpi. lia. }
  destruct (nth_error (planets e) j) as [pj|] eqn:Hpj.
  2:{ apply nth_error_None in Hpj. lia. }
  exists (ax, ay). split; [| reflexivity].
  apply pairStep_skip with (pi := pi) (pj := pj); auto.
  apply (Hfar i j); auto. lia.
Qed.

Lemma accelerations_total e : exists acc, accelerations e = Some acc.
Proof.
  unfold accelerations. rewrite sun_loop_spec. apply calculatePlanetGravity_total.
Qed.

Lemma accelerations_all_skipped e :
  all_pairs_beyond_cutoff (planets e) ->
  accelerations e =
  Some (map (fun p => (0 + sunAccelerationX p)%float) (planets e),
        map (fun p => (0 + sunAccelerationY p)%float) (planets e)).
Proof.
  intros Hfar. unfold accelerations. rewrite sun_loop_spec.
  apply calculatePlanetGravity_all_skipped. assumption.
Qed.

(** ** Trails *)

Lemma shiftTrail_full (a : list (option Point)) v :
  length a = PlanetConstants.TRAIL_LENGTH ->
  obj_set (Planet.shiftTrail (PlanetConstants.TRAIL_LENGTH - 1) a) 0 v
  = v :: removelast a.
Proof.
  unfold PlanetConstants.TRAIL_LENGTH. intros Hlen.
  do 10 (destruct a as [|? a]; [discriminate Hlen |]).
  destruct a; [reflexivity | discriminate Hlen].
Qed.

Lemma removelast_length {A} (a : list A) :
  a <> [] -> length (removelast a) = length a - 1.
Proof.
  induction a as [|h t IH]; [congruence |]. intros _.
  destruct t as [|h' t']; [reflexivity |].
  change (removelast (h :: h' :: t')) with (h :: removelast (h' :: t')).
  simpl length in *. rewrite IH by congruence. lia.
Qed.

Lemma forallb_removelast {A} (f : A -> bool) (a : list A) :
  forallb f a = true -> forallb f (removelast a) = true.
Proof.
  induction a as [|h t IH]; [auto |]. intros H.
  destruct t as [|h' t']; [reflexivity |].
  change (removelast (h :: h' :: t')) with (h :: removelast (h' :: t')).
  simpl in H |- *. apply andb_true_iff in H as [Hh Ht].
  rewrite Hh. apply IH. exact Ht.
Qed.

Lemma initTrail_ok p : trail_ok (Planet.initTrail p).
Proof.
  unfold trail_ok, Planet.initTrail; simpl. split; reflexivity.
Qed.

(** Without the trail flag [Planet.update] returns and leaves the trail. *)
Lemma Planet_update_no_trail ax ay p :
  exists p', Planet.update ax ay false p = Normal tt p' /\
             Planet.trailPositions p' = Planet.trailPositions p.
Proof. unfold Planet.update. eexists; split; reflexivity. Qed.

(** With the flag, on a well-formed trail, it returns; the new position is
    the head of the trail and the oldest sample is gone. *)
Lemma Planet_update_trail ax ay p a :
  Planet.trailPositions p = Some a ->
  length a = PlanetConstants.TRAIL_LENGTH ->
  forallb Planet.is_defined a = true ->
  exists p', Planet.update ax ay true p = Normal tt p' /\
             Planet.trailPositions p' =
             Some (Some (mkPoint (Planet.x p') (Planet.y p')) :: removelast a).
Proof.
  intros Ha Hlen Hdef. unfold Planet.update. rewrite Ha.
  rewrite shiftTrail_full by assumption.
  cbn [forallb Planet.is_defined andb].
  rewrite forallb_removelast by assumption.
  eexists; split; reflexivity.
Qed.

Lemma Planet_update_trail_ok ax ay flag p :
  trail_ok p -> trail_ok (state_of (Planet.update ax ay flag p)).
Proof.
  unfold trail_ok. intros Hok. destruct flag.
  - destruct (Planet.trailPositions p) as [a|] eqn:Ha.
    + destruct Hok as [Hlen Hdef].
      destruct (@Planet_update_trail ax ay p a Ha Hlen Hdef) as [p' [-> Ht]].
      simpl. rewrite Ht. split.
      * simpl length. rewrite removelast_length.
        -- rewrite Hlen. reflexivity.
        -- intros ->. discriminate Hlen.
      * cbn [forallb Planet.is_defined andb]. apply forallb_removelast, Hdef.
    + unfold Planet.update. rewrite Ha. simpl. exact I.
  - destruct (Planet_update_no_trail ax ay p) as [p' [-> Ht]].
    simpl. rewrite Ht. exact Hok.
Qed.

(** ** The integration loop *)

Lemma put_at_middle {A} (l1 : list A) z l2 v :
  put_at (l1 ++ z :: l2) (length l1) v = l1 ++ v :: l2.
Proof. induction l1 as [|h t IH]; simpl; congruence. Qed.

(** Whatever the completion, the loop leaves a list that is pointwise
    related to the one it started from by any relation that [Planet.update]
    establishes. *)
Lemma updatePlanets_state (R : Planet.t -> Planet.t -> Prop) flag ax ay :
  (forall a b p, R p (state_of (Planet.update a b flag p))) ->
  (forall p, R p p) ->
  forall todo done,
    exists todo',
      state_of (updatePlanets (length todo) (length done) ax ay flag (done ++ todo))
      = done ++ todo' /\ Forall2 R todo todo'.
Proof.
  intros Hupd Hrefl. induction todo as [|p rest IH]; intros done.
  - exists []. simpl. split; [reflexivity | constructor].
  - cbn [length updatePlanets]. rewrite nth_error_middle.
    specialize (Hupd (num_get ax (length done)) (num_get ay (length done)) p).
    destruct (Planet.update (num_get ax (length done)) (num_get ay (length done)) flag p)
      as [[] p'|p']; simpl in Hupd; rewrite put_at_middle.
    + destruct (IH (done ++ [p'])) as [rest' [Hrun Hrel]].
      rewrite length_app, Nat.add_comm in Hrun. simpl in Hrun.
      rewrite <- app_assoc in Hrun. simpl in Hrun.
      exists (p' :: rest'). rewrite Hrun, <- app_assoc. simpl.
      split; [reflexivity | constructor; assumption].
    + exists (p' :: rest). simpl. split; [reflexivity |].
      constructor; [assumption |].
      clear - Hrefl. induction rest; constructor; auto.
Qed.

(** When [Planet.update] returns on every planet, so does the loop. *)
Lemma updatePlanets_normal (Q : Planet.t -> Prop) (R : Planet.t -> Planet.t -> Prop)
    flag ax ay :
  (forall a b p, Q p -> exists p', Planet.update a b flag p = Normal tt p' /\ R p p') ->
  forall todo done,
    Forall Q todo ->
    exists todo',
      updatePlanets (length todo) (length done) ax ay flag (done ++ todo)
      = Normal tt (done ++ todo') /\ Forall2 R todo todo'.
Proof.
  intros Hupd. induction todo as [|p rest IH]; intros done HQ.
  - exists []. simpl. split; [reflexivity | constructor].
  - inversion HQ as [|? ? Hp Hrest]; subst.
    cbn [length updatePlanets]. rewrite nth_error_middle.
    destruct (Hupd (num_get ax (length done)) (num_get ay (length done)) p Hp)
      as [p' [-> Hrel]].
    rewrite put_at_middle.
    destruct (IH (done ++ [p']) Hrest) as [rest' [Hrun Hrels]].
    rewrite length_app, Nat.add_comm in Hrun. simpl in Hrun.
    rewrite <- app_assoc in Hrun. simpl in Hrun.
    exists (p' :: rest'). rewrite Hrun, <- app_assoc. simpl.
    split; [reflexivity | constructor; assumption].
Qed.

(** ** update *)

Lemma shouldUpdateTrails_frame t e :
  planets (snd (shouldUpdateTrails t e)) = planets e /\
  collisionEffect (snd (shouldUpdateTrails t e)) = collisionEffect e.
Proof.
  unfold shouldUpdateTrails.
  destruct (RenderConstants.TRAIL_UPDATE_INTERVAL <? t - lastTrailUpdateTime e)%Z;
    split; reflexivity.
Qed.

Lemma expireCollisionEffect_planets t e : planets (expireCollisionEffect t e) = planets e.
Proof.
  unfold expireCollisionEffect.
  destruct (collisionEffectActive e); [| reflexivity].
  destruct (CollisionConstants.COLLISION_EFFECT_DURATION
              <? t - collisionEffectStartTime e)%Z; reflexivity.
Qed.


(** The planets after [update], whatever its completion, are pointwise
    related to the planets before by any reflexive relation that
    [Planet.update] establishes. *)
Lemma update_planets_state (R : Planet.t -> Planet.t -> Prop) t1 t2 e :
  (forall a b p, R p (state_of (Planet.update a b (fst (shouldUpdateTrails t1 e)) p))) ->
  (forall p, R p p) ->
  Forall2 R (planets e) (planets (state_of (update t1 t2 e))).
Proof.
  intros Hupd Hrefl.
  assert (Hsame : forall l, Forall2 R l l).
  { induction l; constructor; auto. }
  unfold update.
  pose proof (shouldUpdateTrails_frame t1 e) as [Hps _].
  destruct (shouldUpdateTrails t1 e) as [flag e1]. cbn [fst snd] in *.
  pose proof (expireCollisionEffect_planets t2 e1) as Hps2.
  set (e2 := expireCollisionEffect t2 e1) in *.
  assert (Hpe : planets e2 = planets e) by congruence.
  destruct (length (planets e2) =? 0).
  { simpl. rewrite Hpe. apply Hsame. }
  destruct (accelerations e2) as [[ax ay]|].
  2:{ simpl. rewrite Hpe. apply Hsame. }
  destruct (@updatePlanets_state R flag ax ay Hupd Hrefl (planets e2) [])
    as [ps' [Hrun Hrel]].
  simpl in Hrun. rewrite Hpe in *.
  destruct (updatePlanets _ _ _ _ _ _); simpl in *; subst; assumption.
Qed.

(** When [Planet.update] returns on every planet, [update] returns. *)
Lemma update_returns (Q : Planet.t -> Prop) (R : Planet.t -> Planet.t -> Prop) t1 t2 e :
  (forall a b p, Q p ->
     exists p', Planet.update a b (fst (shouldUpdateTrails t1 e)) p = Normal tt p'
                /\ R p p') ->
  Forall Q (planets e) ->
  exists e', update t1 t2 e = Normal (fst (shouldUpdateTrails t1 e)) e' /\
             Forall2 R (planets e) (planets e').
Proof.
  intros Hupd HQ.
  unfold update.
  pose proof (shouldUpdateTrails_frame t1 e) as [Hps _].
  destruct (shouldUpdateTrails t1 e) as [flag e1]. cbn [fst snd] in *.
  pose proof (expireCollisionEffect_planets t2 e1) as Hps2.
  set (e2 := expireCollisionEffect t2 e1) in *.
  assert (Hpe : planets e2 = planets e) by congruence.
  destruct (length (planets e2) =? 0) eqn:Hn.
  { apply Nat.eqb_eq in Hn. exists e2. split; [reflexivity |].
    rewrite Hpe in *. destruct (planets e); [constructor | discriminate Hn]. }
  destruct (accelerations_total e2) as [[ax ay] ->].
  destruct (@updatePlanets_normal Q R flag ax ay Hupd (planets e2) [])
    as [ps' [Hrun Hrel]].
  { rewrite Hpe. exact HQ. }
  simpl in Hrun. rewrite Hrun.
  eexists; split; [reflexivity |]. simpl. rewrite <- Hpe. exact Hrel.
Qed.

(** [Planet.update] with the trail flag returns only on a planet with a
    trail. *)
Lemma Planet_update_sampled_initialized ax ay p :
  match Planet.update ax ay true p with
  | Normal _ p' => trail_initialized p'
  | TypeError _ => True
  end.
Proof.
  unfold Planet.update, trail_initialized.
  destruct (Planet.trailPositions p) as [a|]; [| exact I].
  destruct (forallb Planet.is_defined _); [| exact I].
  cbn [Planet.trailPositions]. discriminate.
Qed.

(** An [update] that sampled the trails and returned leaves every trail in
    existence.  In a frame of the page, [removeOutOfBoundsPlanets] is called
    right after such an [update]. *)
Lemma updatePlanets_sampled_initialized ax ay :
  forall todo done ps',
    updatePlanets (length todo) (length done) ax ay true (done ++ todo) = Normal tt ps' ->
    exists todo', ps' = done ++ todo' /\ Forall trail_initialized todo'.
Proof.
  induction todo as [|p rest IH]; intros done ps' Hrun.
  - simpl in Hrun. injection Hrun as <-. exists []. split; [reflexivity | constructor].
  - cbn [length updatePlanets] in Hrun. rewrite nth_error_middle in Hrun.
    pose proof (Planet_update_sampled_initialized
                  (num_get ax (length done)) (num_get ay (length done)) p) as Hp.
    destruct (Planet.update (num_get ax (length done)) (num_get ay (length done)) true p)
      as [[] p'|p']; [| discriminate Hrun].
    rewrite put_at_middle in Hrun.
    replace (S (length done)) with (length (done ++ [p'])) in Hrun
      by (rewrite length_app; simpl; lia).
    replace (done ++ p' :: rest) with ((done ++ [p']) ++ rest) in Hrun
      by (rewrite <- app_assoc; reflexivity).
    destruct (IH _ _ Hrun) as [rest' [-> Hall]].
    exists (p' :: rest'). rewrite <- app_assoc. split; [reflexivity |].
    constructor; assumption.
Qed.

Lemma update_sampled_initialized t1 t2 e e' :
  update t1 t2 e = Normal true e' -> Forall trail_initialized (planets e').
Proof.
  unfold update. destruct (shouldUpdateTrails t1 e) as [flag e1].
  set (e2 := expireCollisionEffect t2 e1).
  destruct (length (planets e2) =? 0) eqn:Hn.
  - intros H. injection H as -> <-. apply Nat.eqb_eq in Hn.
    destruct (planets e2); [constructor | discriminate Hn].
  - destruct (accelerations e2) as [[ax ay]|]; [| discriminate].
    destruct (updatePlanets _ _ _ _ _ _) as [[] ps|ps] eqn:Hrun; [| discriminate].
    intros H. injection H as -> <-. cbn [planets set_planets].
    destruct (updatePlanets_sampled_initialized ax ay (planets e2) [] ps Hrun)
      as [todo' [-> Hall]].
    exact Hall.
Qed.

(** ** removeOutOfBoundsPlanets *)

Lemma visits_app maxX maxY k l1 l2 :
  visits maxX maxY k (l1 ++ l2)
  = visits maxX maxY k l1 ++ visits maxX maxY (k + length l1) l2.
Proof.
  revert k; induction l1 as [|p t IH]; intros k; simpl.
  - rewrite Nat.add_0_r. reflexivity.
  - rewrite IH. replace (S k + length t) with (k + S (length t)) by lia. reflexivity.
Qed.

Lemma effectOfLog_app now l1 l2 eff :
  effectOfLog now (l1 ++ l2) eff = effectOfLog now l1 (effectOfLog now l2 eff).
Proof.
  induction l1 as [|[[i p] o] t IH]; simpl; [reflexivity |].
  destruct o; auto.
Qed.

Lemma splice1_middle {A} (l1 : list A) z l2 : splice1 (l1 ++ z :: l2) (length l1) = l1 ++ l2.
Proof. induction l1 as [|h t IH]; simpl; congruence. Qed.


Lemma Forall_splice1 {A} (P : A -> Prop) (a : list A) i :
  Forall P a -> Forall P (splice1 a i).
Proof.
  revert i; induction a as [|h t IH]; intros [|i] H; simpl; auto;
    inversion H; subst; auto.
Qed.

Lemma Planet_remove_initialized p :
  trail_initialized p -> Planet.remove p = Normal tt p.
Proof.
  unfold trail_initialized, Planet.remove.
  destruct (Planet.trailPositions p); congruence.
Qed.

(** Planets whose trails exist can all be released. *)
Lemma initialized_releasable maxX maxY ps :
  Forall trail_initialized ps -> Forall (releasable maxX maxY) ps.
Proof.
  induction 1 as [|p ps Hp _ IH]; constructor; [intros _; exact Hp | exact IH].
Qed.

(** The loop from the right end of [front]: when the planets of [front]
    that it removes can be released it returns, has visited the planets of [front] once each, has
    kept exactly the survivors, and has left the effect of the most recent
    collision visit. *)
Lemma removeLoop_spec now maxX maxY :
  forall front back log e,
    planets e = front ++ back ->
    Forall (releasable maxX maxY) front ->
    exists e',
      removeLoop now maxX maxY (length front) log e
      = Normal (visits maxX maxY 0 front ++ log) e' /\
      planets e' = filter (survives maxX maxY) front ++ back /\
      collisionEffect e'
      = effectOfLog now (visits maxX maxY 0 front) (collisionEffect e) /\
      lastTrailUpdateTime e' = lastTrailUpdateTime e.
Proof.
  induction front as [|p f IH] using rev_ind; intros back log e Hps Hinit.
  - exists e. simpl. auto.
  - apply Forall_app in Hinit as [Hf Hp]. inversion Hp as [|? ? Hp1 _]; subst.
    rewrite length_app, Nat.add_comm. cbn [length plus removeLoop].
    rewrite <- app_assoc in Hps. cbn [app] in Hps.
    rewrite Hps, nth_error_middle.
    rewrite visits_app, effectOfLog_app, filter_app, <- !app_assoc.
    cbn [visits app filter plus]. unfold releasable in Hp1.
    unfold survives at 2, outcomeOf. unfold survives in Hp1.
    destruct (Planet.isOutOfBounds maxX maxY p) eqn:Hoob; cbn [negb andb] in *.
    + rewrite (Planet_remove_initialized p (Hp1 eq_refl)).
      destruct (IH back ((length f, p, BoundaryExit) :: log)
                   (set_planets e (splice1 (planets e) (length f))))
        as [e' [Hrun [Hpl [Heff Hlast]]]]; [| assumption |].
      { simpl. rewrite Hps. apply splice1_middle. }
      exists e'. rewrite <- Hps, Hrun. cbn [effectOfLog]. auto.
    + destruct (Planet.isCollidedWithSun p) eqn:Hcol; cbn [negb] in *.
      * rewrite (Planet_remove_initialized p (Hp1 eq_refl)).
        destruct (IH back ((length f, p, SunCollision) :: log)
                     (set_planets
                        (set_collisionEffect e (Planet.x p) (Planet.y p) (now (length f)))
                        (splice1 (planets e) (length f))))
          as [e' [Hrun [Hpl [Heff Hlast]]]]; [| assumption |].
        { simpl. rewrite Hps. apply splice1_middle. }
        exists e'. cbn [planets set_collisionEffect]. rewrite Hrun.
        cbn [effectOfLog]. auto.
      * destruct (IH (p :: back) ((length f, p, Kept) :: log) e Hps Hf)
          as [e' [Hrun [Hpl [Heff Hlast]]]].
        exists e'. rewrite Hrun. cbn [effectOfLog]. auto.
Qed.

(** Whatever the completion, the loop only removes planets. *)
Lemma removeLoop_planets_any now maxX maxY (P : Planet.t -> Prop) :
  forall i1 log e,
    let e' := state_of (removeLoop now maxX maxY i1 log e) in
    length (planets e') <= length (planets e) /\
    (Forall P (planets e) -> Forall P (planets e')).
Proof.
  induction i1 as [|i IH]; intros log e; cbn [removeLoop].
  - simpl. auto.
  - destruct (nth_error (planets e) i) as [p|]; [| simpl; auto].
    destruct (Planet.isOutOfBounds maxX maxY p).
    + destruct (Planet.remove p); [| simpl; auto].
      destruct (IH ((i, p, BoundaryExit) :: log)
                   (set_planets e (splice1 (planets e) i))) as [Hlen Hall].
      cbn [planets set_planets] in Hlen, Hall.
      pose proof (splice1_length_le (planets e) i).
      split; [lia |]. intros H0. apply Hall, Forall_splice1, H0.
    + destruct (Planet.isCollidedWithSun p); [| apply IH].
      destruct (Planet.remove p); [| simpl; auto].
      destruct (IH ((i, p, SunCollision) :: log)
                   (set_planets
                      (set_collisionEffect e (Planet.x p) (Planet.y p) (now i))
                      (splice1 (planets e) i))) as [Hlen Hall].
      cbn [planets set_planets set_collisionEffect] in Hlen, Hall |- *.
      pose proof (splice1_length_le (planets e) i).
      split; [lia |]. intros H0. apply Hall, Forall_splice1, H0.
Qed.


Lemma filter_splice1 {A} (f : A -> bool) (a : list A) i x :
  nth_error a i = Some x -> f x = false -> filter f (splice1 a i) = filter f a.
Proof.
  revert i; induction a as [|h t IH]; intros [|i] Hx Hf; simpl in *; try discriminate.
  - injection Hx as ->. rewrite Hf. reflexivity.
  - rewrite (IH i Hx Hf). reflexivity.
Qed.

(** Whatever the completion, the planets that are neither out of bounds nor
    inside the sun are all still there, in their order. *)
Lemma removeLoop_survivors_any now maxX maxY :
  forall i1 log e,
    filter (survives maxX maxY) (planets (state_of (removeLoop now maxX maxY i1 log e)))
    = filter (survives maxX maxY) (planets e).
Proof.
  induction i1 as [|i IH]; intros log e; cbn [removeLoop]; [reflexivity |].
  destruct (nth_error (planets e) i) as [p|] eqn:Hp; [| reflexivity].
  destruct (Planet.isOutOfBounds maxX maxY p) eqn:Hoob.
  - destruct (Planet.remove p); [| reflexivity].
    rewrite IH. cbn [planets set_planets].
    apply (filter_splice1 _ _ _ p Hp). unfold survives. rewrite Hoob. reflexivity.
  - destruct (Planet.isCollidedWithSun p) eqn:Hcol; [| apply IH].
    destruct (Planet.remove p); [| reflexivity].
    rewrite IH. cbn [planets set_planets set_collisionEffect].
    apply (filter_splice1 _ _ _ p Hp). unfold survives. rewrite Hoob, Hcol. reflexivity.
Qed.

Lemma removeOutOfBoundsPlanets_survivors_any now maxX maxY e :
  filter (survives maxX maxY)
         (planets (state_of (removeOutOfBoundsPlanets now maxX maxY e)))
  = filter (survives maxX maxY) (planets e).
Proof.
  unfold removeOutOfBoundsPlanets.
  destruct (length (planets e) =? 0); [reflexivity |].
  apply removeLoop_survivors_any.
Qed.

Lemma removeOutOfBoundsPlanets_planets_any now maxX maxY (P : Planet.t -> Prop) e :
  let e' := state_of (removeOutOfBoundsPlanets now maxX maxY e) in
  length (planets e') <= length (planets e) /\
  (Forall P (planets e) -> Forall P (planets e')).
Proof.
  unfold removeOutOfBoundsPlanets.
  destruct (length (planets e) =? 0); [simpl; auto |].
  apply removeLoop_planets_any.
Qed.


(** When the planets it removes can be released the call returns; its log,
    survivors and effect are those of [removeLoop_spec]. *)
Lemma removeOutOfBoundsPlanets_spec now maxX maxY e :
  Forall (releasable maxX maxY) (planets e) ->
  exists e',
    removeOutOfBoundsPlanets now maxX maxY e
    = Normal (visits maxX maxY 0 (planets e)) e' /\
    planets e' = filter (survives maxX maxY) (planets e) /\
    collisionEffect e'
    = effectOfLog now (visits maxX maxY 0 (planets e)) (collisionEffect e) /\
    lastTrailUpdateTime e' = lastTrailUpdateTime e.
Proof.
  intros Hinit. unfold removeOutOfBoundsPlanets.
  destruct (length (planets e) =? 0) eqn:Hn.
  - apply Nat.eqb_eq in Hn. destruct (planets e) eqn:Hps; [| discriminate Hn].
    exists e. rewrite Hps. simpl. auto.
  - destruct (@removeLoop_spec now maxX maxY (planets e) [] [] e)
      as [e' [Hrun [Hpl [Heff Hlast]]]];
      [symmetry; apply app_nil_r | assumption |].
    rewrite !app_nil_r in *. exists e'. auto.
Qed.

(** ** Invariants of the reachable states *)

Lemma Forall_put_at {A} (P : A -> Prop) (a : list A) i v :
  Forall P a -> P v -> Forall P (put_at a i v).
Proof.
  revert i; induction a as [|h t IH]; intros [|i] H Hv; simpl; auto;
    inversion H; subst; auto.
Qed.

Lemma Forall2_implies_Forall {A} (P : A -> Prop) (l l' : list A) :
  Forall2 (fun p p' => P p -> P p') l l' -> Forall P l -> Forall P l'.
Proof.
  induction 1 as [|p p' l l' Hp _ IH]; intros H; [constructor |].
  inversion H; subst. constructor; auto.
Qed.

(** The capacity bound and the shape of the trails hold in every state the
    engine can be in. *)
Lemma reachable_invariant e :
  reachable e ->
  length (planets e) <= PlanetConstants.MAX_COUNT /\ Forall trail_ok (planets e).
Proof.
  induction 1 as [| e x y vx vy c _ [IHn IHt] | e t1 t2 _ [IHn IHt]
                  | e now maxX maxY _ [IHn IHt] | e i _ [IHn IHt]].
  - split; [apply Nat.le_0_l | constructor].
  - split; [apply addPlanet_count_le; assumption |].
    rewrite addPlanet_planets. apply Forall_app. split.
    + destruct (PlanetConstants.MAX_COUNT <? S (length (planets e))); [| assumption].
      destruct (planets e); [constructor |]. inversion IHt; assumption.
    + constructor; [exact I | constructor].
  - pose proof (@update_planets_state (fun p p' => trail_ok p -> trail_ok p') t1 t2 e) as H.
    assert (Hrel : Forall2 (fun p p' => trail_ok p -> trail_ok p')
                           (planets e) (planets (state_of (update t1 t2 e)))).
    { apply H; [| auto]. intros a b p. apply Planet_update_trail_ok. }
    split.
    + rewrite <- (Forall2_length Hrel). assumption.
    + apply (Forall2_implies_Forall _ _ _ Hrel IHt).
  - destruct (removeOutOfBoundsPlanets_planets_any now maxX maxY trail_ok e) as [Hlen Hall].
    split; [lia | auto].
  - unfold timerInitTrail.
    destruct (nth_error (planets e) i) as [p|]; [| auto].
    destruct (Planet.trailPositions p); [auto |].
    cbn [planets set_planets]. rewrite put_at_length. split; [assumption |].
    apply Forall_put_at; [assumption | apply initTrail_ok].
Qed.

(** ** Sequences of addPlanet calls *)

Lemma reachable_addPlanets calls e : reachable e -> reachable (addPlanets calls e).
Proof.
  revert e; induction calls as [|[[[[x y] vx] vy] c] calls IH]; intros e He.
  - exact He.
  - apply IH. apply reach_addPlanet. exact He.
Qed.

(** From a state within capacity, a run of calls leaves the newest
    [MAX_COUNT] of the planets that were there or were created. *)
Lemma addPlanets_planets calls :
  forall e,
    length (planets e) <= PlanetConstants.MAX_COUNT ->
    planets (addPlanets calls e)
    = skipn (length (planets e) + length calls - PlanetConstants.MAX_COUNT)
            (planets e ++ map planetOfCall calls).
Proof.
  induction calls as [|[[[[x y] vx] vy] c] calls IH]; intros e Hle.
  - simpl. replace (length (planets e) + 0 - PlanetConstants.MAX_COUNT) with 0 by lia.
    rewrite app_nil_r. reflexivity.
  - cbn [addPlanets fold_left addPlanetCall].
    change (fold_left addPlanetCall calls ?s) with (addPlanets calls s).
    rewrite IH by (apply addPlanet_count_le; exact Hle).
    rewrite addPlanet_planets.
    cbn [map planetOfCall length].
    destruct (PlanetConstants.MAX_COUNT <? S (length (planets e))) eqn:Hfull.
    + apply Nat.ltb_lt in Hfull.
      destruct (planets e) as [|old rest] eqn:Hps.
      * unfold PlanetConstants.MAX_COUNT in Hfull. simpl in Hfull. lia.
      * cbn [tl length] in *. rewrite length_app. cbn [length].
        rewrite <- app_assoc. cbn [app].
        replace (S (length rest) + S (length calls) - PlanetConstants.MAX_COUNT)
          with (S (length rest + 1 + length calls - PlanetConstants.MAX_COUNT)) by lia.
        reflexivity.
    + apply Nat.ltb_ge in Hfull. rewrite length_app. cbn [length].
      rewrite <- app_assoc. cbn [app].
      replace (length (planets e) + 1 + length calls)
        with (length (planets e) + S (length calls)) by lia.
      reflexivity.
Qed.

Lemma hd_error_skipn_1 {A} (l : list A) : hd_error (skipn 1 l) = nth_error l 1.
Proof. destruct l as [|a [|b l]]; reflexivity. Qed.

(** C1.  From any reachable state, [addPlanet] leaves at most [MAX_COUNT]
    planets; the new planet goes to the tail, and when the count would
    exceed [MAX_COUNT] exactly the head, the oldest planet, is dropped,
    whatever its position or velocity.  A run of calls from the fresh engine
    keeps the newest [MAX_COUNT] planets created; after [MAX_COUNT + 1] calls
    the count is [MAX_COUNT] and the oldest planet left is the second one
    created. *)
Theorem addPlanet_fifo_capacity :
  forall (e : PhysicsEngine) (x y vx vy : float) (c : Z) (calls : list Call),
    reachable e ->
    let e' := state_of (addPlanet x y vx vy c e) in
    let run := addPlanets calls constructor in
    getPlanetCount e' <= PlanetConstants.MAX_COUNT /\
    planets e'
    = (if PlanetConstants.MAX_COUNT <? S (getPlanetCount e)
       then tl (planets e) else planets e) ++ [Planet.new x y vx vy c] /\
    (getPlanetCount e = PlanetConstants.MAX_COUNT ->
     exists oldest rest,
       planets e = oldest :: rest /\
       planets e' = rest ++ [Planet.new x y vx vy c]) /\
    getPlanetCount run <= PlanetConstants.MAX_COUNT /\
    planets run
    = skipn (length calls - PlanetConstants.MAX_COUNT) (map planetOfCall calls) /\
    (length calls = S PlanetConstants.MAX_COUNT ->
     getPlanetCount run = PlanetConstants.MAX_COUNT /\
     hd_error (planets run) = nth_error (map planetOfCall calls) 1).
Proof.
  intros e x y vx vy c calls He e' run.
  destruct (reachable_invariant e He) as [Hle _].
  assert (Hrun : planets run
                 = skipn (length calls - PlanetConstants.MAX_COUNT)
                         (map planetOfCall calls)).
  { unfold run. rewrite addPlanets_planets by apply Nat.le_0_l. reflexivity. }
  split; [apply addPlanet_count_le; exact Hle |].
  split; [apply addPlanet_planets |].
  split.
  { intros Hfull. unfold e'. rewrite addPlanet_planets.
    unfold getPlanetCount in Hfull. unfold getPlanetCount. rewrite Hfull.
    destruct (planets e) as [|oldest rest]; [discriminate Hfull |].
    exists oldest, rest. split; reflexivity. }
  split.
  { apply (reachable_invariant _ (reachable_addPlanets calls _ reach_constructor)). }
  split; [exact Hrun |].
  intros Hn. unfold getPlanetCount. rewrite Hrun, Hn.
  replace (S PlanetConstants.MAX_COUNT - PlanetConstants.MAX_COUNT) with 1 by lia.
  split; [| apply hd_error_skipn_1].
  rewrite length_skipn, length_map, Hn. lia.
Qed.

Lemma addPlanet_fifo_capacity_witness :
  reachable fullEngine /\
  getPlanetCount fullEngine = 10 /\
  getPlanetCount (state_of (addPlanet 11 22 0 0 7 fullEngine)) <= 10 /\
  hd_error (planets (addPlanets elevenCalls constructor))
  = Some (Planet.new 2 4 0 0 7).
Proof.
  assert (Hfull : reachable fullEngine)
    by (apply reachable_addPlanets, reach_constructor).
  destruct (@addPlanet_fifo_capacity fullEngine 11 22 0 0 7 elevenCalls Hfull)
    as [Hcount [_ [_ [_ [_ Hscen]]]]].
  destruct (Hscen eq_refl) as [_ Hhd].
  split; [exact Hfull |].
  split; [reflexivity |].
  split; [exact Hcount |].
  rewrite Hhd. reflexivity.
Defined.

(** ** IEEE 754 facts used below *)

Lemma SFsub_add_opp prec emax x y :
  SFsub prec emax x y = SFadd prec emax x (SFopp y).
Proof.
  destruct x as [sx| sx| |sx mx ex], y as [sy| sy| |sy my ey];
    try reflexivity; destruct sx, sy; reflexivity.
Qed.

(** Subtracting is adding the negation, bit for bit. *)
Lemma float_sub_add_opp (a b : float) : (a - b = a + (- b))%float.
Proof.
  apply Prim2SF_inj. rewrite sub_spec, add_spec, opp_spec.
  apply SFsub_add_opp.
Qed.

Lemma float_abs_opp (a : float) : abs (- a) = abs a.
Proof.
  apply Prim2SF_inj. rewrite !abs_spec, opp_spec.
  destruct (Prim2SF a); reflexivity.
Qed.

(** ** Rounding without overflow

    The specification of the float operations ([SpecFloat]) rounds a
    mantissa and an exponent in two passes.  The lemmas below bound the
    exponent it can reach, which is what keeps a result finite. *)

Local Open Scope Z_scope.

Lemma digits2_pos_size p : digits2_pos p = Pos.size p.
Proof. induction p; simpl; congruence. Qed.

Lemma digits2_pos_log2 p : Zpos (digits2_pos p) = Z.log2 (Zpos p) + 1.
Proof.
  rewrite digits2_pos_size. destruct p; simpl; try reflexivity;
    rewrite Pos.add_1_r; reflexivity.
Qed.

Lemma Zdigits2_nonneg m : 0 <= Zdigits2 m.
Proof. destruct m; simpl; lia. Qed.

Lemma Zdigits2_le m n : 0 <= m <= n -> Zdigits2 m <= Zdigits2 n.
Proof.
  intros [Hm Hmn]. destruct m as [|p|p], n as [|q|q]; unfold Zdigits2; try lia.
  rewrite !digits2_pos_log2.
  assert (Z.log2 (Zpos p) <= Z.log2 (Zpos q)) by (apply Z.log2_le_mono; lia). lia.
Qed.

Lemma Zdigits2_succ m : 0 <= m -> Zdigits2 (m + 1) <= Zdigits2 m + 1.
Proof.
  intros Hm. destruct m as [|p|p]; [simpl; lia | | lia].
  change (Z.pos p + 1) with (Z.succ (Z.pos p)).
  destruct (Z.succ (Z.pos p)) as [|q|q] eqn:Hq; try lia.
  unfold Zdigits2. rewrite !digits2_pos_log2.
  assert (Z.log2 (Zpos q) <= Z.log2 (Zpos p) + 1).
  { rewrite <- Hq. apply Z.log2_succ_le. }
  lia.
Qed.

Lemma Zdigits2_mul p q :
  Zdigits2 (Zpos (p * q)) <= Zdigits2 (Zpos p) + Zdigits2 (Zpos q).
Proof.
  unfold Zdigits2. rewrite !digits2_pos_log2. rewrite Pos2Z.inj_mul.
  assert (Z.log2 (Zpos p * Zpos q) <= Z.log2 (Zpos p) + Z.log2 (Zpos q) + 1)
    by (apply Z.log2_mul_above; lia).
  lia.
Qed.

Lemma Zdigits2_shiftr m n :
  0 <= m -> 0 < n -> Zdigits2 (Z.shiftr m n) <= Z.max 0 (Zdigits2 m - n).
Proof.
  intros Hm Hn.
  assert (Hs : 0 <= Z.shiftr m n) by (apply Z.shiftr_nonneg; lia).
  destruct (Z.shiftr m n) as [|q|q] eqn:Hq; [simpl; lia | | lia].
  destruct m as [|p|p]; [rewrite Z.shiftr_0_l in Hq; discriminate | | lia].
  unfold Zdigits2. rewrite !digits2_pos_log2.
  rewrite <- Hq. rewrite Z.log2_shiftr by lia.
  assert (0 < Z.shiftr (Zpos p) n) by lia.
  assert (Z.log2 (Zpos p) - n >= 0).
  { destruct (Z.le_gt_cases n (Z.log2 (Zpos p))); [lia |].
    rewrite Z.shiftr_eq_0 in H by lia. lia. }
  lia.
Qed.

Lemma shr_1_m mrs : 0 <= shr_m mrs -> shr_m (shr_1 mrs) = Z.div2 (shr_m mrs).
Proof.
  destruct mrs as [m r s]; simpl. intros Hm.
  destruct m as [|[p|p|]|p]; simpl; try reflexivity; lia.
Qed.

Lemma iter_shr_1_m p : forall mrs,
  0 <= shr_m mrs -> shr_m (SpecFloat.iter_pos shr_1 p mrs) = Z.shiftr (shr_m mrs) (Zpos p).
Proof.
  assert (Hstep : forall mrs, 0 <= shr_m mrs -> shr_m (shr_1 mrs) = Z.shiftr (shr_m mrs) 1).
  { intros mrs H. rewrite shr_1_m by assumption. rewrite Z.div2_spec. reflexivity. }
  induction p as [p IH|p IH|]; intros mrs Hm; simpl SpecFloat.iter_pos.
  - assert (H1 : 0 <= shr_m (shr_1 mrs)).
    { rewrite Hstep by assumption. apply Z.shiftr_nonneg. assumption. }
    assert (H2 : 0 <= shr_m (SpecFloat.iter_pos shr_1 p (shr_1 mrs))).
    { rewrite IH by assumption. apply Z.shiftr_nonneg. assumption. }
    rewrite IH, IH, Hstep by assumption.
    rewrite !Z.shiftr_shiftr by lia. f_equal. lia.
  - assert (H2 : 0 <= shr_m (SpecFloat.iter_pos shr_1 p mrs)).
    { rewrite IH by assumption. apply Z.shiftr_nonneg. assumption. }
    rewrite IH, IH by assumption.
    rewrite !Z.shiftr_shiftr by lia. f_equal. lia.
  - apply Hstep. assumption.
Qed.

Section Rounding.

Variables prec emax : Z.
Hypothesis prec_pos : (0 < prec)%Z.

(** After one pass of [shr_fexp] the mantissa has at most [prec] digits and
    the exponent is the larger of [e] and [fexp]. *)
Lemma shr_fexp_bound m e l :
  0 <= m ->
  let r := shr_fexp prec emax m e l in
  0 <= shr_m (fst r) /\
  Zdigits2 (shr_m (fst r)) <= prec /\
  snd r = Z.max e (fexp prec emax (Zdigits2 m + e)).
Proof.
  intros Hm r. subst r. unfold shr_fexp, shr.
  assert (Hrec : shr_m (shr_record_of_loc m l) = m).
  { destruct l as [|[]]; reflexivity. }
  pose proof (Zdigits2_nonneg m) as Hd.
  remember (fexp prec emax (Zdigits2 m + e)) as f eqn:Hf.
  unfold fexp in Hf.
  destruct (f - e) as [|p|p] eqn:Hn; cbn [fst snd]; rewrite ?Hrec.
  - split; [assumption |]. split; lia.
  - rewrite iter_shr_1_m by (rewrite Hrec; assumption). rewrite Hrec.
    split; [apply Z.shiftr_nonneg; assumption |].
    pose proof (Zdigits2_shiftr m (Zpos p) Hm ltac:(lia)).
    split; lia.
  - split; [assumption |]. split; lia.
Qed.

Lemma round_nearest_even_bound m l :
  m <= round_nearest_even m l <= m + 1.
Proof.
  unfold round_nearest_even. destruct l as [|[]]; try lia.
  destruct (Z.even m); lia.
Qed.

(** Rounding does not overflow when the exponent it may reach is in range;
    the exponent of the result is bounded accordingly. *)
Lemma binary_round_aux_bound s m e l :
  0 <= m ->
  let B := Z.max e (fexp prec emax (Zdigits2 m + e)) + 1 in
  B <= emax - prec ->
  match binary_round_aux prec emax s m e l with
  | S754_zero _ => True
  | S754_finite _ _ e'' => e'' <= B
  | _ => False
  end.
Proof.
  intros Hm B HB. unfold binary_round_aux.
  pose proof (shr_fexp_bound m e l Hm) as H1. cbv zeta in H1.
  destruct (shr_fexp prec emax m e l) as [mrs1 e1]. cbn [fst snd] in H1.
  destruct H1 as [H1m [H1d H1e]].
  set (m1 := round_nearest_even (shr_m mrs1) (loc_of_shr_record mrs1)).
  pose proof (round_nearest_even_bound (shr_m mrs1) (loc_of_shr_record mrs1)) as Hr.
  fold m1 in Hr.
  assert (Hm1 : 0 <= m1) by lia.
  assert (Hd1 : Zdigits2 m1 <= prec + 1).
  { pose proof (Zdigits2_le m1 (shr_m mrs1 + 1) ltac:(lia)).
    pose proof (Zdigits2_succ (shr_m mrs1) H1m). lia. }
  pose proof (shr_fexp_bound m1 e1 loc_Exact Hm1) as H2. cbv zeta in H2.
  destruct (shr_fexp prec emax m1 e1 loc_Exact) as [mrs2 e2]. cbn [fst snd] in H2.
  destruct H2 as [H2m [_ H2e]].
  assert (He1 : SpecFloat.emin prec emax <= e1 \/ e1 = e).
  { rewrite H1e. unfold fexp. lia. }
  assert (He2 : e2 <= B).
  { rewrite H2e. unfold fexp in *. subst B. lia. }
  destruct (shr_m mrs2) as [|q|q]; [exact I | | lia].
  destruct (e2 <=? emax - prec) eqn:Hle; [exact He2 |].
  apply Z.leb_gt in Hle. lia.
Qed.

End Rounding.

Lemma valid_digits s m e :
  SpecFloat.valid_binary prec emax (S754_finite s m e) = true ->
  Zdigits2 (Zpos m) <= prec /\ e <= emax - prec.
Proof.
  unfold SpecFloat.valid_binary, bounded, canonical_mantissa, fexp, Zdigits2.
  intros H. apply andb_true_iff in H as [Hc He].
  apply Z.eqb_eq in Hc. apply Z.leb_le in He.
  unfold SpecFloat.emin, prec, emax in *. split; lia.
Qed.

Lemma valid_finite_bounded x :
  SpecFloat.valid_binary prec emax x = true -> sf_finite x = true -> sf_bounded (emax - prec) x.
Proof.
  destruct x as [s|s| |s m e]; simpl; try discriminate; auto.
  intros Hv _. apply (valid_digits s m e Hv).
Qed.

(** A product of two valid numbers with bounded exponents does not
    overflow while the sum of the bounds leaves room for the mantissa. *)
Lemma SFmul_bounded x y Ex Ey :
  SpecFloat.valid_binary prec emax x = true -> SpecFloat.valid_binary prec emax y = true ->
  sf_bounded Ex x -> sf_bounded Ey y ->
  Z.max (Ex + Ey + prec) (SpecFloat.emin prec emax) + 1 <= emax - prec ->
  sf_bounded (Z.max (Ex + Ey + prec) (SpecFloat.emin prec emax) + 1)
             (SFmul prec emax x y).
Proof.
  intros Hvx Hvy Hx Hy HB.
  destruct x as [sx|sx| |sx mx ex], y as [sy|sy| |sy my ey];
    simpl in Hx, Hy; try contradiction; try exact I.
  destruct (valid_digits sx mx ex Hvx) as [Hdx _].
  destruct (valid_digits sy my ey Hvy) as [Hdy _].
  unfold SFmul.
  pose proof (Zdigits2_mul mx my) as Hd.
  pose proof (binary_round_aux_bound prec emax ltac:(reflexivity)
                (xorb sx sy) (Zpos (mx * my)) (ex + ey) loc_Exact ltac:(lia)) as H.
  cbv zeta in H. unfold fexp in H.
  assert (Hle : Z.max (ex + ey)
                  (Z.max (Zdigits2 (Zpos (mx * my)) + (ex + ey) - prec)
                         (SpecFloat.emin prec emax)) + 1
                <= Z.max (Ex + Ey + prec) (SpecFloat.emin prec emax) + 1).
  { unfold prec in *. lia. }
  specialize (H ltac:(lia)).
  destruct (binary_round_aux prec emax (xorb sx sy) (Zpos (mx * my)) (ex + ey) loc_Exact);
    simpl; auto. lia.
Qed.

Lemma Zdigits2_shiftl m s : 0 < m -> 0 <= s -> Zdigits2 (Z.shiftl m s) = Zdigits2 m + s.
Proof.
  intros Hm Hs.
  assert (H : 0 < Z.shiftl m s).
  { rewrite Z.shiftl_mul_pow2 by assumption.
    apply Z.mul_pos_pos; [assumption | apply Z.pow_pos_nonneg; lia]. }
  destruct (Z.shiftl m s) as [|q|q] eqn:Hq; try lia.
  destruct m as [|p|p]; try lia.
  unfold Zdigits2. rewrite !digits2_pos_log2, <- Hq.
  rewrite Z.log2_shiftl by lia. lia.
Qed.

(** A quotient by a finite nonzero number of exponent field [ey]. *)
Lemma SFdiv_bounded x Ex sy my ey :
  SpecFloat.valid_binary prec emax x = true ->
  sf_bounded Ex x ->
  Z.max (Ex - ey) (SpecFloat.emin prec emax) + 1 <= emax - prec ->
  sf_bounded (Z.max (Ex - ey) (SpecFloat.emin prec emax) + 1)
             (SFdiv prec emax x (S754_finite sy my ey)).
Proof.
  intros Hvx Hx HB.
  destruct x as [sx|sx| |sx mx ex]; simpl in Hx; try contradiction; try exact I.
  destruct (valid_digits sx mx ex Hvx) as [Hdx _].
  unfold SFdiv, SFdiv_core_binary.
  set (e' := Z.min (fexp prec emax (Zdigits2 (Zpos mx) + ex - (Zdigits2 (Zpos my) + ey)))
                   (ex - ey)).
  assert (He' : e' <= ex - ey) by (unfold e'; lia).
  set (s := ex - ey - e').
  assert (Hs : 0 <= s) by (unfold s; lia).
  set (m' := match s with
             | 0 => Zpos mx
             | Zpos _ => Z.shiftl (Zpos mx) s
             | Zneg _ => 0
             end).
  assert (Hm' : 0 <= m' /\ Zdigits2 m' <= Zdigits2 (Zpos mx) + s).
  { unfold m'. clearbody s. destruct s as [|p|p]; [lia | | lia].
    rewrite Zdigits2_shiftl by lia.
    split; [apply Z.shiftl_nonneg; lia | lia]. }
  destruct Hm' as [Hm0 Hmd].
  destruct (Z.div_eucl m' (Zpos my)) as [q r] eqn:Hqr.
  assert (Hq : 0 <= q <= m').
  { assert (Hdiv : q = m' / Zpos my) by (unfold Z.div; rewrite Hqr; reflexivity).
    subst q. split; [apply Z.div_pos; lia |].
    apply Z.div_le_upper_bound; [lia | nia]. }
  pose proof (Zdigits2_le q m' Hq) as Hdq.
  pose proof (binary_round_aux_bound prec emax ltac:(reflexivity)
                (xorb sx sy) q e' (new_location (Zpos my) r) ltac:(lia)) as H.
  cbv zeta in H. unfold fexp in H.
  assert (Hle : Z.max e' (Z.max (Zdigits2 q + e' - prec) (SpecFloat.emin prec emax)) + 1
                <= Z.max (Ex - ey) (SpecFloat.emin prec emax) + 1).
  { unfold s in Hmd. lia. }
  specialize (H ltac:(lia)).
  destruct (binary_round_aux prec emax (xorb sx sy) q e' (new_location (Zpos my) r));
    simpl; auto. lia.
Qed.

(** What the comparisons and the classifiers say about a bounded number. *)
Lemma SFcompare_refl_finite s m e :
  SFcompare (S754_finite s m e) (S754_finite s m e) = Some Eq.
Proof.
  simpl. rewrite Z.compare_refl, Pos.compare_cont_refl. destruct s; reflexivity.
Qed.

Lemma is_finite_of_bounded (f : float) E :
  sf_bounded E (Prim2SF f) -> is_finite f = true.
Proof.
  intros Hb. unfold is_finite, is_nan, is_infinity.
  rewrite !FloatAxioms.eqb_spec, abs_spec.
  change (Prim2SF infinity) with (S754_infinity false).
  destruct (Prim2SF f) as [s|s| |s m e]; simpl in Hb; try contradiction.
  - destruct s; reflexivity.
  - unfold SFeqb. rewrite SFcompare_refl_finite. reflexivity.
Qed.

(** A square is never [-infinity], and the square of an infinity or of NaN
    is [+infinity] or NaN. *)
Lemma SFmul_self_not_neg_inf y : SFmul prec emax y y <> S754_infinity true.
Proof.
  destruct y as [s|s| |s m e]; simpl; try discriminate; try (destruct s; discriminate).
  unfold binary_round_aux.
  destruct (shr_fexp prec emax (Z.pos (m * m)) (e + e) loc_Exact) as [mrs1 e1].
  destruct (shr_fexp prec emax _ e1 loc_Exact) as [mrs2 e2].
  destruct (shr_m mrs2); try discriminate.
  destruct (e2 <=? emax - prec); destruct s; discriminate.
Qed.

Lemma SFmul_self_not_finite x :
  sf_finite x = false ->
  SFmul prec emax x x = S754_nan \/ SFmul prec emax x x = S754_infinity false.
Proof.
  destruct x as [s|s| |s m e]; simpl; try discriminate; intros _; auto.
  destruct s; auto.
Qed.

Lemma SFltb_sum_with_inf a b c :
  a = S754_nan \/ a = S754_infinity false ->
  b <> S754_infinity true ->
  SFltb (SFadd prec emax a b) c = false /\ SFltb (SFadd prec emax b a) c = false.
Proof.
  intros [-> | ->] Hb.
  - split; destruct b as [?|?| |? ? ?]; reflexivity.
  - destruct b as [sb|sb| |sb mb eb]; try (destruct sb); try congruence;
      split; destruct c as [?|[]| |[] ? ?]; reflexivity.
Qed.

(** A sum of two squares that compares below anything has finite
    operands: an infinite or NaN operand makes the sum NaN or [+infinity]. *)
Lemma small_sum_of_squares_operands (dx dy c : float) :
  (dx * dx + dy * dy <? c)%float = true ->
  sf_finite (Prim2SF dx) = true /\ sf_finite (Prim2SF dy) = true.
Proof.
  rewrite ltb_spec, add_spec, !mul_spec.
  unfold SF64add, SF64mul. intros H.
  split.
  - destruct (sf_finite (Prim2SF dx)) eqn:Hx; [reflexivity | exfalso].
    destruct (SFltb_sum_with_inf _ (SFmul prec emax (Prim2SF dy) (Prim2SF dy))
                (Prim2SF c) (SFmul_self_not_finite _ Hx)
                (SFmul_self_not_neg_inf _)) as [H1 _].
    congruence.
  - destruct (sf_finite (Prim2SF dy)) eqn:Hy; [reflexivity | exfalso].
    destruct (SFltb_sum_with_inf _ (SFmul prec emax (Prim2SF dx) (Prim2SF dx))
                (Prim2SF c) (SFmul_self_not_finite _ Hy)
                (SFmul_self_not_neg_inf _)) as [_ H2].
    congruence.
Qed.

(** Below the floor is within the cutoff: [1 < 10000] as floats. *)
Lemma SFltb_trans_consts x s1 m1 e1 m2 e2 :
  e1 < e2 ->
  SFltb x (S754_finite s1 m1 e1) = true ->
  SFltb (S754_finite false m2 e2) x = false.
Proof.
  intros He. unfold SFltb.
  destruct x as [s|s| |s m e]; simpl; intros H; try discriminate H.
  - reflexivity.
  - destruct s; [reflexivity | destruct s1; discriminate H].
  - destruct s; [reflexivity |].
    destruct s1; [discriminate H |].
    destruct (e ?= e1) eqn:C1; try discriminate H.
    + apply Z.compare_eq in C1. subst e.
      assert (C2 : (e2 ?= e1) = Gt) by (apply Z.compare_gt_iff; lia).
      rewrite C2. reflexivity.
    + assert (C2 : (e2 ?= e) = Gt).
      { apply Z.compare_gt_iff. apply -> Z.compare_lt_iff in C1. lia. }
      rewrite C2. reflexivity.
Qed.

Local Close Scope Z_scope.

(** ** Signs

    Every rounded result carries the sign it was given, so the sign of a
    product or a quotient is the exclusive or of the signs. *)

Lemma binary_round_aux_sign s m e l :
  sf_sign_is s (binary_round_aux prec emax s m e l).
Proof.
  unfold binary_round_aux.
  destruct (shr_fexp prec emax m e l) as [mrs1 e1].
  destruct (shr_fexp prec emax _ e1 loc_Exact) as [mrs2 e2].
  destruct (shr_m mrs2); simpl; auto.
  destruct (_ <=? _)%Z; exact eq_refl.
Qed.

Lemma SFmul_sign sx sy x y :
  sf_sign_is sx x -> sf_sign_is sy y ->
  sf_sign_is (xorb sx sy) (SFmul prec emax x y).
Proof.
  destruct x as [s1|s1| |s1 m1 e1], y as [s2|s2| |s2 m2 e2]; simpl;
    try (intros; exact I); try (intros -> ->; exact eq_refl).
  intros -> ->. apply binary_round_aux_sign.
Qed.

Lemma SFdiv_sign sx sy x y :
  sf_sign_is sx x -> sf_sign_is sy y ->
  sf_sign_is (xorb sx sy) (SFdiv prec emax x y).
Proof.
  destruct x as [s1|s1| |s1 m1 e1], y as [s2|s2| |s2 m2 e2]; simpl;
    try (intros; exact I); try (intros -> ->; exact eq_refl).
  intros -> ->.
  destruct (SFdiv_core_binary prec emax (Z.pos m1) e1 (Z.pos m2) e2) as [[mz ez] lz].
  apply binary_round_aux_sign.
Qed.

Lemma SFopp_sign s x : sf_sign_is s x -> sf_sign_is (negb s) (SFopp x).
Proof. destruct x; simpl; auto; intros ->; exact eq_refl. Qed.

Lemma SFmul_self_nonneg x : sf_sign_is false (SFmul prec emax x x).
Proof.
  destruct x as [s|s| |s m e]; simpl; try exact I; try (destruct s; exact eq_refl).
  replace (xorb s s) with false by (destruct s; reflexivity).
  apply binary_round_aux_sign.
Qed.

Lemma SFadd_nonneg x y :
  sf_sign_is false x -> sf_sign_is false y ->
  sf_sign_is false (SFadd prec emax x y).
Proof.
  destruct x as [s1|s1| |s1 m1 e1], y as [s2|s2| |s2 m2 e2]; simpl;
    try (intros; exact I); try (intros -> ->; exact eq_refl).
  intros -> ->. unfold binary_normalize, binary_round. simpl.
  destruct (shl_align _ _ _) as [mz ez].
  apply binary_round_aux_sign.
Qed.

Lemma SFsqrt_nonneg x : sf_sign_is false x -> sf_sign_is false (SFsqrt prec emax x).
Proof.
  destruct x as [s|s| |s m e]; simpl; try (intros; exact I); intros ->; try exact eq_refl.
  destruct (SFsqrt_core_binary prec emax (Z.pos m) e) as [[mz ez] lz].
  apply binary_round_aux_sign.
Qed.

Lemma positive_sign (a : float) : (0 <? a)%float = true -> sf_sign_is false (Prim2SF a).
Proof.
  rewrite ltb_spec. change (Prim2SF 0) with (S754_zero false).
  destruct (Prim2SF a) as [s|[]| |[] m e]; simpl; try discriminate; intros _; exact eq_refl.
Qed.

Lemma negative_sign (a : float) : (a <? 0)%float = true -> sf_sign_is true (Prim2SF a).
Proof.
  rewrite ltb_spec. change (Prim2SF 0) with (S754_zero false).
  destruct (Prim2SF a) as [s|[]| |[] m e]; simpl; try discriminate; intros _; exact eq_refl.
Qed.

Lemma sign_not_positive (a : float) : sf_sign_is true (Prim2SF a) -> (0 <? a)%float = false.
Proof.
  rewrite ltb_spec. change (Prim2SF 0) with (S754_zero false).
  destruct (Prim2SF a) as [s|s| |s m e]; simpl; try reflexivity; intros ->; reflexivity.
Qed.

Lemma sign_not_negative (a : float) : sf_sign_is false (Prim2SF a) -> (a <? 0)%float = false.
Proof.
  rewrite ltb_spec. change (Prim2SF 0) with (S754_zero false).
  destruct (Prim2SF a) as [s|s| |s m e]; simpl; try reflexivity; intros ->; reflexivity.
Qed.

(** ** Pair interactions *)

(** What a pair step within the cutoff writes. *)
Lemma pairStep_within e i j pi pj ax ay :
  nth_error (planets e) i = Some pi ->
  nth_error (planets e) j = Some pj ->
  (maxDistanceSquared <? separationSquared pi pj)%float = false ->
  pairStep e i j (ax, ay) =
  let cx := fst (pairAcceleration pi pj) in
  let cy := snd (pairAcceleration pi pj) in
  let ax1 := num_set ax i (num_get ax i + cx)%float in
  let ay1 := num_set ay i (num_get ay i + cy)%float in
  Some (num_set ax1 j (num_get ax1 j - cx)%float,
        num_set ay1 j (num_get ay1 j - cy)%float).
Proof.
  intros Hpi Hpj Hnear. unfold pairStep. rewrite Hpi, Hpj, Hnear.
  destruct (pairAcceleration pi pj) as [cx cy]. reflexivity.
Qed.

(** C4.  For a pair within the cutoff, the step adds an acceleration
    ([cx], [cy]) to planet [i] and adds its exact negation to planet [j]:
    the two contributions have equal magnitudes and opposite signs,
    component by component, and no other accumulator entry changes. *)
Theorem pair_contributions_equal_and_opposite :
  forall (e : PhysicsEngine) (i j : nat) (pi pj : Planet.t) (ax ay : list float),
    nth_error (planets e) i = Some pi ->
    nth_error (planets e) j = Some pj ->
    i < j ->
    (maxDistanceSquared <? separationSquared pi pj)%float = false ->
    exists cx cy ax' ay',
      pairStep e i j (ax, ay) = Some (ax', ay') /\
      (cx, cy) = pairAcceleration pi pj /\
      num_get ax' i = (num_get ax i + cx)%float /\
      num_get ax' j = (num_get ax j + (- cx))%float /\
      num_get ay' i = (num_get ay i + cy)%float /\
      num_get ay' j = (num_get ay j + (- cy))%float /\
      abs (- cx) = abs cx /\ abs (- cy) = abs cy /\
      (forall k, k <> i -> k <> j ->
                 num_get ax' k = num_get ax k /\ num_get ay' k = num_get ay k).
Proof.
  intros e i j pi pj ax ay Hpi Hpj Hij Hnear.
  rewrite (@pairStep_within e i j pi pj ax ay Hpi Hpj Hnear).
  destruct (pairAcceleration pi pj) as [cx cy]. cbn [fst snd].
  exists cx, cy. do 2 eexists. split; [reflexivity |].
  assert (Hne : i <> j) by lia.
  split; [reflexivity |].
  rewrite !num_get_set_same.
  rewrite !(@num_get_set_other _ j i) by congruence.
  rewrite !(@num_get_set_other _ i j) by assumption.
  rewrite !num_get_set_same, !float_sub_add_opp, !float_abs_opp.
  repeat split; try reflexivity.
  all: rewrite !num_get_set_other by congruence; reflexivity.
Qed.

Lemma pair_contributions_equal_and_opposite_witness :
  nth_error (planets nearPair) 0 = Some (Planet.new 10 0 0 0 1) /\
  nth_error (planets nearPair) 1 = Some (Planet.new 13 4 0 0 2) /\
  (maxDistanceSquared
     <? separationSquared (Planet.new 10 0 0 0 1) (Planet.new 13 4 0 0 2))%float
  = false /\
  exists cx cy ax' ay',
    pairStep nearPair 0 1 ([0; 0]%float, [0; 0]%float) = Some (ax', ay') /\
    (cx, cy) = pairAcceleration (Planet.new 10 0 0 0 1) (Planet.new 13 4 0 0 2) /\
    num_get ax' 0 = (num_get [0; 0]%float 0 + cx)%float /\
    num_get ax' 1 = (num_get [0; 0]%float 1 + (- cx))%float /\
    num_get ay' 0 = (num_get [0; 0]%float 0 + cy)%float /\
    num_get ay' 1 = (num_get [0; 0]%float 1 + (- cy))%float /\
    abs (- cx) = abs cx /\ abs (- cy) = abs cy /\
    (forall k, k <> 0 -> k <> 1 ->
               num_get ax' k = num_get [0; 0]%float k /\
               num_get ay' k = num_get [0; 0]%float k).
Proof.
  split; [reflexivity |]. split; [reflexivity |]. split; [reflexivity |].
  apply (@pair_contributions_equal_and_opposite nearPair 0 1
           (Planet.new 10 0 0 0 1) (Planet.new 13 4 0 0 2)
           [0; 0]%float [0; 0]%float);
    [reflexivity | reflexivity | lia | reflexivity].
Defined.

(** ** The minimum-distance floor *)

Lemma below_floor_is_within_cutoff (r2 : float) :
  (r2 <? minDistanceSquared)%float = true ->
  (maxDistanceSquared <? r2)%float = false.
Proof.
  rewrite !ltb_spec.
  change (Prim2SF minDistanceSquared) with (S754_finite false 4503599627370496 (-52)).
  change (Prim2SF maxDistanceSquared) with (S754_finite false 5497558138880000 (-39)).
  apply SFltb_trans_consts. reflexivity.
Qed.

(** The acceleration written for a pair at the floor is finite whenever the
    coordinate difference is. *)
Lemma floor_contribution_finite (d : float) :
  sf_finite (Prim2SF d) = true ->
  is_finite ((pairForce minDistanceSquared * d)
             / (sqrt minDistanceSquared * PlanetConstants.MASS))%float = true.
Proof.
  intros Hd.
  assert (Hmul : sf_bounded 914 (Prim2SF (pairForce minDistanceSquared * d)%float)).
  { rewrite mul_spec.
    apply (SFmul_bounded _ _ (-111) 971)%Z.
    - apply Prim2SF_valid.
    - apply Prim2SF_valid.
    - vm_compute. discriminate.
    - apply (valid_finite_bounded _ (Prim2SF_valid d) Hd).
    - vm_compute. discriminate. }
  apply (is_finite_of_bounded _ 950). rewrite div_spec.
  change (Prim2SF (sqrt minDistanceSquared * PlanetConstants.MASS)%float)
    with (S754_finite false 6871947673600000 (-35)).
  apply (SFdiv_bounded _ 914 false 6871947673600000 (-35))%Z.
  - apply Prim2SF_valid.
  - exact Hmul.
  - vm_compute. discriminate.
Qed.

(** ** The central mass *)

(** The distance and the force computed by [calculateSunGravity] are NaN
    or carry a positive sign. *)
Lemma sun_distance_force_sign (p : Planet.t) :
  let dx := (- Planet.x p)%float in
  let dy := (- Planet.y p)%float in
  let r := sqrt (dx * dx + dy * dy)%float in
  let force :=
    ((PhysicsConstants.G * PlanetConstants.MASS * SunConstants.MASS)
     / (r * r * distanceScaleSquared))%float in
  sf_sign_is false (Prim2SF r) /\ sf_sign_is false (Prim2SF force).
Proof.
  intros dx dy r force.
  assert (Hr : sf_sign_is false (Prim2SF r)).
  { unfold r. rewrite sqrt_spec, add_spec, !mul_spec.
    apply SFsqrt_nonneg, SFadd_nonneg; apply SFmul_self_nonneg. }
  split; [exact Hr |].
  unfold force. rewrite div_spec, !mul_spec.
  apply (SFdiv_sign false false).
  - exact eq_refl.
  - apply (SFmul_sign false false); [| exact eq_refl].
    apply (SFmul_sign false false); exact Hr.
Qed.

(** An acceleration component [force * (- c) / (r * MASS)] is NaN or of the
    sign opposite to the coordinate [c]. *)
Lemma sun_component_sign (c r force : float) s :
  sf_sign_is s (Prim2SF c) ->
  sf_sign_is false (Prim2SF r) -> sf_sign_is false (Prim2SF force) ->
  sf_sign_is (negb s) (Prim2SF ((force * (- c)) / (r * PlanetConstants.MASS))%float).
Proof.
  intros Hc Hr Hf.
  rewrite div_spec, !mul_spec, opp_spec.
  replace (negb s) with (xorb (xorb false (negb s)) (xorb false false))
    by (destruct s; reflexivity).
  apply SFdiv_sign.
  - apply SFmul_sign; [exact Hf | apply SFopp_sign, Hc].
  - apply SFmul_sign; [exact Hr | exact eq_refl].
Qed.

Lemma sunAcceleration_never_outward (p : Planet.t) :
  ((0 <? Planet.x p)%float = true -> (0 <? sunAccelerationX p)%float = false) /\
  ((Planet.x p <? 0)%float = true -> (sunAccelerationX p <? 0)%float = false) /\
  ((0 <? Planet.y p)%float = true -> (0 <? sunAccelerationY p)%float = false) /\
  ((Planet.y p <? 0)%float = true -> (sunAccelerationY p <? 0)%float = false).
Proof.
  destruct (sun_distance_force_sign p) as [Hr Hf].
  unfold sunAccelerationX, sunAccelerationY, sunAcceleration. cbn [fst snd].
  repeat split; intros H.
  - apply sign_not_positive.
    apply (sun_component_sign _ _ _ false (positive_sign _ H) Hr Hf).
  - apply sign_not_negative.
    apply (sun_component_sign _ _ _ true (negative_sign _ H) Hr Hf).
  - apply sign_not_positive.
    apply (sun_component_sign _ _ _ false (positive_sign _ H) Hr Hf).
  - apply sign_not_negative.
    apply (sun_component_sign _ _ _ true (negative_sign _ H) Hr Hf).
Qed.

(** C7 fails on the code.  [calculateSunGravity] has no distance floor: for
    the planet at the origin, [r] is 0, the force is infinite and both
    acceleration components are NaN; next to the origin the squared distance
    underflows with the same effect.  One [update] then leaves the planet at
    a NaN position, where neither removal test can ever hold. *)
Theorem sun_gravity_not_finite_at_origin :
  sunAcceleration (Planet.new 0 0 0 0 7) = (nan, nan) /\
  sunAcceleration (Planet.new 1e-200 0 0 0 7) = (neg_infinity, nan) /\
  exists e',
    update 100 100 originEngine = Normal true e' /\
    map (fun p => (Planet.x p, Planet.y p)) (planets e') = [(nan, nan)] /\
    planets (state_of (removeOutOfBoundsPlanets (fun _ => 170%Z) 70 70 e'))
    = planets e'.
Proof.
  split; [vm_compute; reflexivity |].
  split; [vm_compute; reflexivity |].
  eexists. split; [vm_compute; reflexivity |].
  split; vm_compute; reflexivity.
Qed.

(** ** The removal pass *)



Lemma visits_In maxX maxY ps k i p o :
  In (i, p, o) (visits maxX maxY k ps) ->
  k <= i /\ nth_error ps (i - k) = Some p /\ o = outcomeOf maxX maxY p.
Proof.
  revert k; induction ps as [|q t IH]; intros k Hin; simpl in Hin; [contradiction |].
  destruct Hin as [Heq | Hin].
  - injection Heq as -> -> <-. rewrite Nat.sub_diag. auto.
  - destruct (IH (S k) Hin) as [Hle [Hnth Ho]].
    replace (i - k) with (S (i - S k)) by lia. simpl. split; [lia | auto].
Qed.

Lemma effectOfLog_no_collision now log eff :
  (forall i p o, In (i, p, o) log -> o <> SunCollision) ->
  effectOfLog now log eff = eff.
Proof.
  induction log as [|[[i p] o] t IH]; intros H; simpl; [reflexivity |].
  assert (Ho : o <> SunCollision) by (apply (H i p); left; reflexivity).
  assert (Ht : effectOfLog now t eff = eff).
  { apply IH. intros i' p' o' Hin. apply (H i' p'). right. exact Hin. }
  destruct o; congruence.
Qed.

Lemma outcomeOf_collision maxX maxY p :
  outcomeOf maxX maxY p = SunCollision <->
  Planet.isOutOfBounds maxX maxY p = false /\ Planet.isCollidedWithSun p = true.
Proof.
  unfold outcomeOf.
  destruct (Planet.isOutOfBounds maxX maxY p), (Planet.isCollidedWithSun p);
    split; intros H; try discriminate; try destruct H; try discriminate; auto.
Qed.

Lemma survives_iff maxX maxY p :
  survives maxX maxY p = true <->
  Planet.isOutOfBounds maxX maxY p = false /\ Planet.isCollidedWithSun p = false.
Proof.
  unfold survives.
  destruct (Planet.isOutOfBounds maxX maxY p), (Planet.isCollidedWithSun p);
    simpl; split; intros H; try discriminate; try destruct H; try discriminate; auto.
Qed.

(** ** Trail sampling *)

Lemma update_lastTrailUpdateTime t1 t2 e :
  lastTrailUpdateTime (state_of (update t1 t2 e))
  = lastTrailUpdateTime (snd (shouldUpdateTrails t1 e)).
Proof.
  unfold update. destruct (shouldUpdateTrails t1 e) as [flag e1]. cbn [snd].
  assert (H : lastTrailUpdateTime (expireCollisionEffect t2 e1) = lastTrailUpdateTime e1).
  { unfold expireCollisionEffect. destruct (collisionEffectActive e1); [| reflexivity].
    destruct (CollisionConstants.COLLISION_EFFECT_DURATION
                <? t2 - collisionEffectStartTime e1)%Z; reflexivity. }
  destruct (length (planets (expireCollisionEffect t2 e1)) =? 0); [exact H |].
  destruct (accelerations (expireCollisionEffect t2 e1)) as [[ax ay]|]; [| exact H].
  destruct (updatePlanets _ _ _ _ _ _); exact H.
Qed.

(** ** The collision effect *)


(** ** getPlanets *)

Lemma engineOf_runMethod m w : engineOf (runMethod m w) = m (engineOf w).
Proof.
  unfold engineOf, runMethod; simpl. rewrite Nat.eqb_refl.
  destruct (m _); reflexivity.
Qed.

(** C9, as stated, fails: the sequence [getPlanets] returns is the engine's
    own array.  A push through it raises the engine's planet count, and a
    later [addPlanet] shows up in the sequence that was returned before. *)
Lemma getPlanets_is_not_a_snapshot :
  planets (engineOf (pushThrough (getPlanets emptyPage) strayPlanet emptyPage))
  <> planets (engineOf emptyPage) /\
  getPlanetCount (engineOf emptyPage) = 0 /\
  getPlanetCount (engineOf (pushThrough (getPlanets emptyPage) strayPlanet emptyPage))
  = 1 /\
  readArray (runMethod (fun e => state_of (addPlanet 1 2 0 0 7 e)) emptyPage)
            (getPlanets emptyPage)
  <> readArray emptyPage (getPlanets emptyPage) /\
  readArray emptyPage (getPlanets emptyPage) = [] /\
  readArray (runMethod (fun e => state_of (addPlanet 1 2 0 0 7 e)) emptyPage)
            (getPlanets emptyPage)
  = [strayPlanet].
Proof. repeat split; discriminate. Qed.

(** C9, amended.  [getPlanets] returns the engine's live array itself, not a
    copy: what the reference shows is the engine's collection; after any
    method of the engine the reference is the same and shows the collection
    as the method left it; and a write through the reference is a write to
    the engine's collection. *)
Theorem getPlanets_aliases_live_collection :
  forall (w : Page),
    readArray w (getPlanets w) = planets (engineOf w) /\
    (forall m : PhysicsEngine -> PhysicsEngine,
        getPlanets (runMethod m w) = getPlanets w /\
        readArray (runMethod m w) (getPlanets w) = planets (m (engineOf w))) /\
    (forall x y vx vy c,
        readArray (runMethod (fun e => state_of (addPlanet x y vx vy c e)) w)
                  (getPlanets w)
        = (if PlanetConstants.MAX_COUNT <? S (length (readArray w (getPlanets w)))
           then tl (readArray w (getPlanets w))
           else readArray w (getPlanets w)) ++ [Planet.new x y vx vy c]) /\
    (forall ps,
        planets (engineOf (writeArray (getPlanets w) ps w)) = ps) /\
    (forall p,
        getPlanetCount (engineOf (pushThrough (getPlanets w) p w))
        = S (getPlanetCount (engineOf w))).
Proof.
  intros w.
  split; [reflexivity |].
  split.
  { intros m. split; [reflexivity |].
    unfold readArray, runMethod, getPlanets; simpl. rewrite Nat.eqb_refl. reflexivity. }
  split.
  { intros x y vx vy c.
    unfold readArray, runMethod, getPlanets; simpl. rewrite Nat.eqb_refl.
    apply addPlanet_planets. }
  split.
  { intros ps. unfold engineOf, writeArray, getPlanets; simpl.
    rewrite Nat.eqb_refl. reflexivity. }
  intros p. unfold getPlanetCount, engineOf, pushThrough, writeArray, getPlanets; simpl.
  rewrite Nat.eqb_refl, length_app. simpl. lia.
Qed.

(** * Further properties of the engine and of the page *)

(** ** NaN *)

Lemma is_nan_Prim2SF (a : float) : is_nan a = true <-> Prim2SF a = S754_nan.
Proof.
  unfold is_nan. rewrite FloatAxioms.eqb_spec. unfold SFeqb.
  destruct (Prim2SF a) as [s|s| |s m e].
  - simpl. split; discriminate.
  - destruct s; simpl; split; discriminate.
  - simpl. split; reflexivity.
  - rewrite SFcompare_refl_finite. simpl. split; discriminate.
Qed.

Lemma nan_add_l (a b : float) : is_nan a = true -> is_nan (a + b) = true.
Proof.
  rewrite !is_nan_Prim2SF, add_spec. intros ->. reflexivity.
Qed.

Lemma nan_add_r (a b : float) : is_nan b = true -> is_nan (a + b) = true.
Proof.
  rewrite !is_nan_Prim2SF, add_spec. intros ->.
  destruct (Prim2SF a) as [[]|[]| |]; reflexivity.
Qed.

Lemma nan_sub_l (a b : float) : is_nan a = true -> is_nan (a - b) = true.
Proof.
  rewrite !is_nan_Prim2SF, sub_spec. intros ->. reflexivity.
Qed.

Lemma nan_sub_r (a b : float) : is_nan b = true -> is_nan (a - b) = true.
Proof.
  rewrite !is_nan_Prim2SF, sub_spec. intros ->.
  destruct (Prim2SF a) as [[]|[]| |]; reflexivity.
Qed.

Lemma nan_mul_l (a b : float) : is_nan a = true -> is_nan (a * b) = true.
Proof.
  rewrite !is_nan_Prim2SF, mul_spec. intros ->. reflexivity.
Qed.

Lemma nan_mul_r (a b : float) : is_nan b = true -> is_nan (a * b) = true.
Proof.
  rewrite !is_nan_Prim2SF, mul_spec. intros ->.
  destruct (Prim2SF a) as [[]|[]| |]; reflexivity.
Qed.

Lemma nan_div_l (a b : float) : is_nan a = true -> is_nan (a / b) = true.
Proof.
  rewrite !is_nan_Prim2SF, div_spec. intros ->. reflexivity.
Qed.

Lemma nan_div_r (a b : float) : is_nan b = true -> is_nan (a / b) = true.
Proof.
  rewrite !is_nan_Prim2SF, div_spec. intros ->.
  destruct (Prim2SF a) as [[]|[]| |]; reflexivity.
Qed.

Lemma nan_opp (a : float) : is_nan a = true -> is_nan (- a) = true.
Proof.
  rewrite !is_nan_Prim2SF, opp_spec. intros ->. reflexivity.
Qed.

Lemma nan_abs (a : float) : is_nan a = true -> is_nan (abs a) = true.
Proof.
  rewrite !is_nan_Prim2SF, abs_spec. intros ->. reflexivity.
Qed.

Lemma nan_sqrt (a : float) : is_nan a = true -> is_nan (sqrt a) = true.
Proof.
  rewrite !is_nan_Prim2SF, sqrt_spec. intros ->. reflexivity.
Qed.

Lemma nan_ltb_l (a b : float) : is_nan a = true -> (a <? b)%float = false.
Proof.
  rewrite is_nan_Prim2SF, ltb_spec. intros ->. reflexivity.
Qed.

Lemma nan_ltb_r (a b : float) : is_nan b = true -> (a <? b)%float = false.
Proof.
  rewrite is_nan_Prim2SF, ltb_spec. intros ->. unfold SFltb.
  destruct (Prim2SF a) as [[]|[]| |]; reflexivity.
Qed.

(** ** The integration loop, on both completions *)

Lemma Planet_update_advanced ax ay flag p :
  advanced ax ay p (state_of (Planet.update ax ay flag p)).
Proof.
  unfold advanced, Planet.update.
  destruct flag; [| simpl; repeat split].
  destruct (Planet.trailPositions p); [| simpl; repeat split].
  destruct (forallb Planet.is_defined _); simpl; repeat split.
Qed.

Lemma Planet_update_untrailed ax ay p :
  Planet.trailPositions p = None ->
  exists p', Planet.update ax ay true p = TypeError p' /\
             Planet.trailPositions p' = None.
Proof.
  intros H. unfold Planet.update. rewrite H. eexists; split; reflexivity.
Qed.

Lemma integrated_length ax ay flag ps : forall i,
  length (integrated ax ay flag i ps) = length ps.
Proof. induction ps as [|p t IH]; intros i; simpl; auto. Qed.

Lemma integrated_nth ax ay flag ps : forall k i p,
  nth_error ps i = Some p ->
  nth_error (integrated ax ay flag k ps) i
  = Some (state_of (Planet.update (num_get ax (k + i)) (num_get ay (k + i)) flag p)).
Proof.
  induction ps as [|q t IH]; intros k [|i] p Hp; simpl in *; try discriminate.
  - injection Hp as ->. rewrite Nat.add_0_r. reflexivity.
  - rewrite (IH (S k) i p Hp). replace (S k + i) with (k + S i) by lia. reflexivity.
Qed.

Lemma integrated_app ax ay flag l1 l2 : forall i,
  integrated ax ay flag i (l1 ++ l2)
  = integrated ax ay flag i l1 ++ integrated ax ay flag (i + length l1) l2.
Proof.
  induction l1 as [|p t IH]; intros i; simpl.
  - rewrite Nat.add_0_r. reflexivity.
  - rewrite IH. replace (S i + length t) with (i + S (length t)) by lia. reflexivity.
Qed.

(** When the loop returns, it has run [Planet.update] on every planet. *)
Lemma updatePlanets_returned ax ay flag :
  forall todo done ps',
    updatePlanets (length todo) (length done) ax ay flag (done ++ todo) = Normal tt ps' ->
    ps' = done ++ integrated ax ay flag (length done) todo.
Proof.
  induction todo as [|p rest IH]; intros done ps' Hrun.
  - simpl in Hrun. injection Hrun as <-. reflexivity.
  - cbn [length updatePlanets] in Hrun. rewrite nth_error_middle in Hrun.
    cbn [integrated].
    destruct (Planet.update (num_get ax (length done)) (num_get ay (length done)) flag p)
      as [[] p'|p']; [| discriminate Hrun].
    rewrite put_at_middle in Hrun.
    replace (S (length done)) with (length (done ++ [p'])) in Hrun |- *
      by (rewrite length_app; simpl; lia).
    replace (done ++ p' :: rest) with ((done ++ [p']) ++ rest) in Hrun
      by (rewrite <- app_assoc; reflexivity).
    rewrite (IH _ _ Hrun), <- app_assoc. reflexivity.
Qed.

(** When [Planet.update] returns on the planets of [pre] and throws on the
    next one, the loop stops there: [pre] and the thrower have been
    written, the planets behind have not been touched. *)
Lemma updatePlanets_thrown ax ay flag :
  forall pre done p post,
    Forall (fun q => forall a b, exists q', Planet.update a b flag q = Normal tt q') pre ->
    (forall a b, exists p', Planet.update a b flag p = TypeError p') ->
    updatePlanets (length (pre ++ p :: post)) (length done) ax ay flag
                  (done ++ pre ++ p :: post)
    = TypeError (done ++ integrated ax ay flag (length done) (pre ++ [p]) ++ post).
Proof.
  induction pre as [|q pre IH]; intros done p post Hpre Hp.
  - cbn [app length updatePlanets integrated]. rewrite nth_error_middle.
    destruct (Hp (num_get ax (length done)) (num_get ay (length done))) as [p' ->].
    rewrite put_at_middle. reflexivity.
  - inversion Hpre as [|? ? Hq Hrest]; subst.
    cbn [app length updatePlanets integrated]. rewrite nth_error_middle.
    destruct (Hq (num_get ax (length done)) (num_get ay (length done))) as [q' ->].
    rewrite put_at_middle. cbn [state_of].
    replace (S (length done)) with (length (done ++ [q']))
      by (rewrite length_app; simpl; lia).
    replace (done ++ q' :: pre ++ p :: post) with ((done ++ [q']) ++ pre ++ p :: post)
      by (rewrite <- app_assoc; reflexivity).
    change (length pre + 0) with (length pre).
    rewrite (IH (done ++ [q']) p post Hrest Hp), <- app_assoc. reflexivity.
Qed.

Lemma num_set_length a : forall i v, i < length a -> length (num_set a i v) = length a.
Proof.
  induction a as [|h t IH]; intros [|i] v Hi; simpl in *; try lia.
  rewrite IH by lia. reflexivity.
Qed.

(** The force phase reads the engine through its planets only. *)
Lemma accelerations_planets e1 e2 :
  planets e1 = planets e2 -> accelerations e1 = accelerations e2.
Proof.
  destruct e1, e2. simpl. intros ->. reflexivity.
Qed.

(** The accumulators keep one entry per planet: no write extends them. *)
Lemma accelerations_length e ax ay :
  accelerations e = Some (ax, ay) ->
  length ax = length (planets e) /\ length ay = length (planets e).
Proof.
  unfold accelerations. rewrite sun_loop_spec. intros Hrun.
  destruct (@calculatePlanetGravity_invariant
              (fun acc => length (fst acc) = length (planets e) /\
                          length (snd acc) = length (planets e)) e)
    with (ax := map (fun p => (0 + sunAccelerationX p)%float) (planets e))
         (ay := map (fun p => (0 + sunAccelerationY p)%float) (planets e))
    as [acc' [Hrun' Hlen]].
  - intros i j [ax0 ay0] Hij [Hx Hy]. cbn [fst snd] in Hx, Hy.
    unfold pairStep.
    destruct (nth_error (planets e) i) as [pi|] eqn:Hpi.
    2:{ apply nth_error_None in Hpi. lia. }
    destruct (nth_error (planets e) j) as [pj|] eqn:Hpj.
    2:{ apply nth_error_None in Hpj. lia. }
    destruct (maxDistanceSquared <? separationSquared pi pj)%float.
    + eexists; split; [reflexivity |]. auto.
    + destruct (pairAcceleration pi pj) as [cx cy].
      eexists; split; [reflexivity |]. cbn [fst snd].
      rewrite !num_set_length; try lia; rewrite ?num_set_length; lia.
  - cbn [fst snd]. rewrite !length_map. auto.
  - rewrite Hrun in Hrun'. injection Hrun' as <-. exact Hlen.
Qed.

Lemma update_planets_eq t1 t2 e :
  planets (expireCollisionEffect t2 (snd (shouldUpdateTrails t1 e))) = planets e.
Proof.
  rewrite expireCollisionEffect_planets. apply shouldUpdateTrails_frame.
Qed.

(** [update] on its two completions, in terms of the force phase and of
    the integration loop. *)
Lemma update_unfold t1 t2 e :
  exists ax ay,
    accelerations e = Some (ax, ay) /\
    length ax = length (planets e) /\ length ay = length (planets e) /\
    match updatePlanets (length (planets e)) 0 ax ay (trails_due t1 e) (planets e) with
    | Normal _ ps =>
        exists e', update t1 t2 e = Normal (trails_due t1 e) e' /\ planets e' = ps
    | TypeError ps =>
        exists e', update t1 t2 e = TypeError e' /\ planets e' = ps
    end.
Proof.
  destruct (accelerations_total e) as [[ax ay] Hacc].
  destruct (accelerations_length e ax ay Hacc) as [Hx Hy].
  exists ax, ay. split; [exact Hacc |]. split; [exact Hx |]. split; [exact Hy |].
  pose proof (update_planets_eq t1 t2 e) as Hps.
  unfold update.
  assert (Hflag : fst (shouldUpdateTrails t1 e) = trails_due t1 e).
  { unfold shouldUpdateTrails, trails_due.
    destruct (RenderConstants.TRAIL_UPDATE_INTERVAL <? t1 - lastTrailUpdateTime e)%Z;
      reflexivity. }
  destruct (shouldUpdateTrails t1 e) as [flag e1]. cbn [fst snd] in *. subst flag.
  set (e2 := expireCollisionEffect t2 e1) in *.
  rewrite (accelerations_planets e2 e Hps), Hacc, Hps.
  destruct (length (planets e) =? 0) eqn:Hn.
  - apply Nat.eqb_eq in Hn. destruct (planets e); [| discriminate Hn].
    simpl. exists e2. auto.
  - destruct (updatePlanets _ _ _ _ _ _) as [[] ps|ps];
      eexists; split; reflexivity.
Qed.

(** On a planet with a well-formed trail, [Planet.update] with the trail
    flag returns and samples the trail. *)
Lemma Planet_update_samples ax ay p :
  trail_ok p -> trail_initialized p ->
  exists p', Planet.update ax ay true p = Normal tt p' /\ trail_sampled p p'.
Proof.
  unfold trail_ok, trail_initialized. intros Hok Hi.
  destruct (Planet.trailPositions p) as [tr|] eqn:Htr; [| congruence].
  destruct Hok as [Hlen Hdef].
  destruct (Planet_update_trail ax ay p tr Htr Hlen Hdef) as [p' [Hu Ht]].
  exists p'. split; [exact Hu |]. exists tr.
  split; [exact Htr |]. split; [exact Ht |].
  simpl length. rewrite removelast_length.
  - rewrite Hlen. reflexivity.
  - intros ->. discriminate Hlen.
Qed.

Lemma integrated_sampled ax ay ps : forall i,
  Forall trail_ok ps -> Forall trail_initialized ps ->
  Forall2 trail_sampled ps (integrated ax ay true i ps).
Proof.
  induction ps as [|p t IH]; intros i Hok Hi; cbn [integrated]; [constructor |].
  inversion Hok; inversion Hi; subst. constructor; [| apply IH; assumption].
  destruct (Planet_update_samples (num_get ax i) (num_get ay i) p) as [p' [Hu Hs]];
    [assumption | assumption |].
  rewrite Hu. exact Hs.
Qed.

(** Either every planet has its trail, or some planet has none. *)
Lemma trails_all_or_one_missing ps :
  Forall trail_initialized ps \/
  Exists (fun p => Planet.trailPositions p = None) ps.
Proof.
  induction ps as [|q t [IH | IH]].
  - left. constructor.
  - destruct (Planet.trailPositions q) eqn:Hq.
    + left. constructor; [| exact IH]. unfold trail_initialized. congruence.
    + right. left. exact Hq.
  - right. right. exact IH.
Qed.

(** The first planet without a trail splits the list. *)
Lemma first_untrailed ps :
  Exists (fun p => Planet.trailPositions p = None) ps ->
  exists pre p post,
    ps = pre ++ p :: post /\ Forall trail_initialized pre /\
    Planet.trailPositions p = None.
Proof.
  induction ps as [|q t IH]; intros H; [inversion H |].
  destruct (Planet.trailPositions q) as [tr|] eqn:Hq.
  - inversion H as [? ? Hh | ? ? Ht]; subst; [congruence |].
    destruct (IH Ht) as [pre [p [post [-> [Hpre Hp]]]]].
    exists (q :: pre), p, post. split; [reflexivity |]. split; [| exact Hp].
    constructor; [| exact Hpre]. unfold trail_initialized. congruence.
  - exists [], q, t. split; [reflexivity |]. split; [constructor | exact Hq].
Qed.

Lemma Forall_app_l {A} (P : A -> Prop) l1 l2 : Forall P (l1 ++ l2) -> Forall P l1.
Proof. intros H. apply Forall_app in H. tauto. Qed.

(** What [update] leaves when it samples the trails and the planet behind
    [pre] has none. *)
Lemma update_thrown t1 t2 e pre p post :
  Forall trail_ok (planets e) ->
  trails_due t1 e = true ->
  planets e = pre ++ p :: post ->
  Forall trail_initialized pre ->
  Planet.trailPositions p = None ->
  exists e' ax ay,
    update t1 t2 e = TypeError e' /\
    accelerations e = Some (ax, ay) /\
    planets e' = integrated ax ay true 0 (pre ++ [p]) ++ post.
Proof.
  intros Hok Hdue Hps Hpre Hp.
  destruct (update_unfold t1 t2 e) as [ax [ay [Hacc [_ [_ Hrun]]]]].
  rewrite Hdue, Hps in Hrun.
  rewrite Hps in Hok. apply Forall_app_l in Hok.
  pose proof (updatePlanets_thrown ax ay true pre [] p post) as Hloop.
  cbn [length app] in Hloop. rewrite Hloop in Hrun.
  - destruct Hrun as [e' [Hu Hpl]]. exists e', ax, ay. auto.
  - clear - Hok Hpre. induction Hok as [|q l Hq _ IH]; [constructor |].
    inversion Hpre; subst. constructor; [| apply IH; assumption].
    intros a b. destruct (Planet_update_samples a b q) as [q' [Hu _]]; eauto.
  - intros a b. destruct (Planet_update_untrailed a b p Hp) as [p' [Hu _]]. eauto.
Qed.

(** What [update] leaves when it returns. *)
Lemma update_returned t1 t2 e b e' :
  update t1 t2 e = Normal b e' ->
  b = trails_due t1 e /\
  exists ax ay,
    accelerations e = Some (ax, ay) /\
    length ax = length (planets e) /\ length ay = length (planets e) /\
    planets e' = integrated ax ay b 0 (planets e).
Proof.
  intros Hret.
  destruct (update_unfold t1 t2 e) as [ax [ay [Hacc [Hx [Hy Hrun]]]]].
  destruct (updatePlanets _ _ _ _ _ _) as [[] ps|ps] eqn:Hloop.
  2:{ destruct Hrun as [e1 [Hu _]]. rewrite Hu in Hret. discriminate Hret. }
  destruct Hrun as [e1 [Hu Hps]].
  rewrite Hu in Hret. injection Hret as <- <-.
  split; [reflexivity |].
  exists ax, ay. split; [exact Hacc |]. split; [exact Hx |]. split; [exact Hy |].
  apply (updatePlanets_returned ax ay _ (planets e) []) in Hloop.
  cbn [app length] in Hloop. congruence.
Qed.

(** X1.  When [update] returns, every planet has been advanced by one step
    of the semi-implicit Euler scheme (the velocity first, the position from
    the new velocity) under its own entry of the accumulators, and the
    accumulators are those the force phase computes from the planets as they
    were when the call began: no planet moves before every acceleration is
    known.  The accumulators have one entry per planet, and no planet is
    added, removed or recoloured. *)
Theorem update_advances_planets_from_one_snapshot :
  forall (t1 t2 : Z) (e e' : PhysicsEngine) (b : bool),
    update t1 t2 e = Normal b e' ->
    exists ax ay,
      accelerations e = Some (ax, ay) /\
      length ax = getPlanetCount e /\ length ay = getPlanetCount e /\
      getPlanetCount e' = getPlanetCount e /\
      forall i p,
        nth_error (planets e) i = Some p ->
        exists p', nth_error (planets e') i = Some p' /\
                   advanced (num_get ax i) (num_get ay i) p p'.
Proof.
  intros t1 t2 e e' b Hret.
  destruct (update_unfold t1 t2 e) as [ax [ay [Hacc [Hx [Hy Hrun]]]]].
  exists ax, ay. split; [exact Hacc |]. split; [exact Hx |]. split; [exact Hy |].
  destruct (updatePlanets _ _ _ _ _ _) as [[] ps|ps] eqn:Hloop.
  2:{ destruct Hrun as [e1 [Hu _]]. congruence. }
  destruct Hrun as [e1 [Hu Hps]].
  assert (e1 = e') by congruence. subst e1.
  apply (updatePlanets_returned ax ay _ (planets e) []) in Hloop.
  cbn [app length] in Hloop. subst ps. unfold getPlanetCount. rewrite Hps.
  split; [apply integrated_length |].
  intros i p Hp. rewrite (integrated_nth _ _ _ _ 0 i p Hp). cbn [Nat.add].
  eexists; split; [reflexivity |]. apply Planet_update_advanced.
Qed.

Lemma update_advances_planets_from_one_snapshot_witness :
  exists ax ay,
    accelerations orbiting = Some (ax, ay) /\
    length ax = 1 /\
    getPlanetCount (state_of (update 20 20 orbiting)) = 1.
Proof.
  destruct (update_advances_planets_from_one_snapshot 20 20 orbiting
              (state_of (update 20 20 orbiting)) false eq_refl)
    as [ax [ay [Hacc [Hx [_ [Hn _]]]]]].
  exists ax, ay. split; [exact Hacc |]. split; [exact Hx | exact Hn].
Defined.

(** X2.  In a reachable state, [update] throws exactly when the trail
    cooldown has elapsed and some planet has no trail.  It then stops at the
    first such planet: the planets before it have been advanced and their
    trails sampled, that planet has been advanced and still has no trail,
    the planets behind it have not been touched, and the trail clock has
    been restarted. *)
Theorem update_throws_exactly_when_sampling_without_trail :
  forall (t1 t2 : Z) (e : PhysicsEngine),
    reachable e ->
    ((exists e', update t1 t2 e = TypeError e') <->
     trails_due t1 e = true /\
     Exists (fun p => Planet.trailPositions p = None) (planets e)) /\
    (forall pre p post,
        trails_due t1 e = true ->
        planets e = pre ++ p :: post ->
        Forall trail_initialized pre ->
        Planet.trailPositions p = None ->
        exists e' ax ay pre' p',
          update t1 t2 e = TypeError e' /\
          accelerations e = Some (ax, ay) /\
          planets e' = pre' ++ p' :: post /\
          Forall2 trail_sampled pre pre' /\
          (forall i q, nth_error pre i = Some q ->
                       exists q', nth_error pre' i = Some q' /\
                                  advanced (num_get ax i) (num_get ay i) q q') /\
          advanced (num_get ax (length pre)) (num_get ay (length pre)) p p' /\
          Planet.trailPositions p' = None /\
          lastTrailUpdateTime e' = t1).
Proof.
  intros t1 t2 e He.
  destruct (reachable_invariant e He) as [_ Hok].
  assert (Hpart : forall pre p post,
        trails_due t1 e = true ->
        planets e = pre ++ p :: post ->
        Forall trail_initialized pre ->
        Planet.trailPositions p = None ->
        exists e' ax ay pre' p',
          update t1 t2 e = TypeError e' /\
          accelerations e = Some (ax, ay) /\
          planets e' = pre' ++ p' :: post /\
          Forall2 trail_sampled pre pre' /\
          (forall i q, nth_error pre i = Some q ->
                       exists q', nth_error pre' i = Some q' /\
                                  advanced (num_get ax i) (num_get ay i) q q') /\
          advanced (num_get ax (length pre)) (num_get ay (length pre)) p p' /\
          Planet.trailPositions p' = None /\
          lastTrailUpdateTime e' = t1).
  { intros pre p post Hdue Hps Hpre Hp.
    destruct (update_thrown t1 t2 e pre p post Hok Hdue Hps Hpre Hp)
      as [e' [ax [ay [Hu [Hacc Hpl]]]]].
    rewrite integrated_app in Hpl. cbn [integrated plus] in Hpl.
    rewrite <- app_assoc in Hpl. cbn [app] in Hpl.
    exists e', ax, ay, (integrated ax ay true 0 pre).
    eexists. split; [exact Hu |]. split; [exact Hacc |]. split; [exact Hpl |].
    split.
    { apply integrated_sampled; [| exact Hpre].
      rewrite Hps in Hok. apply Forall_app_l in Hok. exact Hok. }
    split.
    { intros i q Hq. rewrite (integrated_nth _ _ _ _ 0 i q Hq). cbn [Nat.add].
      eexists; split; [reflexivity |]. apply Planet_update_advanced. }
    split; [apply Planet_update_advanced |].
    split.
    { destruct (Planet_update_untrailed (num_get ax (length pre))
                  (num_get ay (length pre)) p Hp) as [p' [-> Hn]]. exact Hn. }
    pose proof (update_lastTrailUpdateTime t1 t2 e) as Hl.
    rewrite Hu in Hl. cbn [state_of] in Hl. rewrite Hl.
    unfold shouldUpdateTrails. unfold trails_due in Hdue. rewrite Hdue. reflexivity. }
  split; [| exact Hpart].
  split.
  - intros [e' Hthrow].
    destruct (trails_due t1 e) eqn:Hdue.
    + split; [reflexivity |].
      destruct (trails_all_or_one_missing (planets e)) as [Hall | Hex];
        [| exact Hex].
      exfalso.
      destruct (update_returns (fun p => trail_ok p /\ trail_initialized p)
                  trail_sampled t1 t2 e) as [e1 [Hrun _]].
      * intros a b p [Hp Hi].
        replace (fst (shouldUpdateTrails t1 e)) with true.
        -- apply Planet_update_samples; assumption.
        -- unfold shouldUpdateTrails. unfold trails_due in Hdue. rewrite Hdue.
           reflexivity.
      * clear - Hok Hall. induction Hok; inversion Hall; subst; constructor; auto.
      * congruence.
    + exfalso.
      destruct (update_returns (fun _ => True)
                  (fun p p' => Planet.trailPositions p' = Planet.trailPositions p)
                  t1 t2 e) as [e1 [Hrun _]].
      * intros a b p _.
        replace (fst (shouldUpdateTrails t1 e)) with false.
        -- apply Planet_update_no_trail.
        -- unfold shouldUpdateTrails. unfold trails_due in Hdue. rewrite Hdue.
           reflexivity.
      * clear. induction (planets e); constructor; auto.
      * congruence.
  - intros [Hdue Hex].
    destruct (first_untrailed _ Hex) as [pre [p [post [Hps [Hpre Hp]]]]].
    destruct (Hpart pre p post Hdue Hps Hpre Hp) as [e' [_ [_ [_ [_ [Hu _]]]]]].
    exists e'. exact Hu.
Qed.

Lemma update_throws_exactly_when_sampling_without_trail_witness :
  reachable halfTrailed /\
  exists e', update 100 100 halfTrailed = TypeError e'.
Proof.
  assert (Hr : reachable halfTrailed)
    by (apply reach_timer, reachable_addPlanets, reach_constructor).
  split; [exact Hr |].
  apply (proj1 (update_throws_exactly_when_sampling_without_trail 100 100 halfTrailed Hr)).
  split; [reflexivity |]. right. left. reflexivity.
Defined.

(** ** NaN positions *)

Lemma sunAcceleration_nan p :
  nan_position p ->
  is_nan (sunAccelerationX p) = true /\ is_nan (sunAccelerationY p) = true.
Proof.
  intros Hp. unfold sunAccelerationX, sunAccelerationY, sunAcceleration. cbn [fst snd].
  assert (Hr2 : is_nan ((- Planet.x p) * (- Planet.x p)
                        + (- Planet.y p) * (- Planet.y p))%float = true).
  { destruct Hp as [H | H].
    - apply nan_add_l, nan_mul_l, nan_opp, H.
    - apply nan_add_r, nan_mul_l, nan_opp, H. }
  split; apply nan_div_l, nan_mul_l, nan_div_r, nan_mul_l, nan_mul_l, nan_sqrt, Hr2.
Qed.

Lemma separationSquared_nan pi pj :
  nan_position pi \/ nan_position pj -> is_nan (separationSquared pi pj) = true.
Proof.
  unfold separationSquared, nan_position.
  intros [[H | H] | [H | H]].
  - apply nan_add_l, nan_mul_l, nan_sub_r, H.
  - apply nan_add_r, nan_mul_l, nan_sub_r, H.
  - apply nan_add_l, nan_mul_l, nan_sub_l, H.
  - apply nan_add_r, nan_mul_l, nan_sub_l, H.
Qed.

Lemma pairAcceleration_nan pi pj :
  nan_position pi \/ nan_position pj ->
  is_nan (fst (pairAcceleration pi pj)) = true /\
  is_nan (snd (pairAcceleration pi pj)) = true.
Proof.
  intros H. pose proof (separationSquared_nan pi pj H) as Hr2.
  unfold pairAcceleration. cbn [fst snd].
  assert (He : effectiveR2 (separationSquared pi pj) = separationSquared pi pj).
  { unfold effectiveR2. rewrite nan_ltb_l by exact Hr2. reflexivity. }
  rewrite He. unfold pairForce.
  split; apply nan_div_l, nan_mul_l, nan_div_r, nan_mul_l, nan_mul_l, nan_sqrt, Hr2.
Qed.

(** A pair step never turns a NaN entry into a number, and a step on a pair
    with a planet at a NaN position writes NaN for both planets: a NaN
    distance is not beyond the cutoff. *)
Lemma pairStep_nan e i j pi pj acc :
  i <> j ->
  nth_error (planets e) i = Some pi ->
  nth_error (planets e) j = Some pj ->
  exists acc',
    pairStep e i j acc = Some acc' /\
    (forall k, nan_at acc k -> nan_at acc' k) /\
    (nan_position pi \/ nan_position pj -> nan_at acc' i /\ nan_at acc' j).
Proof.
  intros Hij Hpi Hpj. destruct acc as [ax ay].
  destruct (maxDistanceSquared <? separationSquared pi pj)%float eqn:Hfar.
  - exists (ax, ay). split; [apply (pairStep_skip e i j pi pj); assumption |].
    split; [auto |]. intros Hnan.
    rewrite nan_ltb_r in Hfar by (apply separationSquared_nan, Hnan). discriminate.
  - rewrite (pairStep_within e i j pi pj ax ay Hpi Hpj Hfar). cbn zeta.
    eexists; split; [reflexivity |].
    set (cx := fst (pairAcceleration pi pj)). set (cy := snd (pairAcceleration pi pj)).
    assert (Hji : j <> i) by congruence.
    split.
    + intros k [Hx Hy]. unfold nan_at in *. cbn [fst snd] in *.
      destruct (Nat.eq_dec k j) as [-> | Hkj].
      * rewrite !num_get_set_same, !num_get_set_other by assumption.
        split; apply nan_sub_l; assumption.
      * rewrite !(num_get_set_other _ j k) by congruence.
        destruct (Nat.eq_dec k i) as [-> | Hki].
        -- rewrite !num_get_set_same. split; apply nan_add_l; assumption.
        -- rewrite !(num_get_set_other _ i k) by congruence. auto.
    + intros Hnan. destruct (pairAcceleration_nan pi pj Hnan) as [Hcx Hcy].
      fold cx in Hcx. fold cy in Hcy.
      unfold nan_at. cbn [fst snd].
      rewrite !num_get_set_same, !(num_get_set_other _ j i) by congruence.
      rewrite !num_get_set_same.
      repeat split; first [apply nan_add_r; assumption | apply nan_sub_r; assumption].
Qed.

(** Once the entry of a planet at a NaN position is NaN, the pair loop
    leaves NaN in the entries of every planet. *)
Lemma calculatePlanetGravity_poisoned e j0 p0 ax ay :
  nth_error (planets e) j0 = Some p0 ->
  nan_position p0 ->
  nan_at (ax, ay) j0 ->
  exists acc',
    calculatePlanetGravity ax ay e = Some acc' /\
    forall k, k < length (planets e) -> nan_at acc' k.
Proof.
  intros Hp0 Hnan H0.
  assert (Hj0 : j0 < length (planets e)) by (apply nth_error_Some; congruence).
  unfold calculatePlanetGravity. set (n := length (planets e)) in *.
  pose (Pout := fun (i : nat) (acc : list float * list float) =>
    nan_at acc j0 /\
    (forall k, k < i -> k < j0 -> nan_at acc k) /\
    (j0 < i -> forall k, j0 < k -> k < n -> nan_at acc k)).
  destruct (@for_up_invariant _ Pout
              (fun i => for_up (S i) (n - S i) (pairStep e i)) n 0 (ax, ay))
    as [acc' [Hrun [Ha [Hb Hc]]]].
  - unfold Pout. split; [exact H0 |]. split; intros; lia.
  - intros i acc Hi [Ha [Hb Hc]].
    pose (Pin := fun (j : nat) (a : list float * list float) =>
      Pout i a /\
      (i = j0 -> forall k, i < k -> k < j -> nan_at a k) /\
      (i < j0 -> j0 < j -> nan_at a i)).
    destruct (@for_up_invariant _ Pin (pairStep e i) (n - S i) (S i) acc)
      as [acc1 [Hrun1 [[Ha1 [Hb1 Hc1]] [Hd1 He1]]]].
    + unfold Pin, Pout.
      split; [split; [exact Ha | split; [exact Hb | exact Hc]] |].
      split; intros; lia.
    + intros j a Hj [[Ha0 [Hb0 Hc0]] [Hd0 He0]].
      destruct (nth_error (planets e) i) as [pi|] eqn:Hpi.
      2:{ apply nth_error_None in Hpi. fold n in Hpi. lia. }
      destruct (nth_error (planets e) j) as [pj|] eqn:Hpj.
      2:{ apply nth_error_None in Hpj. fold n in Hpj. lia. }
      destruct (pairStep_nan e i j pi pj a) as [a' [Hstep [Hmono Hpair]]];
        [lia | assumption | assumption |].
      exists a'. split; [exact Hstep |].
      unfold Pin, Pout.
      split; [split; [apply Hmono, Ha0 | split] |].
      { intros k Hk1 Hk2. apply Hmono, Hb0; assumption. }
      { intros Hlt k Hk1 Hk2. apply Hmono, Hc0; assumption. }
      split.
      * intros -> k Hk1 Hk2.
        destruct (Nat.eq_dec k j) as [-> | Hkj].
        -- apply Hpair. left. rewrite Hp0 in Hpi. injection Hpi as <-. exact Hnan.
        -- apply Hmono, Hd0; [reflexivity | lia | lia].
      * intros Hlt Hjj.
        destruct (Nat.eq_dec j0 j) as [-> | Hne].
        -- apply Hpair. right. rewrite Hp0 in Hpj. injection Hpj as <-. exact Hnan.
        -- apply Hmono, He0; [assumption | lia].
    + exists acc1. split; [exact Hrun1 |].
      replace (S i + (n - S i)) with n in * by lia.
      unfold Pout. split; [exact Ha1 |]. split.
      * intros k Hk1 Hk2. destruct (Nat.eq_dec k i) as [-> | Hki].
        -- apply He1; assumption.
        -- apply Hb1; [lia | assumption].
      * intros Hlt k Hk1 Hk2. destruct (Nat.eq_dec j0 i) as [Heq | Hne].
        -- apply Hd1; [congruence | lia | assumption].
        -- apply Hc1; [lia | assumption | assumption].
  - exists acc'. split; [exact Hrun |].
    intros k Hk. simpl in Hb, Hc.
    destruct (Nat.lt_trichotomy k j0) as [Hlt | [-> | Hgt]].
    + apply Hb; [fold n; lia | assumption].
    + exact Ha.
    + apply Hc; [assumption | assumption | assumption].
Qed.

(** A NaN entry of the sun loop stays NaN through the pair loop. *)
Lemma calculatePlanetGravity_keeps_nan e ax ay k :
  nan_at (ax, ay) k ->
  exists acc', calculatePlanetGravity ax ay e = Some acc' /\ nan_at acc' k.
Proof.
  intros H0.
  apply (calculatePlanetGravity_invariant (fun acc => nan_at acc k)); [| exact H0].
  intros i j acc Hij Hacc.
  destruct (nth_error (planets e) i) as [pi|] eqn:Hpi.
  2:{ apply nth_error_None in Hpi. lia. }
  destruct (nth_error (planets e) j) as [pj|] eqn:Hpj.
  2:{ apply nth_error_None in Hpj. lia. }
  destruct (pairStep_nan e i j pi pj acc) as [a' [Hstep [Hmono _]]];
    [lia | assumption | assumption |].
  exists a'. split; [exact Hstep | apply Hmono, Hacc].
Qed.

Lemma num_get_map {A} (f : A -> float) (l : list A) i x :
  nth_error l i = Some x -> num_get (map f l) i = f x.
Proof.
  unfold num_get. revert i; induction l as [|h t IH]; intros [|i] H; simpl in *;
    try discriminate.
  - injection H as ->. reflexivity.
  - apply IH, H.
Qed.

(** The accumulator entries of a planet whose central-mass acceleration is NaN. *)
Lemma accelerations_nan_entry e k p ax ay :
  nth_error (planets e) k = Some p ->
  is_nan (sunAccelerationX p) = true -> is_nan (sunAccelerationY p) = true ->
  accelerations e = Some (ax, ay) ->
  nan_at (ax, ay) k.
Proof.
  intros Hp Hx Hy. unfold accelerations. rewrite sun_loop_spec. intros Hrun.
  destruct (calculatePlanetGravity_keeps_nan e
              (map (fun p => (0 + sunAccelerationX p)%float) (planets e))
              (map (fun p => (0 + sunAccelerationY p)%float) (planets e)) k)
    as [acc' [Hrun' Hk]].
  - unfold nan_at. cbn [fst snd].
    rewrite !(num_get_map _ _ _ _ Hp). split; apply nan_add_r; assumption.
  - congruence.
Qed.

Lemma accelerations_poisoned e j0 p0 ax ay :
  nth_error (planets e) j0 = Some p0 ->
  nan_position p0 ->
  accelerations e = Some (ax, ay) ->
  forall k, k < length (planets e) -> nan_at (ax, ay) k.
Proof.
  intros Hp0 Hnan. unfold accelerations. rewrite sun_loop_spec. intros Hrun.
  destruct (sunAcceleration_nan p0 Hnan) as [Hx Hy].
  destruct (calculatePlanetGravity_poisoned e j0 p0
              (map (fun p => (0 + sunAccelerationX p)%float) (planets e))
              (map (fun p => (0 + sunAccelerationY p)%float) (planets e)) Hp0 Hnan)
    as [acc' [Hrun' Hall]].
  - unfold nan_at. cbn [fst snd].
    rewrite !(num_get_map _ _ _ _ Hp0). split; apply nan_add_r; assumption.
  - rewrite Hrun in Hrun'. injection Hrun' as <-. exact Hall.
Qed.

(** A step under a NaN acceleration loses the planet. *)
Lemma advanced_nan ax ay p p' :
  is_nan ax = true -> is_nan ay = true -> advanced ax ay p p' -> lost p'.
Proof.
  intros Hx Hy [Hvx [Hvy [Hpx [Hpy _]]]]. unfold lost.
  assert (Hvx' : is_nan (Planet.vx p') = true)
    by (rewrite Hvx; apply nan_add_r, nan_mul_l, Hx).
  assert (Hvy' : is_nan (Planet.vy p') = true)
    by (rewrite Hvy; apply nan_add_r, nan_mul_l, Hy).
  rewrite Hpx, Hpy.
  repeat split; try assumption; apply nan_add_r, nan_mul_l; assumption.
Qed.

Lemma Forall_integrated (Q : Planet.t -> Prop) ax ay flag ps : forall i,
  (forall k p, nth_error ps k = Some p ->
     Q (state_of (Planet.update (num_get ax (i + k)) (num_get ay (i + k)) flag p))) ->
  Forall Q (integrated ax ay flag i ps).
Proof.
  induction ps as [|q t IH]; intros i H; cbn [integrated]; constructor.
  - specialize (H 0 q eq_refl). rewrite Nat.add_0_r in H. exact H.
  - apply IH. intros k p Hp. specialize (H (S k) p Hp).
    replace (S i + k) with (i + S k) by lia. exact H.
Qed.

Lemma float_zero_cases (a : float) :
  (a =? 0)%float = true -> a = 0%float \/ a = (-0)%float.
Proof.
  rewrite FloatAxioms.eqb_spec. intros H.
  rewrite <- (SF2Prim_Prim2SF a).
  destruct (Prim2SF a) as [[]|[]| |[] m e]; try discriminate H.
  - right. reflexivity.
  - left. reflexivity.
Qed.

(** At the centre of the sun the distance is zero, the force infinite, and
    the acceleration [Infinity * 0 / 0]. *)
Lemma sunAcceleration_at_origin p :
  (Planet.x p =? 0)%float = true -> (Planet.y p =? 0)%float = true ->
  is_nan (sunAccelerationX p) = true /\ is_nan (sunAccelerationY p) = true.
Proof.
  intros Hx Hy. unfold sunAccelerationX, sunAccelerationY, sunAcceleration.
  destruct (float_zero_cases _ Hx) as [-> | ->];
    destruct (float_zero_cases _ Hy) as [-> | ->];
    split; vm_compute; reflexivity.
Qed.

(** X3.  One planet with a NaN coordinate is enough to lose them all.  A
    NaN distance is not beyond the cutoff, so the force phase leaves NaN in
    the accumulator entries of every planet, and an [update] that returns
    leaves every planet with NaN position and velocity. *)
Theorem nan_position_poisons_every_planet :
  forall (t1 t2 : Z) (e : PhysicsEngine) (j : nat) (pj : Planet.t),
    nth_error (planets e) j = Some pj ->
    nan_position pj ->
    (exists ax ay,
        accelerations e = Some (ax, ay) /\
        forall k, k < getPlanetCount e ->
                  is_nan (num_get ax k) = true /\ is_nan (num_get ay k) = true) /\
    (forall b e',
        update t1 t2 e = Normal b e' ->
        getPlanetCount e' = getPlanetCount e /\ Forall lost (planets e')).
Proof.
  intros t1 t2 e j pj Hj Hnan.
  split.
  - destruct (accelerations_total e) as [[ax ay] Hacc].
    exists ax, ay. split; [exact Hacc |].
    intros k Hk. apply (accelerations_poisoned e j pj ax ay Hj Hnan Hacc k Hk).
  - intros b e' Hret.
    destruct (update_returned t1 t2 e b e' Hret) as [_ [ax [ay [Hacc [_ [_ Hps]]]]]].
    unfold getPlanetCount. rewrite Hps. split; [apply integrated_length |].
    apply Forall_integrated. intros k p Hp. cbn [Nat.add].
    assert (Hk : k < length (planets e)) by (apply nth_error_Some; congruence).
    destruct (accelerations_poisoned e j pj ax ay Hj Hnan Hacc k Hk) as [Hx Hy].
    cbn [fst snd] in Hx, Hy.
    apply (advanced_nan _ _ p _ Hx Hy). apply Planet_update_advanced.
Qed.

Lemma nan_position_poisons_every_planet_witness :
  nan_position (hd (Planet.new 1 1 0 0 0) (planets lostPair)) /\
  map (fun p => is_nan (Planet.x p)) (planets lostPair) = [true; false] /\
  exists e',
    update 200 200 lostPair = Normal true e' /\
    Forall lost (planets e').
Proof.
  assert (Hnan : nan_position (hd (Planet.new 1 1 0 0 0) (planets lostPair))).
  { left. vm_compute. reflexivity. }
  split; [exact Hnan |].
  split; [vm_compute; reflexivity |].
  destruct (nan_position_poisons_every_planet 200 200 lostPair 0
              (hd (Planet.new 1 1 0 0 0) (planets lostPair)) eq_refl Hnan)
    as [_ Hall].
  eexists. split; [vm_compute; reflexivity |].
  apply (Hall true). vm_compute. reflexivity.
Defined.

(** X4.  A planet exactly at the centre of the sun ([x] and [y] both zero,
    of either sign) has NaN position and velocity after an [update] that
    returns, whatever the other planets are. *)
Theorem planet_at_origin_is_lost_after_update :
  forall (t1 t2 : Z) (e e' : PhysicsEngine) (b : bool) (i : nat) (p : Planet.t),
    nth_error (planets e) i = Some p ->
    (Planet.x p =? 0)%float = true ->
    (Planet.y p =? 0)%float = true ->
    update t1 t2 e = Normal b e' ->
    exists p', nth_error (planets e') i = Some p' /\ lost p'.
Proof.
  intros t1 t2 e e' b i p Hp Hx Hy Hret.
  destruct (update_returned t1 t2 e b e' Hret) as [_ [ax [ay [Hacc [_ [_ Hps]]]]]].
  destruct (sunAcceleration_at_origin p Hx Hy) as [Hsx Hsy].
  destruct (accelerations_nan_entry e i p ax ay Hp Hsx Hsy Hacc) as [Hax Hay].
  cbn [fst snd] in Hax, Hay.
  rewrite Hps, (integrated_nth _ _ _ _ 0 i p Hp). cbn [Nat.add].
  eexists. split; [reflexivity |].
  apply (advanced_nan _ _ p _ Hax Hay). apply Planet_update_advanced.
Qed.

Lemma planet_at_origin_is_lost_after_update_witness :
  exists p',
    nth_error (planets lostPair) 0 = Some p' /\ lost p'.
Proof.
  apply (planet_at_origin_is_lost_after_update 100 100 originPair lostPair true 0
           (Planet.initTrail (Planet.new 0 0 0 0 7)));
    vm_compute; reflexivity.
Defined.

(** A planet at a NaN position passes neither removal test. *)
Lemma nan_planet_survives maxX maxY p :
  is_nan (Planet.x p) = true -> is_nan (Planet.y p) = true ->
  Planet.isOutOfBounds maxX maxY p = false /\ Planet.isCollidedWithSun p = false.
Proof.
  intros Hx Hy. unfold Planet.isOutOfBounds, Planet.isCollidedWithSun.
  rewrite !nan_ltb_r by (apply nan_abs; assumption).
  rewrite nan_ltb_l by (apply nan_add_l, nan_mul_l; assumption).
  split; reflexivity.
Qed.

(** X5.  A planet whose coordinates are NaN is neither out of bounds nor
    inside the sun, for any bounds; no removal pass removes it, whatever its
    completion, and [Planet.update] leaves its coordinates NaN.  Only the
    eviction of [addPlanet] takes it out of the collection. *)
Theorem lost_planet_is_never_removed :
  forall (now : nat -> Z) (maxX maxY : float) (e : PhysicsEngine) (p : Planet.t),
    In p (planets e) ->
    is_nan (Planet.x p) = true ->
    is_nan (Planet.y p) = true ->
    Planet.isOutOfBounds maxX maxY p = false /\
    Planet.isCollidedWithSun p = false /\
    In p (planets (state_of (removeOutOfBoundsPlanets now maxX maxY e))) /\
    (forall ax ay flag,
        is_nan (Planet.x (state_of (Planet.update ax ay flag p))) = true /\
        is_nan (Planet.y (state_of (Planet.update ax ay flag p))) = true).
Proof.
  intros now maxX maxY e p Hin Hx Hy.
  destruct (nan_planet_survives maxX maxY p Hx Hy) as [Hoob Hsun].
  split; [exact Hoob |]. split; [exact Hsun |]. split.
  - assert (Hs : In p (filter (survives maxX maxY) (planets e))).
    { apply filter_In. split; [exact Hin |]. apply survives_iff. auto. }
    rewrite <- (removeOutOfBoundsPlanets_survivors_any now) in Hs.
    apply filter_In in Hs. tauto.
  - intros ax ay flag.
    destruct (Planet_update_advanced ax ay flag p) as [_ [_ [Hpx [Hpy _]]]].
    rewrite Hpx, Hpy. split; apply nan_add_l; assumption.
Qed.

Lemma lost_planet_is_never_removed_witness :
  In (hd (Planet.new 1 1 0 0 0) (planets lostPair))
     (planets (state_of (removeOutOfBoundsPlanets (fun _ => 170%Z) 70 70 lostPair))).
Proof.
  apply (lost_planet_is_never_removed (fun _ => 170%Z) 70 70 lostPair
           (hd (Planet.new 1 1 0 0 0) (planets lostPair)));
    [left; reflexivity | vm_compute; reflexivity | vm_compute; reflexivity].
Defined.

(** ** The removal pass, when it returns *)

(** The removal loop, when it returns. *)
Lemma removeLoop_returned now maxX maxY :
  forall front back log e log' e',
    planets e = front ++ back ->
    removeLoop now maxX maxY (length front) log e = Normal log' e' ->
    log' = visits maxX maxY 0 front ++ log /\
    planets e' = filter (survives maxX maxY) front ++ back /\
    collisionEffect e'
    = effectOfLog now (visits maxX maxY 0 front) (collisionEffect e) /\
    lastTrailUpdateTime e' = lastTrailUpdateTime e.
Proof.
  induction front as [|p f IH] using rev_ind; intros back log e log' e' Hps Hrun.
  - simpl in Hrun. injection Hrun as <- <-. simpl. auto.
  - rewrite length_app, Nat.add_comm in Hrun. cbn [length plus removeLoop] in Hrun.
    rewrite <- app_assoc in Hps. cbn [app] in Hps.
    assert (Hnth : nth_error (planets e) (length f) = Some p)
      by (rewrite Hps; apply nth_error_middle).
    rewrite Hnth in Hrun.
    rewrite visits_app, effectOfLog_app, filter_app, <- !app_assoc.
    cbn [visits app filter plus].
    unfold survives at 2, outcomeOf.
    destruct (Planet.isOutOfBounds maxX maxY p) eqn:Hoob; cbn [negb andb].
    + destruct (Planet.remove p); [| discriminate Hrun].
      apply (IH back) in Hrun.
      * cbn [effectOfLog]. exact Hrun.
      * cbn [planets set_planets]. rewrite Hps. apply splice1_middle.
    + destruct (Planet.isCollidedWithSun p) eqn:Hcol; cbn [negb].
      * destruct (Planet.remove p); [| discriminate Hrun].
        apply (IH back) in Hrun.
        -- cbn [effectOfLog]. exact Hrun.
        -- cbn [planets set_planets set_collisionEffect]. rewrite Hps.
           apply splice1_middle.
      * apply (IH (p :: back)) in Hrun; [| exact Hps].
        cbn [effectOfLog]. exact Hrun.
Qed.

Lemma removeOutOfBoundsPlanets_returned now maxX maxY e log e' :
  removeOutOfBoundsPlanets now maxX maxY e = Normal log e' ->
  log = visits maxX maxY 0 (planets e) /\
  planets e' = filter (survives maxX maxY) (planets e) /\
  collisionEffect e'
  = effectOfLog now (visits maxX maxY 0 (planets e)) (collisionEffect e) /\
  lastTrailUpdateTime e' = lastTrailUpdateTime e.
Proof.
  unfold removeOutOfBoundsPlanets.
  destruct (length (planets e) =? 0) eqn:Hn.
  - apply Nat.eqb_eq in Hn. destruct (planets e) eqn:Hps; [| discriminate Hn].
    intros H. injection H as <- <-. rewrite Hps. simpl. auto.
  - intros Hrun.
    apply (removeLoop_returned now maxX maxY (planets e) []) in Hrun;
      [| symmetry; apply app_nil_r].
    rewrite !app_nil_r in Hrun. exact Hrun.
Qed.

Lemma filter_all {A} (f : A -> bool) (l : list A) :
  Forall (fun x => f x = true) l -> filter f l = l.
Proof.
  induction 1 as [|x l Hx _ IH]; simpl; [reflexivity |]. rewrite Hx, IH. reflexivity.
Qed.

Lemma Forall_filter_true {A} (f : A -> bool) (l : list A) :
  Forall (fun x => f x = true) (filter f l).
Proof.
  apply Forall_forall. intros x Hx. apply filter_In in Hx. tauto.
Qed.

Lemma visits_all_kept maxX maxY ps : forall k,
  Forall (fun p => survives maxX maxY p = true) ps ->
  Forall (fun v : Visit => snd v = Kept) (visits maxX maxY k ps).
Proof.
  induction ps as [|p t IH]; intros k H; simpl; constructor.
  - inversion H; subst. simpl. unfold outcomeOf.
    match goal with Hs : survives _ _ p = true |- _ => apply survives_iff in Hs as [-> ->] end.
    reflexivity.
  - apply IH. inversion H; assumption.
Qed.

Lemma visits_length maxX maxY ps : forall k, length (visits maxX maxY k ps) = length ps.
Proof. induction ps; intros k; simpl; auto. Qed.

Lemma engine_eq e e' :
  planets e' = planets e -> collisionEffect e' = collisionEffect e ->
  lastTrailUpdateTime e' = lastTrailUpdateTime e -> e' = e.
Proof.
  destruct e, e'. unfold collisionEffect. simpl. intros -> H ->.
  injection H as -> -> -> ->. reflexivity.
Qed.

(** X6.  A removal pass that returns leaves exactly the planets that are
    neither out of bounds nor inside the sun, and a second pass with the
    same bounds changes nothing: it returns after one iteration per planet,
    keeps each of them and leaves the engine as it was. *)
Theorem removal_pass_is_idempotent :
  forall (now now' : nat -> Z) (maxX maxY : float) (e e1 : PhysicsEngine)
         (log : list Visit),
    removeOutOfBoundsPlanets now maxX maxY e = Normal log e1 ->
    planets e1 = filter (survives maxX maxY) (planets e) /\
    exists log',
      removeOutOfBoundsPlanets now' maxX maxY e1 = Normal log' e1 /\
      length log' = getPlanetCount e1 /\
      Forall (fun v : Visit => snd v = Kept) log'.
Proof.
  intros now now' maxX maxY e e1 log Hrun.
  destruct (removeOutOfBoundsPlanets_returned _ _ _ _ _ _ Hrun) as [_ [Hps _]].
  split; [exact Hps |].
  assert (Hall : Forall (fun p => survives maxX maxY p = true) (planets e1)).
  { rewrite Hps. apply Forall_filter_true. }
  destruct (removeOutOfBoundsPlanets_spec now' maxX maxY e1)
    as [e2 [Hrun2 [Hps2 [Heff2 Hlast2]]]].
  { apply Forall_forall. intros p Hp Hs.
    rewrite Forall_forall in Hall. rewrite (Hall p Hp) in Hs. discriminate. }
  pose proof (visits_all_kept maxX maxY (planets e1) 0 Hall) as Hkept.
  assert (e2 = e1).
  { apply engine_eq; [| | exact Hlast2].
    - rewrite Hps2. apply filter_all, Hall.
    - rewrite Heff2. apply effectOfLog_no_collision.
      intros i p o Hin Ho. rewrite Forall_forall in Hkept.
      specialize (Hkept _ Hin). simpl in Hkept. congruence. }
  subst e2. eexists. split; [exact Hrun2 |].
  split; [apply visits_length | exact Hkept].
Qed.

Lemma removal_pass_is_idempotent_witness :
  exists e1 log',
    planets e1 = [Planet.new 20 10 0 0 1] /\
    removeOutOfBoundsPlanets (fun _ => 900%Z) 70 50 e1 = Normal log' e1.
Proof.
  destruct (removal_pass_is_idempotent (fun _ => 500%Z) (fun _ => 900%Z) 70 50
              threePlanets
              (state_of (removeOutOfBoundsPlanets (fun _ => 500%Z) 70 50 threePlanets))
              (visits 70 50 0 (planets threePlanets)) eq_refl)
    as [Hps [log' [Hrun _]]].
  eexists; exists log'. split; [| exact Hrun]. rewrite Hps. reflexivity.
Defined.

(** X7.  When every planet that the pass is to remove has its trail, so
    that no [planet.remove()] throws, and some planets are inside the bounds
    and inside the sun, the pass returns and leaves the collision effect at
    the one of them with the lowest index, the oldest: the loop runs from
    the end of the array, so that planet writes last.  The start time is
    the clock read in its iteration. *)
Theorem collision_effect_marks_the_oldest_collision :
  forall (now : nat -> Z) (maxX maxY : float) (e : PhysicsEngine)
         (pre post : list Planet.t) (p : Planet.t),
    planets e = pre ++ p :: post ->
    Forall (releasable maxX maxY) (planets e) ->
    Forall (fun q => Planet.isCollidedWithSun q = true ->
                     Planet.isOutOfBounds maxX maxY q = true) pre ->
    Planet.isOutOfBounds maxX maxY p = false ->
    Planet.isCollidedWithSun p = true ->
    exists log e',
      removeOutOfBoundsPlanets now maxX maxY e = Normal log e' /\
      hasActiveCollisionEffect e' = true /\
      getCollisionEffectX e' = Planet.x p /\
      getCollisionEffectY e' = Planet.y p /\
      collisionEffectStartTime e' = now (length pre).
Proof.
  intros now maxX maxY e pre post p Hps Hrel Hpre Hoob Hsun.
  destruct (removeOutOfBoundsPlanets_spec now maxX maxY e Hrel)
    as [e' [Hrun [_ [Heff _]]]].
  exists (visits maxX maxY 0 (planets e)), e'. split; [exact Hrun |].
  rewrite Hps, visits_app, effectOfLog_app in Heff.
  cbn [visits Nat.add effectOfLog] in Heff.
  assert (Ho : outcomeOf maxX maxY p = SunCollision)
    by (apply outcomeOf_collision; auto).
  rewrite Ho in Heff.
  rewrite effectOfLog_no_collision in Heff.
  - unfold collisionEffect in Heff. injection Heff as Ha Hx Hy Ht.
    unfold hasActiveCollisionEffect, getCollisionEffectX, getCollisionEffectY. auto.
  - intros i q o Hin Hcol. apply visits_In in Hin as [_ [Hq ->]].
    apply outcomeOf_collision in Hcol as [Hqo Hqs].
    apply nth_error_In in Hq. rewrite Forall_forall in Hpre.
    rewrite (Hpre q Hq Hqs) in Hqo. discriminate.
Qed.

Lemma collision_effect_marks_the_oldest_collision_witness :
  exists log e',
    removeOutOfBoundsPlanets (fun i => (500 + Z.of_nat i)%Z) 70 50 twoCollisions
    = Normal log e' /\
    hasActiveCollisionEffect e' = true /\
    getCollisionEffectX e' = 3%float /\
    getCollisionEffectY e' = 0%float /\
    collisionEffectStartTime e' = 501%Z.
Proof.
  apply (collision_effect_marks_the_oldest_collision
           (fun i => (500 + Z.of_nat i)%Z) 70 50 twoCollisions
           [Planet.initTrail (Planet.new 20 10 0 0 1)]
           [Planet.initTrail (Planet.new 1 1 0 0 3)]
           (Planet.initTrail (Planet.new 3 0 0 0 2))).
  - reflexivity.
  - repeat constructor; intros _; discriminate.
  - repeat constructor. vm_compute. discriminate.
  - reflexivity.
  - reflexivity.
Defined.

(** ** The trail cooldown and the trail window *)

(** An [update] whose trail cooldown has not elapsed returns and leaves the
    trails and the trail clock. *)
Lemma update_not_due t1 t2 e :
  trails_due t1 e = false ->
  exists e',
    update t1 t2 e = Normal false e' /\
    map Planet.trailPositions (planets e') = map Planet.trailPositions (planets e) /\
    lastTrailUpdateTime e' = lastTrailUpdateTime e.
Proof.
  intros Hdue.
  assert (Hflag : shouldUpdateTrails t1 e = (false, e)).
  { unfold shouldUpdateTrails. unfold trails_due in Hdue. rewrite Hdue. reflexivity. }
  destruct (update_returns (fun _ => True)
              (fun p p' => Planet.trailPositions p' = Planet.trailPositions p)
              t1 t2 e) as [e' [Hrun Hrel]].
  - rewrite Hflag. intros a b p _. apply Planet_update_no_trail.
  - clear. induction (planets e); constructor; auto.
  - rewrite Hflag in Hrun. cbn [fst] in Hrun.
    exists e'. split; [exact Hrun |]. split.
    + clear - Hrel. induction Hrel; simpl; congruence.
    + pose proof (update_lastTrailUpdateTime t1 t2 e) as Hl.
      rewrite Hrun, Hflag in Hl. exact Hl.
Qed.

Lemma update_due t1 t2 e :
  reachable e ->
  trails_due t1 e = true ->
  Forall trail_initialized (planets e) ->
  exists e',
    update t1 t2 e = Normal true e' /\
    Forall2 trail_sampled (planets e) (planets e') /\
    lastTrailUpdateTime e' = t1.
Proof.
  intros He Hdue Hinit.
  destruct (reachable_invariant e He) as [_ Hok].
  assert (Hflag : shouldUpdateTrails t1 e
                  = (true, mkEngine (planets e) t1 (collisionEffectActive e)
                                    (collisionEffectX e) (collisionEffectY e)
                                    (collisionEffectStartTime e))).
  { unfold shouldUpdateTrails. unfold trails_due in Hdue. rewrite Hdue. reflexivity. }
  destruct (update_returns (fun p => trail_ok p /\ trail_initialized p)
              trail_sampled t1 t2 e) as [e' [Hrun Hrel]].
  - rewrite Hflag. cbn [fst]. intros a b p [Hp Hi].
    apply Planet_update_samples; assumption.
  - clear - Hok Hinit. induction Hok; inversion Hinit; subst; constructor; auto.
  - rewrite Hflag in Hrun. cbn [fst] in Hrun.
    exists e'. split; [exact Hrun |]. split; [exact Hrel |].
    pose proof (update_lastTrailUpdateTime t1 t2 e) as Hl.
    rewrite Hrun, Hflag in Hl. exact Hl.
Qed.

(** X8.  An [update] whose trail cooldown has elapsed restarts the trail
    clock, even if it throws, and an [update] that reads the clock no more
    than [TRAIL_UPDATE_INTERVAL] milliseconds later samples no trail: it
    returns [false] and leaves every trail and the trail clock alone. *)
Theorem trails_sampled_at_most_once_per_interval :
  forall (t1 t2 t1' t2' : Z) (e : PhysicsEngine),
    trails_due t1 e = true ->
    (t1' - t1 <= RenderConstants.TRAIL_UPDATE_INTERVAL)%Z ->
    let e1 := state_of (update t1 t2 e) in
    lastTrailUpdateTime e1 = t1 /\
    exists e2,
      update t1' t2' e1 = Normal false e2 /\
      map Planet.trailPositions (planets e2) = map Planet.trailPositions (planets e1) /\
      lastTrailUpdateTime e2 = t1.
Proof.
  intros t1 t2 t1' t2' e Hdue Hclose e1.
  assert (Hl : lastTrailUpdateTime e1 = t1).
  { unfold e1. rewrite update_lastTrailUpdateTime.
    unfold shouldUpdateTrails. unfold trails_due in Hdue. rewrite Hdue. reflexivity. }
  split; [exact Hl |].
  destruct (update_not_due t1' t2' e1) as [e2 [Hrun [Htr Hl2]]].
  - unfold trails_due. rewrite Hl. apply Z.ltb_ge. exact Hclose.
  - exists e2. split; [exact Hrun |]. split; [exact Htr |]. congruence.
Qed.

Lemma trails_sampled_at_most_once_per_interval_witness :
  lastTrailUpdateTime (state_of (update 100 100 orbiting)) = 100%Z /\
  exists e2,
    update 135 135 (state_of (update 100 100 orbiting)) = Normal false e2 /\
    map Planet.trailPositions (planets e2)
    = map Planet.trailPositions (planets (state_of (update 100 100 orbiting))) /\
    lastTrailUpdateTime e2 = 100%Z.
Proof.
  apply (trails_sampled_at_most_once_per_interval 100 100 135 135 orbiting).
  - reflexivity.
  - unfold RenderConstants.TRAIL_UPDATE_INTERVAL. lia.
Defined.

Lemma last_cons {A} (l : list A) : forall x d, last (x :: l) d = last l x.
Proof.
  induction l as [|s t IH]; intros x d; [reflexivity |].
  change (last (x :: s :: t) d) with (last (s :: t) d).
  rewrite (IH s d), (IH s x). reflexivity.
Qed.

Lemma sampledStates_window accs : forall p a,
  Planet.trailPositions p = Some a ->
  length a = PlanetConstants.TRAIL_LENGTH ->
  forallb Planet.is_defined a = true ->
  exists states,
    sampledStates accs p = Some states /\
    length states = length accs /\
    Planet.trailPositions (last states p)
    = Some (firstn PlanetConstants.TRAIL_LENGTH (rev (map positionOf states) ++ a)).
Proof.
  induction accs as [|[ax ay] rest IH]; intros p a Ha Hlen Hdef.
  - exists []. cbn [sampledStates last map rev app length].
    rewrite <- Hlen, firstn_all. auto.
  - cbn [sampledStates].
    destruct (Planet_update_trail ax ay p a Ha Hlen Hdef) as [p' [Hu Ht]].
    rewrite Hu.
    assert (Hlen' : length (Some (mkPoint (Planet.x p') (Planet.y p')) :: removelast a)
                    = PlanetConstants.TRAIL_LENGTH).
    { simpl length. rewrite removelast_length.
      - rewrite Hlen. reflexivity.
      - intros ->. discriminate Hlen. }
    destruct (IH p' _ Ht Hlen') as [states [Hrun [Hn Hlast]]].
    { cbn [forallb Planet.is_defined andb]. apply forallb_removelast, Hdef. }
    rewrite Hrun. exists (p' :: states).
    split; [reflexivity |]. split; [simpl; congruence |].
    rewrite last_cons, Hlast. f_equal.
    cbn [map rev]. rewrite <- app_assoc. cbn [app].
    rewrite removelast_firstn_len, Hlen.
    change (Some (mkPoint (Planet.x p') (Planet.y p'))) with (positionOf p').
    unfold PlanetConstants.TRAIL_LENGTH. cbn [pred].
    generalize (rev (map positionOf states)) as l. intros l.
    rewrite !firstn_app.
    destruct (Nat.le_gt_cases 10 (length l)) as [Hge | Hlt].
    + replace (10 - length l) with 0 by lia. reflexivity.
    + f_equal. destruct (10 - length l) as [|k] eqn:Hk; [lia |].
      rewrite !firstn_cons, firstn_firstn. do 2 f_equal. lia.
Qed.

(** X9.  The trail is a sliding window.  On a planet with a well-formed
    trail, any number of sampling calls of [Planet.update] all return, and
    the trail then holds the positions the planet had after the calls, most
    recent first, followed by what is left of the old trail, cut to
    [TRAIL_LENGTH] entries; after [TRAIL_LENGTH] calls nothing of the old
    trail is left. *)
Theorem trail_is_window_of_latest_positions :
  forall (accs : list (float * float)) (p : Planet.t) (a : list (option Point)),
    Planet.trailPositions p = Some a ->
    length a = PlanetConstants.TRAIL_LENGTH ->
    forallb Planet.is_defined a = true ->
    exists states,
      sampledStates accs p = Some states /\
      length states = length accs /\
      Planet.trailPositions (last states p)
      = Some (firstn PlanetConstants.TRAIL_LENGTH (rev (map positionOf states) ++ a)) /\
      (PlanetConstants.TRAIL_LENGTH <= length accs ->
       Planet.trailPositions (last states p)
       = Some (firstn PlanetConstants.TRAIL_LENGTH (rev (map positionOf states)))).
Proof.
  intros accs p a Ha Hlen Hdef.
  destruct (sampledStates_window accs p a Ha Hlen Hdef) as [states [Hrun [Hn Hlast]]].
  exists states. split; [exact Hrun |]. split; [exact Hn |]. split; [exact Hlast |].
  intros Hmany. rewrite Hlast. f_equal.
  rewrite firstn_app, length_rev, length_map, Hn.
  replace (PlanetConstants.TRAIL_LENGTH - length accs) with 0 by lia.
  cbn [firstn]. apply app_nil_r.
Qed.

Lemma trail_is_window_of_latest_positions_witness :
  exists states,
    sampledStates [(0, 0); (0, 0)]%float (Planet.initTrail (Planet.new 1 2 1e-11 0 7))
    = Some states /\
    Planet.trailPositions (last states (Planet.initTrail (Planet.new 1 2 1e-11 0 7)))
    = Some (map (fun x : float => Some (mkPoint x 2))
                [5; 3; 1; 1; 1; 1; 1; 1; 1; 1]%float).
Proof.
  destruct (trail_is_window_of_latest_positions [(0, 0); (0, 0)]%float
              (Planet.initTrail (Planet.new 1 2 1e-11 0 7))
              (repeat (Some (mkPoint 1 2)) PlanetConstants.TRAIL_LENGTH)
              eq_refl eq_refl eq_refl)
    as [states [Hrun [_ [Hlast _]]]].
  exists states. split; [exact Hrun |].
  rewrite Hlast. vm_compute in Hrun. injection Hrun as <-.
  vm_compute. reflexivity.
Defined.

(** ** The exception of addPlanet, and when the engine does not throw *)

(** X10.  [addPlanet] throws exactly when the engine already holds
    [MAX_COUNT] planets or more and the oldest of them has no trail: the
    eviction calls [remove] on it.  Whatever the completion, the count grows
    by one below [MAX_COUNT] and stays as it was from [MAX_COUNT] on (one
    planet in, one planet out), and the new planet is the last one and has
    no trail. *)
Theorem addPlanet_throws_exactly_when_evicting_without_trail :
  forall (x y vx vy : float) (c : Z) (e : PhysicsEngine),
    ((exists e', addPlanet x y vx vy c e = TypeError e') <->
     PlanetConstants.MAX_COUNT <= getPlanetCount e /\
     exists oldest rest,
       planets e = oldest :: rest /\ Planet.trailPositions oldest = None) /\
    getPlanetCount (state_of (addPlanet x y vx vy c e))
    = (if getPlanetCount e <? PlanetConstants.MAX_COUNT
       then S (getPlanetCount e) else getPlanetCount e) /\
    last (planets (state_of (addPlanet x y vx vy c e))) (Planet.new x y vx vy c)
    = Planet.new x y vx vy c /\
    Planet.trailPositions (Planet.new x y vx vy c) = None.
Proof.
  intros x y vx vy c e. unfold getPlanetCount.
  split; [| split; [| split; [| reflexivity]]].
  - unfold addPlanet. rewrite length_app, Nat.add_comm. cbn [length Nat.add].
    destruct (PlanetConstants.MAX_COUNT <? S (length (planets e))) eqn:Hfull.
    + apply Nat.ltb_lt in Hfull.
      destruct (planets e) as [|oldest rest] eqn:Hps.
      { unfold PlanetConstants.MAX_COUNT in Hfull. simpl in Hfull. lia. }
      cbn [app]. unfold Planet.remove.
      destruct (Planet.trailPositions oldest) eqn:Ht; split.
      * intros [e' H]. discriminate H.
      * intros [_ [o [r [Heq Hn]]]]. injection Heq as <- <-. congruence.
      * intros _. split; [simpl in *; lia |]. exists oldest, rest. auto.
      * intros _. eexists. reflexivity.
    + apply Nat.ltb_ge in Hfull. split.
      * intros [e' H]. discriminate H.
      * intros [Hle _]. lia.
  - rewrite addPlanet_planets, length_app. cbn [length].
    destruct (PlanetConstants.MAX_COUNT <? S (length (planets e))) eqn:Hfull.
    + apply Nat.ltb_lt in Hfull.
      replace (length (planets e) <? PlanetConstants.MAX_COUNT) with false
        by (symmetry; apply Nat.ltb_ge; lia).
      unfold PlanetConstants.MAX_COUNT in Hfull.
      destruct (planets e); cbn [tl length] in *; lia.
    + apply Nat.ltb_ge in Hfull.
      replace (length (planets e) <? PlanetConstants.MAX_COUNT) with true
        by (symmetry; apply Nat.ltb_lt; lia).
      lia.
  - rewrite addPlanet_planets. apply last_last.
Qed.

Lemma addPlanet_returns x y vx vy c e :
  (PlanetConstants.MAX_COUNT <= length (planets e) ->
   exists oldest rest, planets e = oldest :: rest /\ trail_initialized oldest) ->
  exists e', addPlanet x y vx vy c e = Normal tt e'.
Proof.
  intros H. unfold addPlanet. rewrite length_app, Nat.add_comm. cbn [length Nat.add].
  destruct (PlanetConstants.MAX_COUNT <? S (length (planets e))) eqn:Hfull;
    [| eexists; reflexivity].
  apply Nat.ltb_lt in Hfull.
  destruct H as [oldest [rest [Hps Hinit]]]; [lia |].
  rewrite Hps. cbn [app]. rewrite (Planet_remove_initialized oldest Hinit).
  eexists; reflexivity.
Qed.

Lemma put_at_last {A} (l : list A) (p q : A) :
  put_at (l ++ [p]) (length (l ++ [p]) - 1) q = l ++ [q].
Proof.
  rewrite length_app, Nat.add_sub. cbn [length].
  replace (length l) with (length l + 0) at 1 by lia.
  rewrite Nat.add_0_r. apply put_at_middle.
Qed.

Lemma nth_error_last {A} (l : list A) (p : A) :
  nth_error (l ++ [p]) (length (l ++ [p]) - 1) = Some p.
Proof.
  rewrite length_app, Nat.add_sub. apply nth_error_middle.
Qed.

(** X11.  The engine does not throw as long as every [initTrail] timer
    fires before the next call into the engine.  In a reachable state in
    which every planet has its trail, [update] and
    [removeOutOfBoundsPlanets] return and leave such a state, and
    [addPlanet] returns and leaves such a state once the timer of the new
    planet, the last one, has fired. *)
Theorem settled_engine_never_throws :
  forall (e : PhysicsEngine),
    settled e ->
    (forall t1 t2,
        exists b e', update t1 t2 e = Normal b e' /\ settled e') /\
    (forall now maxX maxY,
        exists log e',
          removeOutOfBoundsPlanets now maxX maxY e = Normal log e' /\ settled e') /\
    (forall x y vx vy c,
        exists e',
          addPlanet x y vx vy c e = Normal tt e' /\
          settled (timerInitTrail (getPlanetCount e' - 1) e')).
Proof.
  intros e [He Hinit]. split; [| split].
  - intros t1 t2.
    destruct (trails_due t1 e) eqn:Hdue.
    + destruct (update_due t1 t2 e He Hdue Hinit) as [e' [Hu _]].
      exists true, e'. split; [exact Hu |]. split.
      * pose proof (reach_update e t1 t2 He) as Hr. rewrite Hu in Hr. exact Hr.
      * apply (update_sampled_initialized t1 t2 e e' Hu).
    + destruct (update_not_due t1 t2 e Hdue) as [e' [Hu [Htr _]]].
      exists false, e'. split; [exact Hu |]. split.
      * pose proof (reach_update e t1 t2 He) as Hr. rewrite Hu in Hr. exact Hr.
      * clear - Htr Hinit. revert Htr Hinit.
        generalize (planets e') as l'. generalize (planets e) as l.
        induction l as [|p l IH]; intros [|p' l'] Htr Hinit; simpl in Htr;
          try discriminate; [constructor |].
        injection Htr as Hp Hl. inversion Hinit; subst.
        constructor; [| apply (IH l'); assumption].
        unfold trail_initialized in *. congruence.
  - intros now maxX maxY.
    destruct (removeOutOfBoundsPlanets_spec now maxX maxY e
                (initialized_releasable maxX maxY _ Hinit))
      as [e' [Hrun [Hps _]]].
    exists (visits maxX maxY 0 (planets e)), e'. split; [exact Hrun |]. split.
    + pose proof (reach_remove e now maxX maxY He) as Hr. rewrite Hrun in Hr. exact Hr.
    + rewrite Hps. apply Forall_forall. intros p Hp. apply filter_In in Hp as [Hp _].
      rewrite Forall_forall in Hinit. apply Hinit, Hp.
  - intros x y vx vy c.
    destruct (addPlanet_returns x y vx vy c e) as [e' Hadd].
    { intros Hfull. destruct (planets e) as [|oldest rest] eqn:Hps.
      - unfold PlanetConstants.MAX_COUNT in Hfull. simpl in Hfull. lia.
      - exists oldest, rest. split; [reflexivity |]. inversion Hinit; assumption. }
    exists e'. split; [exact Hadd |].
    pose proof (reach_addPlanet e x y vx vy c He) as Hr. rewrite Hadd in Hr.
    cbn [state_of] in Hr.
    pose proof (addPlanet_planets x y vx vy c e) as Hps. rewrite Hadd in Hps.
    cbn [state_of] in Hps.
    set (kept := if PlanetConstants.MAX_COUNT <? S (length (planets e))
                 then tl (planets e) else planets e) in *.
    assert (Hkept : Forall trail_initialized kept).
    { unfold kept. destruct (PlanetConstants.MAX_COUNT <? S (length (planets e)));
        [| exact Hinit].
      destruct (planets e); [constructor |]. inversion Hinit; assumption. }
    split; [apply reach_timer, Hr |].
    unfold timerInitTrail, getPlanetCount. rewrite Hps, nth_error_last.
    cbn [Planet.trailPositions Planet.new planets set_planets].
    rewrite put_at_last. apply Forall_app. split; [exact Hkept |].
    constructor; [| constructor]. unfold trail_initialized, Planet.initTrail.
    cbn [Planet.trailPositions]. discriminate.
Qed.

Lemma settled_engine_never_throws_witness :
  settled orbiting /\
  (exists b e', update 100 100 orbiting = Normal b e' /\ settled e') /\
  (exists e', addPlanet 1 2 0 0 7 orbiting = Normal tt e').
Proof.
  assert (Hs : settled orbiting).
  { split.
    - apply reach_timer, reach_addPlanet, reach_constructor.
    - repeat constructor; discriminate. }
  destruct (settled_engine_never_throws orbiting Hs) as [Hu [_ Ha]].
  split; [exact Hs |]. split; [apply Hu |].
  destruct (Ha 1 2 0 0 7%Z)%float as [e' [Hadd _]]. exists e'. exact Hadd.
Defined.

(** ** A frame of the page *)

(** X12.  A frame of the page.  If the trail clock was last restarted no
    later than [TRAIL_UPDATE_INTERVAL] after the previous drawn frame began,
    and the clock does not run backwards, then a drawn frame samples the
    trails, because [DRAW_INTERVAL] is twice [TRAIL_UPDATE_INTERVAL].  So
    when every planet has its trail the frame runs to its end: [update]
    returns, the removal pass returns, the planets left are those inside the
    bounds and outside the sun, all with their trails, and the counter shows
    their number.  When some planet has no trail, [update] throws: no planet
    is removed and the counter is not refreshed, yet the frame counts as
    drawn and the trail clock has been restarted. *)
Theorem drawn_frame_samples_trails_and_removal_returns :
  forall (currentTime t1 t2 : Z) (now : nat -> Z) (a : App),
    reachable (physicsEngine a) ->
    (lastTrailUpdateTime (physicsEngine a)
     <= lastDrawTime a + RenderConstants.TRAIL_UPDATE_INTERVAL)%Z ->
    (RenderConstants.DRAW_INTERVAL < currentTime - lastDrawTime a)%Z ->
    (currentTime <= t1)%Z ->
    trails_due t1 (physicsEngine a) = true /\
    (Forall trail_initialized (planets (physicsEngine a)) ->
     exists a' e1,
       animate currentTime t1 t2 now a = Normal tt a' /\
       update t1 t2 (physicsEngine a) = Normal true e1 /\
       planets (physicsEngine a')
       = filter (survives (maxBoundsX (camera a)) (maxBoundsY (camera a))) (planets e1) /\
       Forall trail_initialized (planets (physicsEngine a')) /\
       planetCountText a' = PlanetCount.text (getPlanetCount (physicsEngine a')) /\
       lastDrawTime a' = currentTime /\
       lastTrailUpdateTime (physicsEngine a') = t1) /\
    (Exists (fun p => Planet.trailPositions p = None) (planets (physicsEngine a)) ->
     exists a',
       animate currentTime t1 t2 now a = TypeError a' /\
       update t1 t2 (physicsEngine a) = TypeError (physicsEngine a') /\
       getPlanetCount (physicsEngine a') = getPlanetCount (physicsEngine a) /\
       planetCountText a' = planetCountText a /\
       lastDrawTime a' = currentTime /\
       lastTrailUpdateTime (physicsEngine a') = t1).
Proof.
  intros currentTime t1 t2 now a He Hfresh Hdraw Hclock.
  unfold RenderConstants.DRAW_INTERVAL, RenderConstants.TRAIL_UPDATE_INTERVAL in *.
  assert (Hdue : trails_due t1 (physicsEngine a) = true).
  { unfold trails_due, RenderConstants.TRAIL_UPDATE_INTERVAL. apply Z.ltb_lt. lia. }
  assert (Hframe : (RenderConstants.DRAW_INTERVAL <? currentTime - lastDrawTime a)%Z = true).
  { unfold RenderConstants.DRAW_INTERVAL. apply Z.ltb_lt. lia. }
  split; [exact Hdue |].
  split.
  - intros Hinit.
    destruct (update_due t1 t2 (physicsEngine a) He Hdue Hinit) as [e1 [Hu [_ Hl]]].
    pose proof (update_sampled_initialized t1 t2 _ _ Hu) as Hinit1.
    destruct (removeOutOfBoundsPlanets_spec now (maxBoundsX (camera a))
                (maxBoundsY (camera a)) e1) as [e2 [Hrun [Hps [_ Hl2]]]].
    { apply initialized_releasable, Hinit1. }
    unfold animate. rewrite Hframe. cbn [physicsEngine camera]. rewrite Hu, Hrun.
    eexists; exists e1. split; [reflexivity |]. split; [reflexivity |].
    cbn [updatePlanetCount physicsEngine planetCountText lastDrawTime camera].
    split; [exact Hps |]. split.
    + rewrite Hps. apply Forall_forall. intros p Hp. apply filter_In in Hp as [Hp _].
      rewrite Forall_forall in Hinit1. apply Hinit1, Hp.
    + split; [reflexivity |]. split; [reflexivity |]. congruence.
  - intros Hex.
    destruct (first_untrailed _ Hex) as [pre [p [post [Hps [Hpre Hp]]]]].
    destruct (reachable_invariant _ He) as [_ Hok].
    destruct (update_thrown t1 t2 (physicsEngine a) pre p post Hok Hdue Hps Hpre Hp)
      as [e1 [ax [ay [Hu [_ Hpl]]]]].
    unfold animate. rewrite Hframe. cbn [physicsEngine camera]. rewrite Hu.
    eexists. split; [reflexivity |].
    cbn [physicsEngine planetCountText lastDrawTime].
    split; [reflexivity |]. split.
    + unfold getPlanetCount. rewrite Hpl, Hps, !length_app, integrated_length.
      rewrite length_app. simpl. lia.
    + split; [reflexivity |]. split; [reflexivity |].
      pose proof (update_lastTrailUpdateTime t1 t2 (physicsEngine a)) as Hl.
      rewrite Hu in Hl. cbn [state_of] in Hl. rewrite Hl.
      unfold shouldUpdateTrails. unfold trails_due in Hdue. rewrite Hdue. reflexivity.
Qed.

Lemma drawn_frame_samples_trails_and_removal_returns_witness :
  exists a',
    animate 100 100 100 (fun _ => 100%Z) orbitingPage = Normal tt a' /\
    planetCountText a' = PlanetCount.text 1.
Proof.
  assert (Hr : reachable (physicsEngine orbitingPage))
    by (apply reach_timer, reach_addPlanet, reach_constructor).
  assert (Hfresh : (lastTrailUpdateTime (physicsEngine orbitingPage)
                    <= lastDrawTime orbitingPage + RenderConstants.TRAIL_UPDATE_INTERVAL)%Z)
    by (vm_compute; discriminate).
  assert (Hdraw : (RenderConstants.DRAW_INTERVAL < 100 - lastDrawTime orbitingPage)%Z)
    by (vm_compute; reflexivity).
  assert (Hclock : (100 <= 100)%Z) by (vm_compute; discriminate).
  destruct (drawn_frame_samples_trails_and_removal_returns 100 100 100
              (fun _ => 100%Z) orbitingPage Hr Hfresh Hdraw Hclock)
    as [_ [Hok _]].
  destruct Hok as [a' [e1 [Hrun [_ [_ [_ [Htext _]]]]]]].
  { repeat constructor; discriminate. }
  exists a'. split; [exact Hrun |].
  rewrite Htext. vm_compute in Hrun. injection Hrun as <-. reflexivity.
Defined.

(** ** Rounding without underflow

    The counterpart of the bounds above: away from the subnormal range a
    rounded result is not smaller than the exponent of the exact value
    says. *)

Local Open Scope Z_scope.

Lemma Zdigits2_pos_log2 m : 0 < m -> Zdigits2 m = Z.log2 m + 1.
Proof.
  destruct m as [|p|p]; try lia. intros _. unfold Zdigits2. apply digits2_pos_log2.
Qed.

Lemma shiftr_positive m n : 0 < m -> n < Zdigits2 m -> 0 < Z.shiftr m n.
Proof.
  intros Hm Hn. rewrite Zdigits2_pos_log2 in Hn by assumption.
  assert (H0 : 0 <= Z.shiftr m n) by (apply Z.shiftr_nonneg; lia).
  assert (H1 : Z.shiftr m n <> 0).
  { intros H. apply Z.shiftr_eq_0_iff in H as [H | [_ H]]; lia. }
  lia.
Qed.

Section RoundingBelow.

Variables prec emax : Z.
Hypothesis prec_pos : (0 < prec)%Z.

(** A pass of [shr_fexp] on a positive mantissa that is not in the
    subnormal range leaves a positive mantissa. *)
Lemma shr_fexp_positive m e l :
  0 < m ->
  SpecFloat.emin prec emax <= Zdigits2 m + e - prec ->
  0 < shr_m (fst (shr_fexp prec emax m e l)).
Proof.
  intros Hm Hd. unfold shr_fexp, shr.
  assert (Hrec : shr_m (shr_record_of_loc m l) = m).
  { destruct l as [|[]]; reflexivity. }
  remember (fexp prec emax (Zdigits2 m + e)) as f eqn:Hf.
  unfold fexp in Hf.
  destruct (f - e) as [|p|p] eqn:Hn; cbn [fst]; rewrite ?Hrec; try assumption.
  rewrite iter_shr_1_m by (rewrite Hrec; lia). rewrite Hrec.
  apply shiftr_positive; [assumption | lia].
Qed.

(** Away from the subnormal range, rounding a positive mantissa yields an
    infinity or a finite number whose exponent is at least the one the
    format assigns to the exact value. *)
Lemma binary_round_aux_lower s m e l :
  0 < m ->
  SpecFloat.emin prec emax <= Zdigits2 m + e - prec ->
  match binary_round_aux prec emax s m e l with
  | S754_infinity s' => s' = s
  | S754_finite s' _ e'' => s' = s /\ Zdigits2 m + e - prec <= e''
  | _ => False
  end.
Proof.
  intros Hm Hd. unfold binary_round_aux.
  pose proof (shr_fexp_bound prec emax prec_pos m e l ltac:(lia)) as H1. cbv zeta in H1.
  pose proof (shr_fexp_positive m e l Hm Hd) as H1p.
  destruct (shr_fexp prec emax m e l) as [mrs1 e1]. cbn [fst snd] in H1, H1p.
  destruct H1 as [_ [H1d H1e]].
  set (m1 := round_nearest_even (shr_m mrs1) (loc_of_shr_record mrs1)).
  pose proof (round_nearest_even_bound (shr_m mrs1) (loc_of_shr_record mrs1)) as Hr.
  fold m1 in Hr.
  assert (Hm1 : 0 < m1) by lia.
  assert (Hd1 : Zdigits2 m1 <= prec + 1).
  { pose proof (Zdigits2_le m1 (shr_m mrs1 + 1) ltac:(lia)).
    pose proof (Zdigits2_succ (shr_m mrs1) ltac:(lia)). lia. }
  assert (He1 : Zdigits2 m + e - prec <= e1 /\ SpecFloat.emin prec emax <= e1).
  { rewrite H1e. unfold fexp. lia. }
  pose proof (shr_fexp_bound prec emax prec_pos m1 e1 loc_Exact ltac:(lia)) as H2.
  cbv zeta in H2.
  assert (H2p : 0 < shr_m (fst (shr_fexp prec emax m1 e1 loc_Exact))).
  { unfold shr_fexp, shr. cbn [shr_record_of_loc].
    remember (fexp prec emax (Zdigits2 m1 + e1)) as f eqn:Hf. unfold fexp in Hf.
    destruct (f - e1) as [|p|p] eqn:Hn; cbn [fst shr_m]; try assumption.
    rewrite iter_shr_1_m by (cbn [shr_m]; lia). cbn [shr_m].
    apply shiftr_positive; [assumption | lia]. }
  destruct (shr_fexp prec emax m1 e1 loc_Exact) as [mrs2 e2]. cbn [fst snd] in H2, H2p.
  destruct H2 as [_ [_ H2e]].
  destruct (shr_m mrs2) as [|q|q]; try lia.
  destruct (e2 <=? emax - prec); [| reflexivity].
  split; [reflexivity |]. rewrite H2e. lia.
Qed.

End RoundingBelow.

Lemma shl_align_digits mx ex ex' :
  Zdigits2 (Zpos (fst (shl_align mx ex ex'))) + snd (shl_align mx ex ex')
  = Zdigits2 (Zpos mx) + ex /\
  Zpos mx <= Zpos (fst (shl_align mx ex ex')) /\
  snd (shl_align mx ex ex') = Z.min ex ex'.
Proof.
  unfold shl_align. destruct (ex' - ex) as [|d|d] eqn:Hd; cbn [fst snd]; try lia.
  assert (Hs : Zpos (Pos.iter xO mx d) = Z.shiftl (Zpos mx) (Zpos d)).
  { cbn [Z.shiftl].
    apply (Pos.iter_swap_gen _ _ Zpos xO (Z.mul 2)). reflexivity. }
  rewrite Hs, Zdigits2_shiftl by lia.
  split; [lia |]. split; [| lia].
  rewrite Z.shiftl_mul_pow2 by lia.
  assert (0 < 2 ^ Zpos d) by (apply Z.pow_pos_nonneg; lia). nia.
Qed.

Lemma valid_normal s m e :
  SpecFloat.valid_binary prec emax (S754_finite s m e) = true ->
  SpecFloat.emin prec emax < e ->
  Zdigits2 (Zpos m) = prec.
Proof.
  unfold SpecFloat.valid_binary, bounded, canonical_mantissa, fexp, Zdigits2.
  intros H He. apply andb_true_iff in H as [Hc _]. apply Z.eqb_eq in Hc.
  unfold SpecFloat.emin, prec, emax in *. lia.
Qed.

Lemma Zdigits2_mul_below p q :
  Zdigits2 (Zpos p) + Zdigits2 (Zpos q) - 1 <= Zdigits2 (Zpos (p * q)).
Proof.
  unfold Zdigits2. rewrite !digits2_pos_log2. rewrite Pos2Z.inj_mul.
  assert (Z.log2 (Zpos p) + Z.log2 (Zpos q) <= Z.log2 (Zpos p * Zpos q))
    by (apply Z.log2_mul_below; lia).
  lia.
Qed.

(** The square of a normal number: no smaller than its exponent says. *)
Lemma SFmul_square_at_least s m e :
  SpecFloat.valid_binary prec emax (S754_finite s m e) = true ->
  SpecFloat.emin prec emax < e ->
  SpecFloat.emin prec emax <= 2 * e + prec - 1 ->
  sf_at_least (2 * e + prec - 1)
              (SFmul prec emax (S754_finite s m e) (S754_finite s m e)).
Proof.
  intros Hv He Hu. pose proof (valid_normal s m e Hv He) as Hd.
  pose proof (Zdigits2_mul_below m m) as Hmul.
  unfold SFmul.
  pose proof (binary_round_aux_lower prec emax ltac:(reflexivity)
                (xorb s s) (Zpos (m * m)) (e + e) loc_Exact ltac:(lia)) as H.
  specialize (H ltac:(lia)).
  destruct (binary_round_aux prec emax (xorb s s) (Zpos (m * m)) (e + e) loc_Exact)
    as [?|s'| |s' m' e']; cbn [sf_at_least]; try contradiction.
  - rewrite H. destruct s; reflexivity.
  - destruct H as [-> H]. split; [destruct s; reflexivity | lia].
Qed.

Lemma binary_round_at_least q ez E :
  SpecFloat.emin prec emax <= E ->
  E <= Zdigits2 (Zpos q) + ez - prec ->
  sf_at_least E (binary_round prec emax false q ez).
Proof.
  intros HE Hd. unfold binary_round.
  pose proof (shl_align_digits q ez (fexp prec emax (Zpos (digits2_pos q) + ez)))
    as [Hdig _].
  destruct (shl_align q ez (fexp prec emax (Zpos (digits2_pos q) + ez))) as [mz ez'].
  cbn [fst snd] in Hdig.
  pose proof (binary_round_aux_lower prec emax ltac:(reflexivity)
                false (Zpos mz) ez' loc_Exact ltac:(lia)) as H.
  specialize (H ltac:(lia)).
  destruct (binary_round_aux prec emax false (Zpos mz) ez' loc_Exact)
    as [?|s'| |s' m' e']; cbn [sf_at_least]; try contradiction.
  - exact H.
  - destruct H as [-> H]. split; [reflexivity | lia].
Qed.

(** Adding a number that is not negative to a number that is at least
    [2 ^ (E + 52)] gives a number that is at least that, on either side. *)
Lemma SFadd_at_least x y E :
  SpecFloat.valid_binary prec emax y = true ->
  sf_sign_is false x ->
  sf_at_least E y ->
  SpecFloat.emin prec emax < E ->
  sf_at_least E (SFadd prec emax x y) /\ sf_at_least E (SFadd prec emax y x).
Proof.
  intros Hvy Hx Hy HE.
  destruct y as [sy|sy| |sy my ey]; simpl in Hy; try contradiction.
  - subst sy. destruct x as [sx|sx| |sx mx ex]; simpl in Hx; subst; simpl; auto.
  - destruct x as [sx|sx| |sx mx ex]; simpl; auto.
  - destruct Hy as [-> Hey].
    pose proof (valid_normal false my ey Hvy ltac:(lia)) as Hdy.
    destruct x as [sx|sx| |sx mx ex]; simpl in Hx; subst; try (simpl; auto; fail).
    unfold SFadd. cbn [cond_Zopp].
    split.
    + pose proof (shl_align_digits mx ex (Z.min ex ey)) as [_ [Hxpos _]].
      pose proof (shl_align_digits my ey (Z.min ex ey)) as [Hydig [_ Hyexp]].
      set (ax := fst (shl_align mx ex (Z.min ex ey))) in *.
      set (ay := fst (shl_align my ey (Z.min ex ey))) in *.
      change (Zpos ax + Zpos ay) with (Zpos (ax + ay)).
      cbn [binary_normalize].
      apply binary_round_at_least; [lia |].
      change (IntDef.Z.min ex ey) with (Z.min ex ey).
      pose proof (Zdigits2_le (Zpos ay) (Zpos (ax + ay)) ltac:(lia)). lia.
    + pose proof (shl_align_digits mx ex (Z.min ey ex)) as [_ [Hxpos _]].
      pose proof (shl_align_digits my ey (Z.min ey ex)) as [Hydig [_ Hyexp]].
      set (ax := fst (shl_align mx ex (Z.min ey ex))) in *.
      set (ay := fst (shl_align my ey (Z.min ey ex))) in *.
      change (Zpos ay + Zpos ax) with (Zpos (ay + ax)).
      cbn [binary_normalize].
      apply binary_round_at_least; [lia |].
      change (IntDef.Z.min ey ex) with (Z.min ey ex).
      pose proof (Zdigits2_le (Zpos ay) (Zpos (ay + ax)) ltac:(lia)). lia.
Qed.

(** A number that is at least [2 ^ (E + 52)] is not below a number of
    smaller magnitude. *)
Lemma SFltb_at_least E x y :
  sf_at_least E x -> sf_magnitude_below E y -> SFltb x (SFabs y) = false.
Proof.
  unfold SFltb.
  destruct x as [sx|sx| |sx mx ex]; simpl; try contradiction; intros Hx;
    destruct y as [sy|sy| |sy my ey]; simpl; try contradiction; intros Hy;
    try reflexivity.
  - subst sx. reflexivity.
  - subst sx. reflexivity.
  - destruct Hx as [-> _]. reflexivity.
  - destruct Hx as [-> Hx].
    assert (C : (ex ?= ey) = Gt) by (apply Z.compare_gt_iff; lia).
    rewrite C. reflexivity.
Qed.

Lemma SFltb_at_least_finite E x s m e :
  sf_at_least E x -> e < E -> SFltb x (S754_finite s m e) = false.
Proof.
  unfold SFltb.
  destruct x as [sx|sx| |sx mx ex]; simpl; try contradiction; intros Hx He;
    try reflexivity.
  - subst sx. destruct s; reflexivity.
  - destruct Hx as [-> Hx]. destruct s; [reflexivity |].
    assert (C : (ex ?= e) = Gt) by (apply Z.compare_gt_iff; lia).
    rewrite C. reflexivity.
Qed.

Lemma sf_at_least_weaken E E' x : E' <= E -> sf_at_least E x -> sf_at_least E' x.
Proof.
  intros HE. destruct x as [?|?| |s m e]; simpl; auto. intros [Hs He]. split; [auto | lia].
Qed.

(** A number whose square, added to another square, stays below 25 has a
    magnitude below 8. *)
Lemma small_sum_of_squares_magnitude (a b : float) :
  (a * a + b * b <? SunConstants.RADIUS * SunConstants.RADIUS)%float = true ->
  sf_magnitude_below (-49) (Prim2SF a) /\ sf_magnitude_below (-49) (Prim2SF b).
Proof.
  intros H.
  destruct (small_sum_of_squares_operands _ _ _ H) as [Hfa Hfb].
  rewrite ltb_spec, add_spec in H.
  change (Prim2SF (SunConstants.RADIUS * SunConstants.RADIUS)%float)
    with (S754_finite false 7036874417766400 (-48)) in H.
  assert (Hbig : forall c d : float,
             (exists s m e, Prim2SF c = S754_finite s m e /\ -49 <= e) ->
             SFltb (SFadd prec emax (Prim2SF (c * c)%float) (Prim2SF (d * d)%float))
                   (S754_finite false 7036874417766400 (-48)) = false /\
             SFltb (SFadd prec emax (Prim2SF (d * d)%float) (Prim2SF (c * c)%float))
                   (S754_finite false 7036874417766400 (-48)) = false).
  { intros c d [s [m [e [Hc He]]]].
    assert (Hcc : sf_at_least (-46) (Prim2SF (c * c)%float)).
    { rewrite mul_spec, Hc.
      apply (sf_at_least_weaken (2 * e + prec - 1)); [unfold prec; lia |].
      pose proof (Prim2SF_valid c) as Hv. rewrite Hc in Hv.
      apply SFmul_square_at_least; [exact Hv | |];
        unfold SpecFloat.emin, prec, emax; lia. }
    assert (Hdd : sf_sign_is false (Prim2SF (d * d)%float)).
    { rewrite mul_spec. apply SFmul_self_nonneg. }
    destruct (SFadd_at_least (Prim2SF (d * d)%float) (Prim2SF (c * c)%float) (-46)
                (Prim2SF_valid _) Hdd Hcc) as [H1 H2].
    { unfold SpecFloat.emin, prec, emax. lia. }
    split; apply (SFltb_at_least_finite (-46)); try assumption; lia. }
  split.
  - destruct (Prim2SF a) as [s|s| |s m e] eqn:Ha; simpl in Hfa |- *;
      try discriminate; [exact I |].
    destruct (Z.lt_ge_cases e (-49)) as [Hlt | Hge]; [exact Hlt | exfalso].
    destruct (Hbig a b) as [H1 _]; [exists s, m, e; split; [exact Ha | exact Hge] |].
    unfold SF64add in H. congruence.
  - destruct (Prim2SF b) as [s|s| |s m e] eqn:Hb; simpl in Hfb |- *;
      try discriminate; [exact I |].
    destruct (Z.lt_ge_cases e (-49)) as [Hlt | Hge]; [exact Hlt | exfalso].
    destruct (Hbig b a) as [_ H2]; [exists s, m, e; split; [exact Hb | exact Hge] |].
    unfold SF64add in H. congruence.
Qed.

(** With bounds of at least 8, a planet inside the sun is inside the
    bounds. *)
Lemma collided_is_within_bounds maxX maxY p :
  sf_at_least (-49) (Prim2SF maxX) -> sf_at_least (-49) (Prim2SF maxY) ->
  Planet.isCollidedWithSun p = true ->
  Planet.isOutOfBounds maxX maxY p = false.
Proof.
  intros HX HY Hsun. unfold Planet.isCollidedWithSun in Hsun.
  destruct (small_sum_of_squares_magnitude _ _ Hsun) as [Hx Hy].
  unfold Planet.isOutOfBounds. rewrite !ltb_spec, !abs_spec.
  rewrite (SFltb_at_least (-49) _ _ HX Hx), (SFltb_at_least (-49) _ _ HY Hy).
  reflexivity.
Qed.

Local Close Scope Z_scope.

(** ** The bounds of the page *)

(** The bounds of the page are at least 20 and 70, whatever the window. *)
Lemma page_bounds_at_least (width height : float) :
  not_negative width -> not_negative height ->
  sf_at_least (-49) (Prim2SF (maxBoundsX (initThreeJS width height))) /\
  sf_at_least (-49) (Prim2SF (maxBoundsY (initThreeJS width height))).
Proof.
  intros Hw Hh. split.
  - unfold maxBoundsX, initThreeJS. cbn [Camera.right].
    rewrite add_spec.
    assert (Hr : sf_sign_is false (Prim2SF (viewSize * (width / height))%float)).
    { rewrite mul_spec, div_spec.
      apply (SFmul_sign false false); [exact eq_refl |].
      apply (SFdiv_sign false false); assumption. }
    assert (Hm : sf_at_least (-49) (Prim2SF RenderConstants.SCREEN_MARGIN)).
    { vm_compute. split; [reflexivity | discriminate]. }
    destruct (SFadd_at_least _ _ (-49)%Z (Prim2SF_valid _) Hr Hm eq_refl) as [H _].
    exact H.
  - vm_compute. split; [reflexivity | discriminate].
Qed.

(** X13.  In the page a planet inside the sun is never out of bounds.  For
    every window size, the bounds that [animate] computes from the camera,
    as [initThreeJS] creates it or as [onWindowResize] leaves it, are at
    least 20 and 70, and a planet inside the sun has coordinates of
    magnitude below 8.  So the removal pass of a frame gives a planet inside
    the sun the collision outcome, never the boundary exit. *)
Theorem sun_collision_is_inside_the_page_bounds :
  forall (width height : float) (camera0 : Camera.t) (p : Planet.t),
    not_negative width ->
    not_negative height ->
    Planet.isCollidedWithSun p = true ->
    let created := initThreeJS width height in
    let resized := onWindowResize width height camera0 in
    Planet.isOutOfBounds (maxBoundsX created) (maxBoundsY created) p = false /\
    outcomeOf (maxBoundsX created) (maxBoundsY created) p = SunCollision /\
    Planet.isOutOfBounds (maxBoundsX resized) (maxBoundsY resized) p = false /\
    outcomeOf (maxBoundsX resized) (maxBoundsY resized) p = SunCollision.
Proof.
  intros width height camera0 p Hw Hh Hsun created resized.
  change resized with created.
  destruct (page_bounds_at_least width height Hw Hh) as [HX HY].
  pose proof (collided_is_within_bounds _ _ p HX HY Hsun) as Hin.
  assert (Ho : outcomeOf (maxBoundsX created) (maxBoundsY created) p = SunCollision)
    by (apply outcomeOf_collision; auto).
  auto.
Qed.

Lemma sun_collision_is_inside_the_page_bounds_witness :
  Planet.isCollidedWithSun (Planet.new 3 0 0 0 2) = true /\
  maxBoundsX (initThreeJS 0 600) = 20%float /\
  Planet.isOutOfBounds (maxBoundsX (initThreeJS 0 600))
                       (maxBoundsY (initThreeJS 0 600)) (Planet.new 3 0 0 0 2)
  = false.
Proof.
  split; [reflexivity |]. split; [reflexivity |].
  apply (sun_collision_is_inside_the_page_bounds 0 600 (initThreeJS 800 600)
           (Planet.new 3 0 0 0 2));
    [exact eq_refl | exact eq_refl | reflexivity].
Defined.

(** ** The input handler *)

(** While the pointer is down, move events only replace the current
    position, by the position of the last of them. *)
Lemma moves_while_down moves : forall h e,
  isPointerDown h = true ->
  dispatchAll (map moveEvent moves) (h, e)
  = (mkInputHandler true (pointerStartX h) (pointerStartY h)
       (fst (last (map screenPoint moves) (pointerCurrentX h, pointerCurrentY h)))
       (snd (last (map screenPoint moves) (pointerCurrentX h, pointerCurrentY h)))
       (startCircle h) (arrowLine h) (arrowHead h), e).
Proof.
  induction moves as [|[[cx cy] r] rest IH]; intros h e Hdown.
  - destruct h; simpl in *. subst. reflexivity.
  - cbn [map moveEvent dispatchAll fold_left dispatch state_of fst snd].
    change (fold_left _ (map moveEvent rest) ?s) with (dispatchAll (map moveEvent rest) s).
    unfold onPointerMove. rewrite Hdown. cbn [negb].
    rewrite IH by reflexivity.
    cbn [pointerStartX pointerStartY pointerCurrentX pointerCurrentY
         startCircle arrowLine arrowHead screenPoint].
    rewrite last_cons. reflexivity.
Qed.

(** X14.  A drag.  After a press and any number of moves no planet has been
    added, the pointer is down and the arrow is shown, whatever the handler
    held before.  The release then calls [addPlanet] once: the planet starts
    at the world position of the press, and its velocity is the offset of
    the last move (of the press itself, without moves) from the press, times
    [SPEED_FACTOR], with the vertical component negated.  If [addPlanet]
    returns, the pointer is up and the arrow is gone; if it throws, the
    handler stays as it was, pointer down and arrow shown. *)
Theorem drag_launches_planet_from_press_position :
  forall (h : InputHandler) (e : PhysicsEngine) (clientX clientY : float)
         (rect0 rectU : Rect.t) (moves : list (float * float * Rect.t))
         (unproject : float -> float -> float * float) (c : Z),
    let x0 := (clientX - Rect.left rect0)%float in
    let y0 := (clientY - Rect.top rect0)%float in
    let released := last (map screenPoint moves) (x0, y0) in
    let vx := ((fst released - x0) * PhysicsConstants.SPEED_FACTOR)%float in
    let vy := ((- (snd released - y0)) * PhysicsConstants.SPEED_FACTOR)%float in
    let world := screenToWorld unproject rectU x0 y0 in
    let s1 := dispatchAll (PointerDown clientX clientY rect0 :: map moveEvent moves)
                          (h, e) in
    snd s1 = e /\
    isPointerDown (fst s1) = true /\
    arrow_matches_pointer (fst s1) /\
    dispatch (PointerUp rectU unproject c) s1
    = match addPlanet (fst world) (snd world) vx vy c e with
      | Normal _ e' =>
          Normal tt (mkInputHandler false x0 y0 (fst released) (snd released)
                                    false false false, e')
      | TypeError e' =>
          TypeError (mkInputHandler true x0 y0 (fst released) (snd released)
                                    true true true, e')
      end /\
    planets (snd (state_of (dispatch (PointerUp rectU unproject c) s1)))
    = (if PlanetConstants.MAX_COUNT <? S (getPlanetCount e)
       then tl (planets e) else planets e)
      ++ [Planet.new (fst world) (snd world) vx vy c].
Proof.
  intros h e clientX clientY rect0 rectU moves unproject c x0 y0 released vx vy world s1.
  assert (Hs1 : s1 = (mkInputHandler true x0 y0 (fst released) (snd released)
                                     true true true, e)).
  { unfold s1. cbn [dispatchAll fold_left dispatch state_of fst snd].
    change (fold_left _ (map moveEvent moves) ?s) with (dispatchAll (map moveEvent moves) s).
    rewrite moves_while_down by reflexivity. reflexivity. }
  rewrite Hs1. cbn [fst snd isPointerDown].
  split; [reflexivity |]. split; [reflexivity |].
  split; [repeat split |].
  assert (Hup : dispatch (PointerUp rectU unproject c)
                  (mkInputHandler true x0 y0 (fst released) (snd released)
                                  true true true, e)
                = match addPlanet (fst world) (snd world) vx vy c e with
                  | Normal _ e' =>
                      Normal tt (mkInputHandler false x0 y0 (fst released) (snd released)
                                                false false false, e')
                  | TypeError e' =>
                      TypeError (mkInputHandler true x0 y0 (fst released) (snd released)
                                                true true true, e')
                  end).
  { cbn [dispatch onPointerUp isPointerDown negb pointerStartX pointerStartY
         pointerCurrentX pointerCurrentY].
    fold world. fold vx. fold vy.
    destruct (addPlanet (fst world) (snd world) vx vy c e) as [[] e'|e']; reflexivity. }
  split; [exact Hup |].
  rewrite Hup. pose proof (addPlanet_planets (fst world) (snd world) vx vy c e) as Hps.
  destruct (addPlanet (fst world) (snd world) vx vy c e) as [[] e'|e'];
    cbn [state_of snd] in *; exact Hps.
Qed.

Lemma createArrowHelper_matches h :
  isPointerDown h = true -> arrow_matches_pointer (createArrowHelper h).
Proof. intros H. unfold arrow_matches_pointer. simpl. rewrite H. auto. Qed.

(** Every handler keeps the arrow in step with the pointer and the engine
    in a reachable state, whether it returns or throws. *)
Lemma dispatch_invariant ev s :
  arrow_matches_pointer (fst s) -> reachable (snd s) ->
  arrow_matches_pointer (fst (state_of (dispatch ev s))) /\
  reachable (snd (state_of (dispatch ev s))).
Proof.
  destruct s as [h e]. cbn [fst snd]. intros Harrow He.
  destruct ev as [cx cy r | cx cy r | r unproject c];
    cbn [dispatch state_of fst snd].
  - split; [| exact He]. apply createArrowHelper_matches. reflexivity.
  - split; [| exact He]. unfold onPointerMove.
    destruct (isPointerDown h) eqn:Hd; cbn [negb]; [| exact Harrow].
    unfold arrow_matches_pointer in *.
    cbn [startCircle arrowLine arrowHead isPointerDown]. rewrite Hd in Harrow.
    exact Harrow.
  - unfold onPointerUp.
    destruct (isPointerDown h) eqn:Hd; cbn [negb].
    2:{ cbn [state_of fst snd]. auto. }
    set (w := screenToWorld unproject r (pointerStartX h) (pointerStartY h)).
    match goal with
    | |- context [addPlanet ?a ?b ?vx ?vy c e] =>
        pose proof (reach_addPlanet e a b vx vy c He) as Hr;
        destruct (addPlanet a b vx vy c e) as [[] e'|e']
    end; cbn [state_of fst snd] in *.
    + split; [| exact Hr]. unfold arrow_matches_pointer. simpl. auto.
    + auto.
Qed.

(** X15.  Whatever sequence of pointer events a new handler receives, and
    whether its calls of [addPlanet] return or throw, the arrow objects
    exist exactly when the pointer is down, and the engine stays in a
    reachable state, with at most [MAX_COUNT] planets. *)
Theorem pointer_events_keep_arrow_and_engine_consistent :
  forall (evs : list PointerEvent) (e : PhysicsEngine),
    reachable e ->
    let s := dispatchAll evs (newInputHandler, e) in
    arrow_matches_pointer (fst s) /\
    reachable (snd s) /\
    getPlanetCount (snd s) <= PlanetConstants.MAX_COUNT.
Proof.
  intros evs e He s.
  assert (H : arrow_matches_pointer (fst s) /\ reachable (snd s)).
  { unfold s, dispatchAll.
    assert (H0 : arrow_matches_pointer (fst (newInputHandler, e)) /\
                 reachable (snd (newInputHandler, e))).
    { split; [repeat split | exact He]. }
    revert H0. generalize (newInputHandler, e) as s0.
    induction evs as [|ev rest IH]; intros s0 [Ha Hr]; [auto |].
    cbn [fold_left]. apply IH. apply dispatch_invariant; assumption. }
  destruct H as [Ha Hr]. split; [exact Ha |]. split; [exact Hr |].
  apply (reachable_invariant _ Hr).
Qed.

Lemma pointer_events_keep_arrow_and_engine_consistent_witness :
  arrow_matches_pointer
    (fst (dispatchAll [PointerDown 410 310 container; PointerMove 420 300 container]
                      (newInputHandler, constructor))) /\
  getPlanetCount
    (snd (dispatchAll [PointerDown 410 310 container; PointerMove 420 300 container]
                      (newInputHandler, constructor))) <= 10.
Proof.
  destruct (pointer_events_keep_arrow_and_engine_consistent
              [PointerDown 410 310 container; PointerMove 420 300 container]
              constructor reach_constructor) as [Ha [_ Hn]].
  split; [exact Ha | exact Hn].
Defined.

Lemma is_finite_Prim2SF (a : float) :
  is_finite a = true -> sf_finite (Prim2SF a) = true.
Proof.
  unfold is_finite. intros H. apply negb_true_iff, orb_false_iff in H as [Hn Hi].
  unfold is_infinity in Hi. rewrite FloatAxioms.eqb_spec, abs_spec in Hi.
  destruct (Prim2SF a) as [s|s| |s m e] eqn:Ha; try reflexivity.
  - destruct s; discriminate Hi.
  - apply is_nan_Prim2SF in Ha. congruence.
Qed.

(** A finite number minus itself is [+0]. *)
Lemma float_sub_self (a : float) : is_finite a = true -> (a - a)%float = 0%float.
Proof.
  intros H. apply is_finite_Prim2SF in H.
  apply Prim2SF_inj. rewrite sub_spec.
  change (Prim2SF 0) with (S754_zero false).
  destruct (Prim2SF a) as [s|s| |s m e]; try discriminate H.
  - destruct s; reflexivity.
  - unfold SF64sub, SFsub.
    rewrite Z.sub_diag. reflexivity.
Qed.

(** X16.  A click without a move launches a planet at rest: when the press
    position is finite, the velocity handed to [addPlanet] is ([+0],
    [-0]). *)
Theorem click_without_drag_launches_planet_at_rest :
  forall (h : InputHandler) (e : PhysicsEngine) (clientX clientY : float)
         (rect0 rectU : Rect.t) (unproject : float -> float -> float * float) (c : Z),
    let x0 := (clientX - Rect.left rect0)%float in
    let y0 := (clientY - Rect.top rect0)%float in
    let world := screenToWorld unproject rectU x0 y0 in
    is_finite x0 = true ->
    is_finite y0 = true ->
    planets (snd (dispatchAll [PointerDown clientX clientY rect0;
                               PointerUp rectU unproject c] (h, e)))
    = (if PlanetConstants.MAX_COUNT <? S (getPlanetCount e)
       then tl (planets e) else planets e)
      ++ [Planet.new (fst world) (snd world) 0 (-0) c].
Proof.
  intros h e clientX clientY rect0 rectU unproject c x0 y0 world Hx Hy.
  cbn [dispatchAll fold_left dispatch state_of fst snd onPointerDown createArrowHelper
       removeArrowHelper onPointerUp isPointerDown negb pointerStartX pointerStartY
       pointerCurrentX pointerCurrentY].
  fold x0. fold y0. fold world.
  rewrite (float_sub_self x0 Hx), (float_sub_self y0 Hy).
  change (0 * PhysicsConstants.SPEED_FACTOR)%float with 0%float.
  change ((- 0) * PhysicsConstants.SPEED_FACTOR)%float with (-0)%float.
  pose proof (addPlanet_planets (fst world) (snd world) 0 (-0) c e) as Hps.
  destruct (addPlanet (fst world) (snd world) 0 (-0) c e) as [[] e'|e'];
    cbn [state_of snd] in *; exact Hps.
Qed.

Lemma click_without_drag_launches_planet_at_rest_witness :
  map (fun p => (Planet.vx p, Planet.vy p))
      (planets (snd (dispatchAll
                       [PointerDown 410 310 container;
                        PointerUp container unproject66 7]
                       (newInputHandler, constructor))))
  = [(0, -0)%float].
Proof.
  rewrite (click_without_drag_launches_planet_at_rest newInputHandler constructor
             410 310 container container unproject66 7 eq_refl eq_refl).
  reflexivity.
Defined.

(** ** Finite accelerations

    The counterpart of the defect at the origin: away from the sun radius,
    and for every pair of planets, the accelerations are finite.  The
    argument follows the exponents: the distance is at least 1 (the floor,
    or the sun radius) and not smaller than either component of the
    separation, so the divisors are bounded away from zero and the quotient
    stays in range. *)

Local Open Scope Z_scope.

Lemma sf_positive_from_intro E x :
  sf_at_least E x -> x <> S754_nan -> sf_positive_from E x.
Proof. destruct x; simpl; auto. Qed.

Lemma sf_positive_from_weaken E E' x :
  E' <= E -> sf_positive_from E x -> sf_positive_from E' x.
Proof.
  intros HE. destruct x as [?|?| |s m e]; simpl; auto. intros [Hs He]. split; [auto | lia].
Qed.

Lemma sf_bounded_weaken E E' x : E <= E' -> sf_bounded E x -> sf_bounded E' x.
Proof. intros HE. destruct x as [?|?| |s m e]; simpl; auto. lia. Qed.

Lemma Zdigits2_sqrt n : 0 < n -> (Zdigits2 n + 1) / 2 <= Zdigits2 (Z.sqrt n).
Proof.
  intros Hn.
  assert (Hs : 0 < Z.sqrt n) by (apply Z.sqrt_pos; assumption).
  rewrite !Zdigits2_pos_log2 by assumption.
  set (k := Z.log2 n).
  assert (Hk : 0 <= k) by apply Z.log2_nonneg.
  assert (Hpow : 2 ^ (k / 2) <= Z.sqrt n).
  { assert (Hh : 0 <= k / 2) by (apply Z.div_pos; lia).
    apply Z.sqrt_le_square; [lia | apply Z.pow_nonneg; lia |].
    rewrite <- Z.pow_add_r by assumption.
    pose proof (Z.log2_spec n Hn) as [Hlo _]. fold k in Hlo.
    pose proof (Z.mul_div_le k 2 ltac:(lia)) as Hhalf.
    assert (2 ^ (k / 2 + k / 2) <= 2 ^ k).
    { apply Z.pow_le_mono_r; [lia |]. clear - Hhalf. lia. }
    lia. }
  apply Z.log2_le_pow2 in Hpow; [| assumption].
  replace (k + 1 + 1) with (k + 1 * 2) by lia. rewrite Z.div_add by lia. lia.
Qed.

Lemma binary_round_aux_number s m e l :
  0 <= m -> binary_round_aux prec emax s m e l <> S754_nan.
Proof.
  intros Hm. unfold binary_round_aux.
  pose proof (shr_fexp_bound prec emax ltac:(reflexivity) m e l Hm) as H1. cbv zeta in H1.
  destruct (shr_fexp prec emax m e l) as [mrs1 e1]. cbn [fst snd] in H1.
  destruct H1 as [H1m _].
  pose proof (round_nearest_even_bound (shr_m mrs1) (loc_of_shr_record mrs1)) as Hr.
  pose proof (shr_fexp_bound prec emax ltac:(reflexivity)
                (round_nearest_even (shr_m mrs1) (loc_of_shr_record mrs1)) e1 loc_Exact
                ltac:(lia)) as H2.
  cbv zeta in H2.
  destruct (shr_fexp prec emax _ e1 loc_Exact) as [mrs2 e2]. cbn [fst snd] in H2.
  destruct H2 as [H2m _].
  destruct (shr_m mrs2); try discriminate; [| lia].
  destruct (e2 <=? emax - prec); discriminate.
Qed.

(** The square root of a number that is at least [2 ^ (E + 52)]. *)
Lemma SFsqrt_from x E :
  SpecFloat.valid_binary prec emax x = true ->
  sf_positive_from E x ->
  SpecFloat.emin prec emax < E ->
  sf_positive_from ((E + prec + 1) / 2 - prec) (SFsqrt prec emax x).
Proof.
  intros Hv Hx HE.
  destruct x as [s|s| |s m e]; simpl in Hx; try contradiction.
  - subst s. exact eq_refl.
  - destruct Hx as [-> He].
    pose proof (valid_normal false m e Hv ltac:(lia)) as Hd.
    unfold SFsqrt, SFsqrt_core_binary.
    change IntDef.Z.min with Z.min. change IntDef.Z.div2 with Z.div2.
    change IntDef.Z.shiftl with Z.shiftl. change IntDef.Z.sqrtrem with Z.sqrtrem.
    rewrite Hd.
    set (e' := Z.min (fexp prec emax (Z.div2 (prec + e + 1))) (Z.div2 e)).
    assert (He' : 2 * e' <= e).
    { pose proof (Z.le_min_r (fexp prec emax (Z.div2 (prec + e + 1))) (Z.div2 e)) as Hmin.
      fold e' in Hmin. rewrite Z.div2_div in Hmin.
      pose proof (Z.mul_div_le e 2 ltac:(lia)) as Hhalf.
      clearbody e'. clear - Hmin Hhalf. lia. }
    set (s := e - 2 * e').
    assert (Hs : 0 <= s) by (unfold s; lia).
    set (m' := match s with
               | 0 => Zpos m
               | Zpos _ => Z.shiftl (Zpos m) s
               | Zneg _ => 0
               end).
    assert (Hm' : 0 < m' /\ Zdigits2 m' = prec + s).
    { unfold m'. clearbody s. destruct s as [|p|p]; [lia | | lia].
      rewrite Zdigits2_shiftl by lia. split; [| lia].
      rewrite Z.shiftl_mul_pow2 by lia.
      apply Z.mul_pos_pos; [lia | apply Z.pow_pos_nonneg; lia]. }
    destruct Hm' as [Hm0 Hmd].
    pose proof (Z.sqrtrem_sqrt m') as Hq.
    destruct (Z.sqrtrem m') as [q r]. cbn [fst] in Hq. subst q.
    pose proof (Zdigits2_sqrt m' Hm0) as Hdq.
    assert (Hq0 : 0 < Z.sqrt m') by (apply Z.sqrt_pos; assumption).
    set (l := if r =? 0 then loc_Exact else loc_Inexact (if r <=? Z.sqrt m' then Lt else Gt)).
    assert (Hexp : (e + prec + 1) / 2 - prec <= Zdigits2 (Z.sqrt m') + e' - prec).
    { rewrite Hmd in Hdq. unfold s in Hdq.
      assert ((prec + (e - 2 * e') + 1) / 2 = (e + prec + 1) / 2 - e').
      { replace (prec + (e - 2 * e') + 1) with ((e + prec + 1) + (- e') * 2) by lia.
        rewrite Z.div_add by lia. lia. }
      lia. }
    assert (Hmono : (E + prec + 1) / 2 <= (e + prec + 1) / 2)
      by (apply Z.div_le_mono; lia).
    pose proof (binary_round_aux_lower prec emax ltac:(reflexivity)
                  false (Z.sqrt m') e' l Hq0) as H.
    assert (Hemin : SpecFloat.emin prec emax <= (E + prec + 1) / 2 - prec).
    { assert ((SpecFloat.emin prec emax + prec + 1) / 2 <= (E + prec + 1) / 2)
        by (apply Z.div_le_mono; lia).
      revert H0. unfold SpecFloat.emin, prec, emax.
      change ((3 - 1024 - 53 + 53 + 1) / 2) with (-510). lia. }
    specialize (H ltac:(lia)).
    destruct (binary_round_aux prec emax false (Z.sqrt m') e' l)
      as [?|s'| |s' m'' e'']; cbn [sf_positive_from]; try contradiction.
    + exact H.
    + destruct H as [-> H]. split; [reflexivity | lia].
Qed.

(** The product of two numbers that are at least [2 ^ (Ex + 52)] and
    [2 ^ (Ey + 52)]. *)
Lemma SFmul_from x y Ex Ey :
  SpecFloat.valid_binary prec emax x = true ->
  SpecFloat.valid_binary prec emax y = true ->
  sf_positive_from Ex x -> sf_positive_from Ey y ->
  SpecFloat.emin prec emax < Ex -> SpecFloat.emin prec emax < Ey ->
  SpecFloat.emin prec emax <= Ex + Ey + prec - 1 ->
  sf_positive_from (Ex + Ey + prec - 1) (SFmul prec emax x y).
Proof.
  intros Hvx Hvy Hx Hy HEx HEy Hu.
  destruct x as [sx|sx| |sx mx ex]; simpl in Hx; try contradiction;
    destruct y as [sy|sy| |sy my ey]; simpl in Hy; try contradiction.
  - subst. exact eq_refl.
  - destruct Hy as [-> _]. subst. exact eq_refl.
  - destruct Hx as [-> _]. subst. exact eq_refl.
  - destruct Hx as [-> Hex], Hy as [-> Hey].
    pose proof (valid_normal false mx ex Hvx ltac:(lia)) as Hdx.
    pose proof (valid_normal false my ey Hvy ltac:(lia)) as Hdy.
    pose proof (Zdigits2_mul_below mx my) as Hmul.
    unfold SFmul.
    pose proof (binary_round_aux_lower prec emax ltac:(reflexivity)
                  (xorb false false) (Zpos (mx * my)) (ex + ey) loc_Exact ltac:(lia)) as H.
    specialize (H ltac:(lia)).
    destruct (binary_round_aux prec emax (xorb false false) (Zpos (mx * my)) (ex + ey)
                loc_Exact) as [?|s'| |s' m' e']; cbn [sf_positive_from]; try contradiction.
    + exact H.
    + destruct H as [-> H]. split; [reflexivity | lia].
Qed.

(** A quotient by a number that is at least [2 ^ (L + 52)]. *)
Lemma SFdiv_by_from x y Ex L :
  SpecFloat.valid_binary prec emax x = true ->
  sf_bounded Ex x ->
  sf_positive_from L y ->
  Z.max (Ex - L) (SpecFloat.emin prec emax) + 1 <= emax - prec ->
  sf_bounded (Z.max (Ex - L) (SpecFloat.emin prec emax) + 1) (SFdiv prec emax x y).
Proof.
  intros Hvx Hx Hy HB.
  destruct y as [sy|sy| |sy my ey]; simpl in Hy; try contradiction.
  - destruct x as [sx|sx| |sx mx ex]; simpl in Hx; try contradiction; exact I.
  - destruct Hy as [_ Hey].
    apply (sf_bounded_weaken (Z.max (Ex - ey) (SpecFloat.emin prec emax) + 1)); [lia |].
    apply SFdiv_bounded; [assumption | assumption | lia].
Qed.

(** A number that is not negative, not NaN and not below a positive
    constant is at least that constant. *)
Lemma SFltb_false_from x m e :
  sf_sign_is false x -> x <> S754_nan ->
  SFltb x (S754_finite false m e) = false ->
  sf_positive_from e x.
Proof.
  unfold SFltb.
  destruct x as [s|s| |s mx ex]; simpl; intros Hs Hn H; try congruence.
  subst s. split; [reflexivity |].
  destruct (ex ?= e) eqn:C; try discriminate.
  - apply Z.compare_eq in C. lia.
  - apply Z.compare_gt_iff in C. lia.
Qed.

(** Sums of squares are not NaN unless an operand is. *)
Lemma SFmul_self_number x : x <> S754_nan -> SFmul prec emax x x <> S754_nan.
Proof.
  destruct x as [s|s| |s m e]; simpl; intros Hn; try congruence; try discriminate.
  apply binary_round_aux_number. lia.
Qed.

Lemma binary_normalize_number m e z : binary_normalize prec emax m e z <> S754_nan.
Proof.
  destruct m; simpl; try discriminate; unfold binary_round;
    destruct (shl_align _ _ _); apply binary_round_aux_number; lia.
Qed.

Lemma SFadd_number x y :
  sf_sign_is false x -> sf_sign_is false y ->
  x <> S754_nan -> y <> S754_nan -> SFadd prec emax x y <> S754_nan.
Proof.
  destruct x as [sx|sx| |sx mx ex]; simpl; intros Hx Hy Hnx Hny; try congruence;
    destruct y as [sy|sy| |sy my ey]; simpl in Hy; try congruence; subst;
    try discriminate.
  apply binary_normalize_number.
Qed.

Lemma SFsub_finite_number x y :
  sf_finite x = true -> sf_finite y = true -> SFsub prec emax x y <> S754_nan.
Proof.
  destruct x as [sx|sx| |sx mx ex]; simpl; intros Hx Hy; try discriminate;
    destruct y as [sy|sy| |sy my ey]; simpl in Hy; try discriminate.
  - destruct sx, sy; discriminate.
  - apply binary_normalize_number.
Qed.

Lemma sum_of_squares_number a b :
  a <> S754_nan -> b <> S754_nan ->
  SFadd prec emax (SFmul prec emax a a) (SFmul prec emax b b) <> S754_nan.
Proof.
  intros Ha Hb. apply SFadd_number; try apply SFmul_self_nonneg;
    apply SFmul_self_number; assumption.
Qed.

Lemma sf_finite_number x : sf_finite x = true -> x <> S754_nan.
Proof. destruct x; simpl; congruence. Qed.

Lemma sf_positive_from_number E x : sf_positive_from E x -> x <> S754_nan.
Proof. destruct x; simpl; try discriminate. contradiction. Qed.

Ltac format_lia := unfold SpecFloat.emin, prec, emax in *; lia.

(** The distance is not smaller than either component: with [r2] the sum
    of the square of [d] and another square, the root of [r2] is at least
    [2 ^ (Er + 52)] for an [Er] that bounds the exponent of [d]. *)
Lemma distance_dominates (d o r2 : float) E0 :
  (r2 = d * d + o * o \/ r2 = o * o + d * d)%float ->
  sf_finite (Prim2SF d) = true ->
  sf_positive_from E0 (Prim2SF r2) ->
  -52 <= E0 <= 971 ->
  exists Er, (E0 + 54) / 2 - 53 <= Er <= 971 /\
    sf_positive_from Er (Prim2SF (sqrt r2)) /\ sf_bounded Er (Prim2SF d).
Proof.
  intros Hr2 Hd Hfrom HE0.
  set (R0 := (E0 + 54) / 2 - 53).
  assert (HR0 : -52 <= R0 <= 971).
  { assert ((-52 + 54) / 2 <= (E0 + 54) / 2) by (apply Z.div_le_mono; lia).
    assert ((E0 + 54) / 2 <= (971 + 54) / 2) by (apply Z.div_le_mono; lia).
    change ((-52 + 54) / 2) with 1 in *. change ((971 + 54) / 2) with 512 in *.
    unfold R0. lia. }
  assert (HR : sf_positive_from R0 (Prim2SF (sqrt r2))).
  { rewrite sqrt_spec.
    pose proof (SFsqrt_from _ E0 (Prim2SF_valid r2) Hfrom ltac:(format_lia)) as H.
    unfold prec in H. replace (E0 + 53 + 1) with (E0 + 54) in H by lia. exact H. }
  destruct (Prim2SF d) as [s|s| |s m ed] eqn:Ed; try discriminate Hd.
  - exists R0. split; [lia |]. split; [exact HR | exact I].
  - pose proof (Prim2SF_valid d) as Hv. rewrite Ed in Hv.
    destruct (valid_digits s m ed Hv) as [_ Hmax].
    destruct (Z.le_gt_cases ed R0) as [Hle | Hgt].
    + exists R0. split; [lia |]. split; [exact HR | exact Hle].
    + exists ed. split; [format_lia |]. split; [| simpl; lia].
      assert (Hsq : sf_at_least (2 * ed + 52) (Prim2SF (d * d)%float)).
      { rewrite mul_spec, Ed.
        apply (sf_at_least_weaken (2 * ed + prec - 1)); [format_lia |].
        apply (SFmul_square_at_least s m ed Hv); format_lia. }
      assert (Hsum : sf_at_least (2 * ed + 52) (Prim2SF r2)).
      { assert (Ho : sf_sign_is false (Prim2SF (o * o)%float))
          by (rewrite mul_spec; apply SFmul_self_nonneg).
        destruct (SFadd_at_least _ _ (2 * ed + 52) (Prim2SF_valid (d * d)%float) Ho Hsq)
          as [H1 H2]; [format_lia |].
        destruct Hr2 as [-> | ->]; rewrite add_spec; assumption. }
      pose proof (sf_positive_from_intro _ _ Hsum (sf_positive_from_number _ _ Hfrom))
        as Hfrom'.
      pose proof (SFsqrt_from _ (2 * ed + 52) (Prim2SF_valid r2) Hfrom' ltac:(format_lia))
        as Hroot.
      rewrite sqrt_spec.
      replace ((2 * ed + 52 + prec + 1) / 2 - prec) with ed in Hroot; [exact Hroot |].
      unfold prec. replace (2 * ed + 52 + 53 + 1) with ((ed + 53) * 2) by lia.
      rewrite Z.div_mul by lia. lia.
Qed.

(** One component of an attraction: the force [c / (r * r * scale)] times
    the component [d], divided by [r * mass], is a finite number of
    magnitude below [2 ^ 40] whenever the distance [r] is at least 1 and
    not smaller than the component. *)
Lemma attraction_component_bounded (c r d : float) Er :
  sf_bounded (-45) (Prim2SF c) ->
  -52 <= Er <= 971 ->
  sf_positive_from Er (Prim2SF r) ->
  sf_bounded Er (Prim2SF d) ->
  sf_bounded (-13)
    (Prim2SF (((c / (r * r * distanceScaleSquared)) * d)
              / (r * PlanetConstants.MASS))%float).
Proof.
  intros Hc HEr Hr Hd.
  assert (Hscale : sf_positive_from 7 (Prim2SF distanceScaleSquared)).
  { vm_compute. split; [reflexivity | discriminate]. }
  assert (Hmass : sf_positive_from (-35) (Prim2SF PlanetConstants.MASS)).
  { vm_compute. split; [reflexivity | discriminate]. }
  assert (Hrr : sf_positive_from (2 * Er + 52) (Prim2SF (r * r)%float)).
  { rewrite mul_spec.
    apply (sf_positive_from_weaken (Er + Er + prec - 1)); [format_lia |].
    apply SFmul_from; try apply Prim2SF_valid; try assumption; format_lia. }
  assert (Hden : sf_positive_from (2 * Er + 111)
                   (Prim2SF (r * r * distanceScaleSquared)%float)).
  { rewrite mul_spec.
    apply (sf_positive_from_weaken ((2 * Er + 52) + 7 + prec - 1)); [format_lia |].
    apply SFmul_from; try apply Prim2SF_valid; try assumption; format_lia. }
  set (Bf := Z.max (-45 - (2 * Er + 111)) (SpecFloat.emin prec emax) + 1).
  assert (Hforce : sf_bounded Bf (Prim2SF (c / (r * r * distanceScaleSquared))%float)).
  { rewrite div_spec. apply SFdiv_by_from; try apply Prim2SF_valid; try assumption.
    format_lia. }
  set (Bp := Z.max (Bf + Er + prec) (SpecFloat.emin prec emax) + 1).
  assert (Hprod : sf_bounded Bp
                    (Prim2SF ((c / (r * r * distanceScaleSquared)) * d)%float)).
  { rewrite mul_spec. apply SFmul_bounded; try apply Prim2SF_valid; try assumption.
    unfold Bf. format_lia. }
  assert (Hrm : sf_positive_from (Er + 17) (Prim2SF (r * PlanetConstants.MASS)%float)).
  { rewrite mul_spec.
    apply (sf_positive_from_weaken (Er + (-35) + prec - 1)); [format_lia |].
    apply SFmul_from; try apply Prim2SF_valid; try assumption; format_lia. }
  apply (sf_bounded_weaken (Z.max (Bp - (Er + 17)) (SpecFloat.emin prec emax) + 1)).
  { unfold Bp, Bf. format_lia. }
  rewrite div_spec. apply SFdiv_by_from; try apply Prim2SF_valid; try assumption.
  unfold Bp, Bf. format_lia.
Qed.

(** A sum of two squares below a positive constant: the operands are
    finite, with exponents bounded by half the one of the constant. *)
Lemma sum_of_squares_below (a b c : float) mc ec K :
  Prim2SF c = S754_finite false mc ec ->
  (a * a + b * b <? c)%float = true ->
  SpecFloat.emin prec emax <= 2 * K + 52 -> ec < 2 * (K + 1) + 52 ->
  sf_bounded K (Prim2SF a) /\ sf_bounded K (Prim2SF b).
Proof.
  intros Hc H HK Hec.
  destruct (small_sum_of_squares_operands _ _ _ H) as [Hfa Hfb].
  rewrite ltb_spec, add_spec, Hc in H. unfold SF64add in H.
  assert (Hbig : forall u v : float,
             (exists s m e, Prim2SF u = S754_finite s m e /\ K < e) ->
             SFltb (SFadd prec emax (Prim2SF (u * u)%float) (Prim2SF (v * v)%float))
                   (S754_finite false mc ec) = false /\
             SFltb (SFadd prec emax (Prim2SF (v * v)%float) (Prim2SF (u * u)%float))
                   (S754_finite false mc ec) = false).
  { intros u v [s [m [e [Hu He]]]].
    assert (Huu : sf_at_least (2 * (K + 1) + 52) (Prim2SF (u * u)%float)).
    { rewrite mul_spec, Hu.
      apply (sf_at_least_weaken (2 * e + prec - 1)); [format_lia |].
      pose proof (Prim2SF_valid u) as Hv. rewrite Hu in Hv.
      apply SFmul_square_at_least; [exact Hv | |]; format_lia. }
    assert (Hvv : sf_sign_is false (Prim2SF (v * v)%float)).
    { rewrite mul_spec. apply SFmul_self_nonneg. }
    destruct (SFadd_at_least (Prim2SF (v * v)%float) (Prim2SF (u * u)%float)
                (2 * (K + 1) + 52) (Prim2SF_valid _) Hvv Huu) as [H1 H2].
    { format_lia. }
    split; apply (SFltb_at_least_finite (2 * (K + 1) + 52)); try assumption; lia. }
  split.
  - destruct (Prim2SF a) as [s|s| |s m e] eqn:Ha; cbn [sf_finite sf_bounded] in Hfa |- *;
      try discriminate; [exact I |].
    destruct (Z.le_gt_cases e K) as [Hle | Hgt]; [exact Hle | exfalso].
    destruct (Hbig a b) as [H1 _]; [exists s, m, e; split; [exact Ha | exact Hgt] |].
    congruence.
  - destruct (Prim2SF b) as [s|s| |s m e] eqn:Hb; cbn [sf_finite sf_bounded] in Hfb |- *;
      try discriminate; [exact I |].
    destruct (Z.le_gt_cases e K) as [Hle | Hgt]; [exact Hle | exfalso].
    destruct (Hbig b a) as [_ H2]; [exists s, m, e; split; [exact Hb | exact Hgt] |].
    congruence.
Qed.

Local Close Scope Z_scope.

Lemma sf_finite_is_finite (a : float) : sf_finite (Prim2SF a) = true -> is_finite a = true.
Proof.
  intros H. apply (is_finite_of_bounded _ (emax - prec)).
  apply valid_finite_bounded; [apply Prim2SF_valid | exact H].
Qed.

Lemma SFadd_finite_operands x y :
  sf_finite (SFadd prec emax x y) = true -> sf_finite x = true /\ sf_finite y = true.
Proof.
  destruct x as [sx|sx| |sx mx ex], y as [sy|sy| |sy my ey]; simpl; auto;
    try discriminate; destruct sx, sy; simpl; auto; discriminate.
Qed.

Lemma SFmul_self_finite x : sf_finite (SFmul prec emax x x) = true -> sf_finite x = true.
Proof.
  destruct (sf_finite x) eqn:Hx; [reflexivity |].
  destruct (SFmul_self_not_finite x Hx) as [-> | ->]; discriminate.
Qed.

(** A number that is not NaN and is not above a finite number is not
    [+infinity]; so a sum of squares within a finite bound has finite
    operands. *)
Lemma sum_of_squares_within (dx dy c : float) :
  sf_finite (Prim2SF c) = true ->
  Prim2SF dx <> S754_nan -> Prim2SF dy <> S754_nan ->
  (c <? dx * dx + dy * dy)%float = false ->
  sf_finite (Prim2SF dx) = true /\ sf_finite (Prim2SF dy) = true.
Proof.
  intros Hc Hx Hy H.
  pose proof (sum_of_squares_number _ _ Hx Hy) as Hn.
  assert (Hs : sf_sign_is false
                 (SFadd prec emax (SFmul prec emax (Prim2SF dx) (Prim2SF dx))
                                  (SFmul prec emax (Prim2SF dy) (Prim2SF dy))))
    by (apply SFadd_nonneg; apply SFmul_self_nonneg).
  rewrite ltb_spec, add_spec, !mul_spec in H. unfold SF64add, SF64mul in H.
  assert (Hf : sf_finite (SFadd prec emax (SFmul prec emax (Prim2SF dx) (Prim2SF dx))
                                          (SFmul prec emax (Prim2SF dy) (Prim2SF dy)))
               = true).
  { destruct (SFadd prec emax _ _) as [s|s| |s m e]; try reflexivity; [| congruence].
    simpl in Hs. subst s.
    destruct (Prim2SF c) as [sc|sc| |sc mc ec]; try discriminate Hc;
      try destruct sc; discriminate H. }
  apply SFadd_finite_operands in Hf as [Hfx Hfy].
  split; apply SFmul_self_finite; assumption.
Qed.

Lemma float_mul_opp_opp (a : float) : (- a * - a = a * a)%float.
Proof.
  apply Prim2SF_inj. rewrite !mul_spec, opp_spec.
  destruct (Prim2SF a) as [s|s| |s m e]; try reflexivity; destruct s; reflexivity.
Qed.

(** ** Finite contributions of the pair loop *)

Lemma pair_components_bounded pi pj :
  finite_position pi -> finite_position pj ->
  (maxDistanceSquared <? separationSquared pi pj)%float = false ->
  sf_bounded (-13) (Prim2SF (fst (pairAcceleration pi pj))) /\
  sf_bounded (-13) (Prim2SF (snd (pairAcceleration pi pj))).
Proof.
  intros [Hxi Hyi] [Hxj Hyj] Hwithin.
  apply is_finite_Prim2SF in Hxi, Hyi, Hxj, Hyj.
  unfold pairAcceleration. cbn [fst snd].
  unfold separationSquared in *.
  set (dx := (Planet.x pj - Planet.x pi)%float) in *.
  set (dy := (Planet.y pj - Planet.y pi)%float) in *.
  assert (Hndx : Prim2SF dx <> S754_nan).
  { unfold dx. rewrite sub_spec. apply SFsub_finite_number; assumption. }
  assert (Hndy : Prim2SF dy <> S754_nan).
  { unfold dy. rewrite sub_spec. apply SFsub_finite_number; assumption. }
  assert (Hmax : sf_finite (Prim2SF maxDistanceSquared) = true) by reflexivity.
  destruct (sum_of_squares_within dx dy _ Hmax Hndx Hndy Hwithin) as [Hfx Hfy].
  assert (Hc : sf_bounded (-45)
                 (Prim2SF (PhysicsConstants.G * PlanetConstants.MASS
                           * PlanetConstants.MASS)%float)).
  { vm_compute. discriminate. }
  unfold effectiveR2, pairForce.
  destruct (dx * dx + dy * dy <? minDistanceSquared)%float eqn:Hfloor.
  - assert (Hone : sf_positive_from (-52) (Prim2SF (sqrt minDistanceSquared))).
    { vm_compute. split; [reflexivity | discriminate]. }
    destruct (sum_of_squares_below dx dy minDistanceSquared
                4503599627370496%positive (-52)%Z (-52)%Z eq_refl Hfloor) as [Hbx Hby];
      [vm_compute; discriminate | reflexivity |].
    split; apply (attraction_component_bounded _ _ _ (-52)%Z); try assumption; lia.
  - assert (Hfrom : sf_positive_from (-52) (Prim2SF (dx * dx + dy * dy)%float)).
    { rewrite ltb_spec in Hfloor.
      change (Prim2SF minDistanceSquared)
        with (S754_finite false 4503599627370496 (-52)) in Hfloor.
      apply (SFltb_false_from _ _ _) in Hfloor; [exact Hfloor | |].
      - rewrite add_spec, !mul_spec. apply SFadd_nonneg; apply SFmul_self_nonneg.
      - rewrite add_spec, !mul_spec. apply sum_of_squares_number; assumption. }
    split.
    + destruct (distance_dominates dx dy _ (-52)%Z (or_introl eq_refl) Hfx Hfrom ltac:(lia))
        as [Er [HEr [Hr Hd]]].
      change ((-52 + 54) / 2 - 53)%Z with (-52)%Z in HEr.
      apply (attraction_component_bounded _ _ _ Er); assumption.
    + destruct (distance_dominates dy dx _ (-52)%Z (or_intror eq_refl) Hfy Hfrom ltac:(lia))
        as [Er [HEr [Hr Hd]]].
      change ((-52 + 54) / 2 - 53)%Z with (-52)%Z in HEr.
      apply (attraction_component_bounded _ _ _ Er); assumption.
Qed.

(** X17.  The pair loop adds only finite contributions.  For two planets at
    finite positions the step either skips the pair, when it is beyond the
    cutoff, or adds to planet [i] and subtracts from planet [j] an
    acceleration whose two components are finite numbers: neither the floor
    branch nor the branch that uses the separation itself divides by zero
    or overflows, whatever the positions. *)
Theorem pair_loop_adds_only_finite_contributions :
  forall (e : PhysicsEngine) (i j : nat) (pi pj : Planet.t) (ax ay : list float),
    nth_error (planets e) i = Some pi ->
    nth_error (planets e) j = Some pj ->
    finite_position pi ->
    finite_position pj ->
    let cx := fst (pairAcceleration pi pj) in
    let cy := snd (pairAcceleration pi pj) in
    if (maxDistanceSquared <? separationSquared pi pj)%float
    then pairStep e i j (ax, ay) = Some (ax, ay)
    else
      is_finite cx = true /\ is_finite cy = true /\
      pairStep e i j (ax, ay)
      = (let ax1 := num_set ax i (num_get ax i + cx)%float in
         let ay1 := num_set ay i (num_get ay i + cy)%float in
         Some (num_set ax1 j (num_get ax1 j - cx)%float,
               num_set ay1 j (num_get ay1 j - cy)%float)).
Proof.
  intros e i j pi pj ax ay Hpi Hpj Hfi Hfj cx cy.
  destruct (maxDistanceSquared <? separationSquared pi pj)%float eqn:Hcut.
  - apply (pairStep_skip e i j pi pj (ax, ay) Hpi Hpj Hcut).
  - destruct (pair_components_bounded pi pj Hfi Hfj Hcut) as [Hx Hy].
    split; [apply (is_finite_of_bounded _ _ Hx) |].
    split; [apply (is_finite_of_bounded _ _ Hy) |].
    apply (pairStep_within e i j pi pj ax ay Hpi Hpj Hcut).
Qed.

Lemma pair_loop_adds_only_finite_contributions_witness :
  is_finite (fst (pairAcceleration (Planet.new 10 0 0 0 1) (Planet.new 13 4 0 0 2)))
  = true /\
  is_finite (snd (pairAcceleration (Planet.new 10 0 0 0 1) (Planet.new 13 4 0 0 2)))
  = true.
Proof.
  pose proof (pair_loop_adds_only_finite_contributions nearPair 0 1
                (Planet.new 10 0 0 0 1) (Planet.new 13 4 0 0 2)
                [0; 0]%float [0; 0]%float eq_refl eq_refl
                (conj eq_refl eq_refl) (conj eq_refl eq_refl)) as H.
  cbv zeta in H.
  change (maxDistanceSquared
            <? separationSquared (Planet.new 10 0 0 0 1) (Planet.new 13 4 0 0 2))%float
    with false in H.
  destruct H as [Hx [Hy _]]. split; [exact Hx | exact Hy].
Defined.

(** ** Finite central acceleration *)

Lemma sun_components_bounded p :
  finite_position p ->
  Planet.isCollidedWithSun p = false ->
  sf_bounded (-13) (Prim2SF (sunAccelerationX p)) /\
  sf_bounded (-13) (Prim2SF (sunAccelerationY p)).
Proof.
  intros [Hx Hy] Hsun.
  apply is_finite_Prim2SF in Hx, Hy.
  unfold Planet.isCollidedWithSun in Hsun.
  unfold sunAccelerationX, sunAccelerationY, sunAcceleration. cbn [fst snd].
  set (dx := (- Planet.x p)%float) in *.
  set (dy := (- Planet.y p)%float) in *.
  assert (Hfx : sf_finite (Prim2SF dx) = true).
  { unfold dx. rewrite opp_spec. destruct (Prim2SF (Planet.x p)); auto. }
  assert (Hfy : sf_finite (Prim2SF dy) = true).
  { unfold dy. rewrite opp_spec. destruct (Prim2SF (Planet.y p)); auto. }
  assert (Hr2 : (dx * dx + dy * dy = Planet.x p * Planet.x p + Planet.y p * Planet.y p)%float).
  { unfold dx, dy. rewrite !float_mul_opp_opp. reflexivity. }
  assert (Hfrom : sf_positive_from (-48) (Prim2SF (dx * dx + dy * dy)%float)).
  { rewrite <- Hr2 in Hsun. rewrite ltb_spec in Hsun.
    change (Prim2SF (SunConstants.RADIUS * SunConstants.RADIUS)%float)
      with (S754_finite false 7036874417766400 (-48)) in Hsun.
    apply (SFltb_false_from _ _ _) in Hsun; [exact Hsun | |].
    - rewrite add_spec, !mul_spec. apply SFadd_nonneg; apply SFmul_self_nonneg.
    - rewrite add_spec, !mul_spec.
      apply sum_of_squares_number; apply sf_finite_number; assumption. }
  assert (Hc : sf_bounded (-45)
                 (Prim2SF (PhysicsConstants.G * PlanetConstants.MASS
                           * SunConstants.MASS)%float)).
  { vm_compute. discriminate. }
  split.
  - destruct (distance_dominates dx dy _ (-48)%Z (or_introl eq_refl) Hfx Hfrom ltac:(lia))
      as [Er [HEr [Hr Hd]]].
    change ((-48 + 54) / 2 - 53)%Z with (-50)%Z in HEr.
    apply (attraction_component_bounded _ _ _ Er); try assumption. lia.
  - destruct (distance_dominates dy dx _ (-48)%Z (or_intror eq_refl) Hfy Hfrom ltac:(lia))
      as [Er [HEr [Hr Hd]]].
    change ((-48 + 54) / 2 - 53)%Z with (-50)%Z in HEr.
    apply (attraction_component_bounded _ _ _ Er); try assumption. lia.
Qed.

(** X18.  Outside the sun the central acceleration is finite.  For a planet
    at a finite position that is not inside the sun radius, both components
    of the acceleration [calculateSunGravity] adds are finite numbers,
    however far away the planet is; the acceleration is NaN or infinite only
    for a planet inside the sun, or at a position that is not finite. *)
Theorem central_acceleration_is_finite_outside_the_sun :
  forall (p : Planet.t),
    finite_position p ->
    Planet.isCollidedWithSun p = false ->
    is_finite (sunAccelerationX p) = true /\
    is_finite (sunAccelerationY p) = true.
Proof.
  intros p Hp Hout.
  destruct (sun_components_bounded p Hp Hout) as [Hx Hy].
  split; [apply (is_finite_of_bounded _ _ Hx) | apply (is_finite_of_bounded _ _ Hy)].
Qed.

Lemma central_acceleration_is_finite_outside_the_sun_witness :
  is_finite (sunAccelerationX farPlanet) = true /\
  is_finite (sunAccelerationY farPlanet) = true.
Proof.
  apply (central_acceleration_is_finite_outside_the_sun farPlanet);
    [split; reflexivity | reflexivity].
Defined.

(** ** No NaN from planets outside the sun *)

Local Open Scope Z_scope.

Lemma Zdigits2_double m : 0 < m -> Zdigits2 (2 * m) = Zdigits2 m + 1.
Proof.
  intros Hm. rewrite <- (Zdigits2_shiftl m 1) by lia.
  rewrite Z.shiftl_mul_pow2 by lia. f_equal. lia.
Qed.

Lemma Zdigits2_sum q a b :
  0 < a -> 0 < b -> Zpos q <= a + b ->
  Zdigits2 (Zpos q) <= Z.max (Zdigits2 a) (Zdigits2 b) + 1.
Proof.
  intros Ha Hb Hq.
  assert (Hmax : Zdigits2 (Z.max a b) <= Z.max (Zdigits2 a) (Zdigits2 b)).
  { destruct (Z.max_spec a b) as [[_ ->] | [_ ->]]; lia. }
  pose proof (Zdigits2_le (Zpos q) (2 * Z.max a b) ltac:(lia)) as Hle.
  rewrite Zdigits2_double in Hle by lia. lia.
Qed.

Lemma binary_round_bounded s q ez :
  Z.max (Zdigits2 (Zpos q) + ez - prec) (SpecFloat.emin prec emax) + 1 <= emax - prec ->
  sf_bounded (Z.max (Zdigits2 (Zpos q) + ez - prec) (SpecFloat.emin prec emax) + 1)
             (binary_round prec emax s q ez).
Proof.
  intros HB. unfold binary_round.
  pose proof (shl_align_digits q ez (fexp prec emax (Zpos (digits2_pos q) + ez)))
    as [Hdig [_ Hexp]].
  destruct (shl_align q ez (fexp prec emax (Zpos (digits2_pos q) + ez))) as [mz ez'].
  cbn [fst snd] in Hdig, Hexp.
  pose proof (binary_round_aux_bound prec emax ltac:(reflexivity)
                s (Zpos mz) ez' loc_Exact ltac:(lia)) as H.
  cbv zeta in H. unfold fexp in H, Hexp.
  change (Zpos (digits2_pos q)) with (Zdigits2 (Zpos q)) in Hexp.
  change IntDef.Z.max with Z.max in *. change IntDef.Z.sub with Z.sub in *.
  assert (Hle : Z.max ez' (Z.max (Zdigits2 (Zpos mz) + ez' - prec)
                                 (SpecFloat.emin prec emax)) + 1
                <= Z.max (Zdigits2 (Zpos q) + ez - prec) (SpecFloat.emin prec emax) + 1)
    by lia.
  specialize (H ltac:(lia)).
  destruct (binary_round_aux prec emax s (Zpos mz) ez' loc_Exact);
    cbn [sf_bounded]; auto. lia.
Qed.

(** A sum of two numbers with exponents of at most [E] has an exponent of
    at most [E + 2]. *)
Lemma SFadd_bounded x y E :
  SpecFloat.valid_binary prec emax x = true ->
  SpecFloat.valid_binary prec emax y = true ->
  sf_bounded E x -> sf_bounded E y ->
  SpecFloat.emin prec emax <= E + 1 -> E + 2 <= emax - prec ->
  sf_bounded (E + 2) (SFadd prec emax x y).
Proof.
  intros Hvx Hvy Hx Hy Hlow Hhigh.
  destruct x as [sx|sx| |sx mx ex]; simpl in Hx; try contradiction;
    destruct y as [sy|sy| |sy my ey]; simpl in Hy; try contradiction.
  - destruct sx, sy; exact I.
  - cbn [SFadd sf_bounded]. lia.
  - cbn [SFadd sf_bounded]. lia.
  - destruct (valid_digits sx mx ex Hvx) as [Hdx _].
    destruct (valid_digits sy my ey Hvy) as [Hdy _].
    unfold SFadd. change (IntDef.Z.min ex ey) with (Z.min ex ey).
    pose proof (shl_align_digits mx ex (Z.min ex ey)) as [Hxd [_ Hxe]].
    pose proof (shl_align_digits my ey (Z.min ex ey)) as [Hyd [_ Hye]].
    set (ax := fst (shl_align mx ex (Z.min ex ey))) in *.
    set (ay := fst (shl_align my ey (Z.min ex ey))) in *.
    set (ez := Z.min ex ey) in *.
    assert (Hez : snd (shl_align mx ex ez) = ez /\ snd (shl_align my ey ez) = ez).
    { unfold ez in *. lia. }
    destruct Hez as [Hez1 Hez2]. rewrite Hez1 in Hxd. rewrite Hez2 in Hyd.
    destruct (cond_Zopp sx (Zpos ax) + cond_Zopp sy (Zpos ay)) as [|q|q] eqn:Hsum;
      cbn [binary_normalize]; [exact I | |].
    + assert (Hq : Zpos q <= Zpos ax + Zpos ay)
        by (destruct sx, sy; cbn [cond_Zopp] in Hsum; lia).
      pose proof (Zdigits2_sum q (Zpos ax) (Zpos ay) ltac:(lia) ltac:(lia) Hq) as Hd.
      apply (sf_bounded_weaken
               (Z.max (Zdigits2 (Zpos q) + ez - prec) (SpecFloat.emin prec emax) + 1));
        [lia |].
      apply binary_round_bounded. lia.
    + assert (Hq : Zpos q <= Zpos ax + Zpos ay)
        by (destruct sx, sy; cbn [cond_Zopp] in Hsum; lia).
      pose proof (Zdigits2_sum q (Zpos ax) (Zpos ay) ltac:(lia) ltac:(lia) Hq) as Hd.
      apply (sf_bounded_weaken
               (Z.max (Zdigits2 (Zpos q) + ez - prec) (SpecFloat.emin prec emax) + 1));
        [lia |].
      apply binary_round_bounded. lia.
Qed.

Lemma SFopp_valid x :
  SpecFloat.valid_binary prec emax (SFopp x) = SpecFloat.valid_binary prec emax x.
Proof. destruct x; reflexivity. Qed.

Lemma SFopp_bounded E x : sf_bounded E x -> sf_bounded E (SFopp x).
Proof. destruct x; simpl; auto. Qed.

Lemma float_add_bounded (a b : float) E :
  sf_bounded E (Prim2SF a) -> sf_bounded E (Prim2SF b) ->
  SpecFloat.emin prec emax <= E + 1 -> E + 2 <= emax - prec ->
  sf_bounded (E + 2) (Prim2SF (a + b)%float).
Proof.
  intros Ha Hb Hlow Hhigh. rewrite add_spec.
  apply SFadd_bounded; try apply Prim2SF_valid; assumption.
Qed.

Lemma float_sub_bounded (a b : float) E :
  sf_bounded E (Prim2SF a) -> sf_bounded E (Prim2SF b) ->
  SpecFloat.emin prec emax <= E + 1 -> E + 2 <= emax - prec ->
  sf_bounded (E + 2) (Prim2SF (a - b)%float).
Proof.
  intros Ha Hb Hlow Hhigh. rewrite sub_spec. unfold SF64sub. rewrite SFsub_add_opp.
  apply SFadd_bounded; try assumption.
  - apply Prim2SF_valid.
  - rewrite SFopp_valid. apply Prim2SF_valid.
  - apply SFopp_bounded. assumption.
Qed.

Local Close Scope Z_scope.

Lemma Forall_num_get (P : float -> Prop) a i :
  Forall P a -> i < length a -> P (num_get a i).
Proof.
  intros Ha Hi. unfold num_get. rewrite Forall_forall in Ha. apply Ha, nth_In, Hi.
Qed.

Lemma Forall_num_set (P : float -> Prop) a :
  forall i v, Forall P a -> P v -> i < length a -> Forall P (num_set a i v).
Proof.
  induction a as [|h t IH]; intros [|i] v Ha Hv Hi; simpl in Hi; try lia;
    inversion Ha; subst; cbn [num_set]; constructor; auto.
  apply IH; [assumption | assumption | lia].
Qed.

Lemma entries_bounded_weaken E E' n acc :
  (E <= E')%Z -> entries_bounded E n acc -> entries_bounded E' n acc.
Proof.
  intros HE [Hlx [Hly [Hx Hy]]]. split; [exact Hlx |]. split; [exact Hly |].
  split; (eapply Forall_impl; [| eassumption]);
    intros v Hv; apply (sf_bounded_weaken E); assumption.
Qed.

(** A pair step raises the bound on the accumulators by at most two
    binades. *)
Lemma pairStep_bounded e i j acc E :
  i < j < length (planets e) ->
  Forall finite_position (planets e) ->
  entries_bounded E (length (planets e)) acc ->
  (-13 <= E)%Z -> (E + 2 <= emax - prec)%Z ->
  exists acc', pairStep e i j acc = Some acc' /\
               entries_bounded (E + 2) (length (planets e)) acc'.
Proof.
  intros Hij Hfin Hacc HE Hhigh.
  destruct (nth_error (planets e) i) as [pi|] eqn:Hpi.
  2:{ apply nth_error_None in Hpi. lia. }
  destruct (nth_error (planets e) j) as [pj|] eqn:Hpj.
  2:{ apply nth_error_None in Hpj. lia. }
  rewrite Forall_forall in Hfin.
  pose proof (Hfin pi (nth_error_In _ _ Hpi)) as Hfi.
  pose proof (Hfin pj (nth_error_In _ _ Hpj)) as Hfj.
  destruct (maxDistanceSquared <? separationSquared pi pj)%float eqn:Hcut.
  - exists acc. split; [apply (pairStep_skip e i j pi pj acc Hpi Hpj Hcut) |].
    apply (entries_bounded_weaken E); [lia | exact Hacc].
  - destruct acc as [ax ay]. destruct Hacc as [Hlx [Hly [Hx Hy]]]. cbn [fst snd] in *.
    rewrite (pairStep_within e i j pi pj ax ay Hpi Hpj Hcut). cbv zeta.
    destruct (pair_components_bounded pi pj Hfi Hfj Hcut) as [Hcx Hcy].
    apply (sf_bounded_weaken _ E) in Hcx; [| lia].
    apply (sf_bounded_weaken _ E) in Hcy; [| lia].
    set (cx := fst (pairAcceleration pi pj)) in *.
    set (cy := snd (pairAcceleration pi pj)) in *.
    assert (Hlow : (SpecFloat.emin prec emax <= E + 1)%Z)
      by (unfold SpecFloat.emin, prec, emax; lia).
    assert (Hweak : forall a, Forall (fun v => sf_bounded E (Prim2SF v)) a ->
                              Forall (fun v => sf_bounded (E + 2) (Prim2SF v)) a).
    { intros a Ha. eapply Forall_impl; [| exact Ha].
      intros v Hv. apply (sf_bounded_weaken E); [lia | exact Hv]. }
    assert (Hne : i <> j) by lia.
    eexists. split; [reflexivity |]. unfold entries_bounded. cbn [fst snd].
    rewrite !num_set_length by (rewrite ?num_set_length; lia).
    split; [exact Hlx |]. split; [exact Hly |].
    rewrite !(num_get_set_other _ i j) by assumption.
    split.
    + apply Forall_num_set; [| | rewrite num_set_length; lia].
      * apply Forall_num_set; [apply Hweak, Hx | | lia].
        apply float_add_bounded; try assumption.
        apply Forall_num_get; [exact Hx | lia].
      * apply float_sub_bounded; try assumption.
        apply Forall_num_get; [exact Hx | lia].
    + apply Forall_num_set; [| | rewrite num_set_length; lia].
      * apply Forall_num_set; [apply Hweak, Hy | | lia].
        apply float_add_bounded; try assumption.
        apply Forall_num_get; [exact Hy | lia].
      * apply float_sub_bounded; try assumption.
        apply Forall_num_get; [exact Hy | lia].
Qed.

(** With at most [MAX_COUNT] planets, all at finite positions, the pair
    loop keeps the accumulators finite. *)
Lemma calculatePlanetGravity_bounded e ax ay :
  length (planets e) <= PlanetConstants.MAX_COUNT ->
  Forall finite_position (planets e) ->
  entries_bounded (-11) (length (planets e)) (ax, ay) ->
  exists acc', calculatePlanetGravity ax ay e = Some acc' /\
               entries_bounded 189 (length (planets e)) acc'.
Proof.
  intros Hn Hfin H0. unfold PlanetConstants.MAX_COUNT in Hn.
  unfold calculatePlanetGravity.
  set (n := length (planets e)) in *.
  assert (Hsq : n * n <= 100) by nia.
  pose (Pout := fun (i : nat) (acc : list float * list float) =>
                  entries_bounded (-11 + 2 * Z.of_nat (i * n)) n acc).
  destruct (@for_up_invariant _ Pout
              (fun i => for_up (S i) (n - S i) (pairStep e i)) n 0 (ax, ay))
    as [acc' [Hrun Hp]].
  - unfold Pout. cbn [Nat.mul]. exact H0.
  - intros i acc Hi Hacc. unfold Pout in Hacc.
    pose (Pin := fun (j : nat) (a : list float * list float) =>
                   entries_bounded (-11 + 2 * Z.of_nat (i * n + j)) n a).
    destruct (@for_up_invariant _ Pin (pairStep e i) (n - S i) (S i) acc)
      as [acc1 [Hrun1 Hp1]].
    + unfold Pin. apply (entries_bounded_weaken (-11 + 2 * Z.of_nat (i * n))); [lia |].
      exact Hacc.
    + intros j a Hj Ha. unfold Pin in Ha.
      assert (Hlt : i * n + j < n * n) by nia.
      destruct (pairStep_bounded e i j a (-11 + 2 * Z.of_nat (i * n + j)))
        as [a' [Hstep Hb]]; try assumption.
      * fold n. lia.
      * lia.
      * unfold prec, emax. lia.
      * exists a'. split; [exact Hstep |]. unfold Pin. fold n in Hb.
        apply (entries_bounded_weaken (-11 + 2 * Z.of_nat (i * n + j) + 2)); [lia |].
        exact Hb.
    + exists acc1. split; [exact Hrun1 |]. unfold Pout. unfold Pin in Hp1.
      replace (S i + (n - S i)) with n in Hp1 by lia.
      replace (S i * n) with (i * n + n) by lia. exact Hp1.
  - exists acc'. split; [exact Hrun |]. unfold Pout in Hp. cbn [Nat.add] in Hp.
    apply (entries_bounded_weaken (-11 + 2 * Z.of_nat (n * n))); [lia | exact Hp].
Qed.

(** The force phase on planets at finite positions outside the sun. *)
Lemma accelerations_bounded e :
  length (planets e) <= PlanetConstants.MAX_COUNT ->
  Forall finite_position (planets e) ->
  Forall (fun p => Planet.isCollidedWithSun p = false) (planets e) ->
  exists acc, accelerations e = Some acc /\
              entries_bounded 189 (length (planets e)) acc.
Proof.
  intros Hn Hfin Hout. unfold accelerations. rewrite sun_loop_spec.
  apply calculatePlanetGravity_bounded; try assumption.
  assert (Hboth : Forall (fun p => finite_position p /\ Planet.isCollidedWithSun p = false)
                         (planets e)).
  { rewrite Forall_forall in *. intros p Hp. split; auto. }
  unfold entries_bounded. cbn [fst snd]. rewrite !length_map.
  split; [reflexivity |]. split; [reflexivity |].
  split; apply Forall_map; (eapply Forall_impl; [| exact Hboth]);
    intros p [Hp Hs]; destruct (sun_components_bounded p Hp Hs) as [Hx Hy];
    apply (float_add_bounded _ _ (-13)%Z); try assumption; try exact I;
    unfold SpecFloat.emin, prec, emax; lia.
Qed.

(** ** The integration step on finite accelerations *)

Lemma is_nan_false_Prim2SF (a : float) : is_nan a = false <-> Prim2SF a <> S754_nan.
Proof.
  pose proof (is_nan_Prim2SF a) as H.
  destruct (is_nan a).
  - split; [discriminate | intros H1; exfalso; apply H1, H; reflexivity].
  - split; [intros _ H2; apply H in H2; discriminate | reflexivity].
Qed.

Lemma Forall2_transfer {A} (P Q : A -> Prop) (l l' : list A) :
  Forall2 (fun p p' => P p -> Q p') l l' -> Forall P l -> Forall Q l'.
Proof.
  induction 1 as [|p p' l l' Hp _ IH]; intros H; [constructor |].
  inversion H; subst. constructor; auto.
Qed.

Lemma is_finite_not_nan (a : float) : is_finite a = true -> is_nan a = false.
Proof.
  intros H. apply is_nan_false_Prim2SF. apply sf_finite_number, is_finite_Prim2SF, H.
Qed.

Lemma SFadd_number_finite x y :
  x <> S754_nan -> sf_finite y = true -> SFadd prec emax x y <> S754_nan.
Proof.
  destruct x as [sx|sx| |sx mx ex]; intros Hx Hy; try congruence;
    destruct y as [sy|sy| |sy my ey]; try discriminate Hy; try discriminate.
  - destruct sx, sy; discriminate.
  - apply binary_normalize_number.
Qed.

Lemma SFadd_finite_number x y :
  sf_finite x = true -> y <> S754_nan -> SFadd prec emax x y <> S754_nan.
Proof.
  destruct x as [sx|sx| |sx mx ex]; intros Hx Hy; try discriminate Hx;
    destruct y as [sy|sy| |sy my ey]; try congruence; try discriminate.
  - destruct sx, sy; discriminate.
  - apply binary_normalize_number.
Qed.

Lemma SFmul_number_by_finite x s m e :
  x <> S754_nan -> SFmul prec emax x (S754_finite s m e) <> S754_nan.
Proof.
  destruct x as [sx|sx| |sx mx ex]; intros Hx; try congruence; try discriminate.
  apply binary_round_aux_number. lia.
Qed.

(** A velocity that is not NaN, advanced by a finite acceleration, is not
    NaN; a finite position advanced by it is not NaN either. *)
Lemma step_free_of_nan (a v x : float) :
  sf_bounded 189 (Prim2SF a) ->
  is_nan v = false -> is_finite x = true ->
  let v' := (v + a * PhysicsConstants.TIME_SCALE)%float in
  is_nan v' = false /\
  is_nan (x + v' * PhysicsConstants.TIME_SCALE)%float = false.
Proof.
  intros Ha Hv Hx v'.
  assert (Hdt : Prim2SF PhysicsConstants.TIME_SCALE
                = S754_finite false 6553600000000000 (-15)) by reflexivity.
  assert (Hadt : sf_finite (Prim2SF (a * PhysicsConstants.TIME_SCALE)%float) = true).
  { assert (Hb : sf_bounded 228 (Prim2SF (a * PhysicsConstants.TIME_SCALE)%float)).
    { rewrite mul_spec.
      apply (SFmul_bounded _ _ 189 (-15) (Prim2SF_valid _) (Prim2SF_valid _) Ha).
      - rewrite Hdt. cbn [sf_bounded]. lia.
      - vm_compute. discriminate. }
    destruct (Prim2SF (a * PhysicsConstants.TIME_SCALE)%float); try contradiction;
      reflexivity. }
  assert (Hv' : Prim2SF v' <> S754_nan).
  { unfold v'. rewrite add_spec. apply SFadd_number_finite; [| exact Hadt].
    apply is_nan_false_Prim2SF, Hv. }
  split; [apply is_nan_false_Prim2SF, Hv' |].
  apply is_nan_false_Prim2SF. rewrite add_spec, mul_spec, Hdt.
  apply SFadd_finite_number; [apply is_finite_Prim2SF, Hx |].
  apply SFmul_number_by_finite, Hv'.
Qed.

Lemma advanced_free_of_nan a b p p' :
  sf_bounded 189 (Prim2SF a) -> sf_bounded 189 (Prim2SF b) ->
  advanced a b p p' -> regular p -> free_of_nan p'.
Proof.
  intros Ha Hb [Hvx [Hvy [Hx [Hy _]]]] [[Hfx Hfy] [_ [Hnx Hny]]].
  destruct (step_free_of_nan a (Planet.vx p) (Planet.x p) Ha Hnx Hfx) as [H1 H2].
  destruct (step_free_of_nan b (Planet.vy p) (Planet.y p) Hb Hny Hfy) as [H3 H4].
  unfold free_of_nan. rewrite Hx, Hy, Hvx, Hvy. auto.
Qed.

Lemma regular_free_of_nan p : regular p -> free_of_nan p.
Proof.
  intros [[Hx Hy] [_ [Hvx Hvy]]]. unfold free_of_nan.
  auto using is_finite_not_nan.
Qed.

(** Whatever its completion, the integration loop leaves a list that is
    pointwise related to the one it started from by any reflexive relation
    that [Planet.update] establishes on the entries of the accumulators. *)
Lemma updatePlanets_state_entries (A : float -> Prop)
    (R : Planet.t -> Planet.t -> Prop) flag ax ay :
  (forall a b p, A a -> A b -> R p (state_of (Planet.update a b flag p))) ->
  (forall p, R p p) ->
  forall todo done,
    (forall i, length done <= i < length done + length todo ->
               A (num_get ax i) /\ A (num_get ay i)) ->
    exists todo',
      state_of (updatePlanets (length todo) (length done) ax ay flag (done ++ todo))
      = done ++ todo' /\ Forall2 R todo todo'.
Proof.
  intros Hupd Hrefl. induction todo as [|p rest IH]; intros done HA.
  - exists []. simpl. split; [reflexivity | constructor].
  - cbn [length updatePlanets]. rewrite nth_error_middle.
    destruct (HA (length done)) as [Hax Hay]; [cbn [length]; lia |].
    specialize (Hupd (num_get ax (length done)) (num_get ay (length done)) p Hax Hay).
    destruct (Planet.update (num_get ax (length done)) (num_get ay (length done)) flag p)
      as [[] p'|p']; cbn [state_of] in Hupd; rewrite put_at_middle.
    + destruct (IH (done ++ [p'])) as [rest' [Hrun Hrel]].
      { intros i Hi. apply HA. rewrite length_app in Hi. cbn [length] in *. lia. }
      rewrite length_app, Nat.add_comm in Hrun. cbn [length Nat.add] in Hrun.
      rewrite <- app_assoc in Hrun. cbn [app] in Hrun.
      exists (p' :: rest'). rewrite Hrun, <- app_assoc. cbn [app].
      split; [reflexivity | constructor; assumption].
    + exists (p' :: rest). cbn [state_of]. split; [reflexivity |].
      constructor; [assumption |].
      clear - Hrefl. induction rest; constructor; auto.
Qed.

(** The planets after [update], whatever its completion, from the
    accumulators of the force phase. *)
Lemma update_state_entries (A : float -> Prop) (R : Planet.t -> Planet.t -> Prop) t1 t2 e :
  (forall flag a b p, A a -> A b -> R p (state_of (Planet.update a b flag p))) ->
  (forall p, R p p) ->
  (forall ax ay, accelerations e = Some (ax, ay) -> Forall A ax /\ Forall A ay) ->
  Forall2 R (planets e) (planets (state_of (update t1 t2 e))).
Proof.
  intros Hupd Hrefl Hacc.
  destruct (update_unfold t1 t2 e) as [ax [ay [Ha [Hlx [Hly Hrun]]]]].
  destruct (Hacc ax ay Ha) as [HAx HAy].
  destruct (updatePlanets_state_entries A R (trails_due t1 e) ax ay
              (Hupd (trails_due t1 e)) Hrefl (planets e) []) as [ps' [Hst Hrel]].
  { intros i Hi. cbn [length Nat.add] in Hi.
    split; apply Forall_num_get; try assumption; lia. }
  cbn [length app] in Hst.
  destruct (updatePlanets _ _ _ _ _ _) as [[] ps|ps];
    destruct Hrun as [e' [Hu Hps]]; rewrite Hu; cbn [state_of] in *; congruence.
Qed.

Lemma update_free_of_nan t1 t2 e :
  length (planets e) <= PlanetConstants.MAX_COUNT ->
  Forall regular (planets e) ->
  exists ax ay,
    accelerations e = Some (ax, ay) /\
    Forall (fun v => is_finite v = true) ax /\
    Forall (fun v => is_finite v = true) ay /\
    Forall free_of_nan (planets (state_of (update t1 t2 e))).
Proof.
  intros Hn Hreg.
  assert (Hfin : Forall finite_position (planets e)).
  { eapply Forall_impl; [| exact Hreg]. intros p Hp. apply Hp. }
  assert (Hout : Forall (fun p => Planet.isCollidedWithSun p = false) (planets e)).
  { eapply Forall_impl; [| exact Hreg]. intros p Hp. apply Hp. }
  destruct (accelerations_bounded e Hn Hfin Hout) as [[ax ay] [Hacc [_ [_ [Hx Hy]]]]].
  cbn [fst snd] in Hx, Hy.
  exists ax, ay. split; [exact Hacc |].
  split; [| split].
  - eapply Forall_impl; [| exact Hx]. intros v Hv. apply (is_finite_of_bounded _ _ Hv).
  - eapply Forall_impl; [| exact Hy]. intros v Hv. apply (is_finite_of_bounded _ _ Hv).
  - apply (Forall2_transfer regular free_of_nan (planets e)); [| exact Hreg].
    apply (update_state_entries (fun v => sf_bounded 189 (Prim2SF v))).
    + intros flag a b p Ha Hb Hp.
      apply (advanced_free_of_nan a b p); try assumption.
      apply Planet_update_advanced.
    + intros p. apply regular_free_of_nan.
    + intros ax' ay' Hacc'. rewrite Hacc in Hacc'. injection Hacc' as <- <-. auto.
Qed.

(** X19.  [update] creates no NaN.  With at most [MAX_COUNT] planets, each
    at a finite position outside the sun and with a velocity that is not
    NaN, the force phase returns accumulators whose entries are all finite,
    and after [update], whatever its completion, no coordinate and no
    velocity component of any planet is NaN. *)
Theorem update_creates_no_nan :
  forall (t1 t2 : Z) (e : PhysicsEngine),
    length (planets e) <= PlanetConstants.MAX_COUNT ->
    Forall regular (planets e) ->
    exists ax ay,
      accelerations e = Some (ax, ay) /\
      Forall (fun v => is_finite v = true) ax /\
      Forall (fun v => is_finite v = true) ay /\
      Forall free_of_nan (planets (state_of (update t1 t2 e))).
Proof.
  intros t1 t2 e Hn Hreg. apply update_free_of_nan; assumption.
Qed.

Lemma update_creates_no_nan_witness :
  Forall free_of_nan (planets (state_of (update 100 100 nearPair))).
Proof.
  destruct (update_creates_no_nan 100 100 nearPair) as [ax [ay [_ [_ [_ H]]]]].
  - vm_compute. lia.
  - repeat constructor.
  - exact H.
Defined.

(** ** A frame on regular planets *)

(** A coordinate that is not NaN and not beyond a finite bound is
    finite. *)
Lemma within_finite_bound (m x : float) :
  is_finite m = true -> is_nan x = false -> (m <? abs x)%float = false ->
  is_finite x = true.
Proof.
  intros Hm Hx Hin. apply is_finite_Prim2SF in Hm. apply is_nan_false_Prim2SF in Hx.
  apply sf_finite_is_finite. rewrite ltb_spec, abs_spec in Hin.
  destruct (Prim2SF x) as [s|s| |s mx ex]; try reflexivity; [| congruence].
  destruct (Prim2SF m) as [sm|sm| |sm mm em]; try discriminate Hm;
    try destruct sm; discriminate Hin.
Qed.

(** A planet free of NaN that the removal pass keeps, under finite bounds,
    is regular. *)
Lemma survivor_regular maxX maxY p :
  is_finite maxX = true -> is_finite maxY = true ->
  free_of_nan p -> survives maxX maxY p = true -> regular p.
Proof.
  intros HX HY [Hx [Hy [Hvx Hvy]]] Hs.
  apply survives_iff in Hs as [Hin Hout].
  unfold Planet.isOutOfBounds in Hin. apply orb_false_iff in Hin as [Hinx Hiny].
  split; [split |]; [| | auto].
  - apply (within_finite_bound maxX); assumption.
  - apply (within_finite_bound maxY); assumption.
Qed.

Lemma settled_update_returns t1 t2 e :
  settled e -> exists b e', update t1 t2 e = Normal b e' /\ settled e'.
Proof.
  intros [He Hinit].
  destruct (trails_due t1 e) eqn:Hdue.
  - destruct (update_due t1 t2 e He Hdue Hinit) as [e' [Hu _]].
    exists true, e'. split; [exact Hu |]. split.
    + pose proof (reach_update e t1 t2 He) as Hr. rewrite Hu in Hr. exact Hr.
    + apply (update_sampled_initialized t1 t2 e e' Hu).
  - destruct (update_not_due t1 t2 e Hdue) as [e' [Hu [Htr _]]].
    exists false, e'. split; [exact Hu |]. split.
    + pose proof (reach_update e t1 t2 He) as Hr. rewrite Hu in Hr. exact Hr.
    + clear - Htr Hinit. revert Htr Hinit.
      generalize (planets e') as l'. generalize (planets e) as l.
      induction l as [|p l IH]; intros [|p' l'] Htr Hinit; simpl in Htr;
        try discriminate; [constructor |].
      injection Htr as Hp Hl. inversion Hinit; subst.
      constructor; [| apply (IH l'); assumption].
      unfold trail_initialized in *. congruence.
Qed.

Lemma settled_removal_returns now maxX maxY e :
  settled e ->
  exists log e', removeOutOfBoundsPlanets now maxX maxY e = Normal log e' /\
                 settled e' /\ planets e' = filter (survives maxX maxY) (planets e).
Proof.
  intros [He Hinit].
  destruct (removeOutOfBoundsPlanets_spec now maxX maxY e
              (initialized_releasable maxX maxY _ Hinit))
    as [e' [Hrun [Hps _]]].
  exists (visits maxX maxY 0 (planets e)), e'. split; [exact Hrun |].
  split; [| exact Hps]. split.
  - pose proof (reach_remove e now maxX maxY He) as Hr. rewrite Hrun in Hr. exact Hr.
  - rewrite Hps. apply Forall_forall. intros p Hp. apply filter_In in Hp as [Hp _].
    rewrite Forall_forall in Hinit. apply Hinit, Hp.
Qed.

(** X20.  A frame keeps the planets regular.  In the page, when every
    planet has its trail, is at a finite position outside the sun and has a
    velocity that is not NaN, and the bounds computed from the camera are
    finite, a call of [animate] returns, and afterwards every planet left
    again has its trail, is at a finite position outside the sun and has a
    velocity that is not NaN: a planet whose position overflowed is out of
    bounds and has been removed.  The camera is unchanged, so the same holds
    for the next frame. *)
Theorem frame_keeps_planets_regular :
  forall (currentTime t1 t2 : Z) (now : nat -> Z) (a : App),
    settled (physicsEngine a) ->
    is_finite (maxBoundsX (camera a)) = true ->
    is_finite (maxBoundsY (camera a)) = true ->
    Forall regular (planets (physicsEngine a)) ->
    exists a',
      animate currentTime t1 t2 now a = Normal tt a' /\
      settled (physicsEngine a') /\
      Forall regular (planets (physicsEngine a')) /\
      camera a' = camera a.
Proof.
  intros currentTime t1 t2 now a Hset HX HY Hreg.
  unfold animate.
  destruct (RenderConstants.DRAW_INTERVAL <? currentTime - lastDrawTime a)%Z.
  2:{ exists a. auto. }
  cbn [physicsEngine camera lastDrawTime planetCountText].
  destruct (settled_update_returns t1 t2 _ Hset) as [b [e1 [Hu Hset1]]].
  destruct (reachable_invariant _ (proj1 Hset)) as [Hn _].
  destruct (update_free_of_nan t1 t2 _ Hn Hreg) as [_ [_ [_ [_ [_ Hfree]]]]].
  rewrite Hu in Hfree |- *. cbn [state_of] in Hfree.
  destruct (settled_removal_returns now (maxBoundsX (camera a)) (maxBoundsY (camera a))
              e1 Hset1) as [log [e2 [Hrun [Hset2 Hps]]]].
  rewrite Hrun. eexists. split; [reflexivity |].
  cbn [updatePlanetCount physicsEngine camera].
  split; [exact Hset2 |]. split; [| reflexivity].
  rewrite Hps. apply Forall_forall. intros p Hp. apply filter_In in Hp as [Hp Hs].
  rewrite Forall_forall in Hfree.
  apply (survivor_regular (maxBoundsX (camera a)) (maxBoundsY (camera a)));
    auto.
Qed.

Lemma frame_keeps_planets_regular_witness :
  exists a',
    animate 100 100 100 (fun _ => 100%Z) orbitingPage = Normal tt a' /\
    Forall regular (planets (physicsEngine a')).
Proof.
  destruct (frame_keeps_planets_regular 100 100 100 (fun _ => 100%Z) orbitingPage)
    as [a' [Hrun [_ [Hreg _]]]].
  - split; [apply reach_timer, reach_addPlanet, reach_constructor |].
    repeat constructor; discriminate.
  - reflexivity.
  - reflexivity.
  - repeat constructor.
  - exists a'. split; [exact Hrun | exact Hreg].
Defined.

(** * The loops as a whole

    The properties of this part follow the loops of [update] and of
    [removeOutOfBoundsPlanets] over the whole array and on both of their
    completions, and use the rounding lemmas above on both sides: an
    acceleration that is neither lost to overflow nor to underflow. *)

(** ** The pair loop, pair by pair *)

Lemma runPairs_app e l1 l2 start :
  runPairs e (l1 ++ l2) start = runPairs e l2 (runPairs e l1 start).
Proof. apply fold_left_app. Qed.

Lemma runPairs_none e l : runPairs e l None = None.
Proof. induction l as [|ij l IH]; [reflexivity | exact IH]. Qed.

Lemma for_up_runPairs e i n : forall lo s,
  for_up lo n (pairStep e i) s
  = runPairs e (map (fun j => (i, j)) (seq lo n)) (Some s).
Proof.
  unfold for_up, runPairs. intros lo s. generalize (Some s) as start.
  generalize (seq lo n) as js.
  induction js as [|j js IH]; intros start; [reflexivity |].
  cbn [map fold_left fst snd]. apply IH.
Qed.

(** The two loops of [calculatePlanetGravity] run the pair step once on
    each pair of [pairsOf], in that order. *)
Lemma calculatePlanetGravity_pairs ax ay e :
  calculatePlanetGravity ax ay e
  = runPairs e (pairsOf (length (planets e))) (Some (ax, ay)).
Proof.
  unfold calculatePlanetGravity, pairsOf.
  set (n := length (planets e)).
  unfold for_up at 1. generalize (Some (ax, ay)) as start.
  generalize (seq 0 n) as idx.
  induction idx as [|i idx IH]; intros start; [reflexivity |].
  cbn [fold_left flat_map]. rewrite runPairs_app, IH. f_equal.
  destruct start as [s|]; [apply for_up_runPairs | symmetry; apply runPairs_none].
Qed.

Lemma seq_split a n k : k <= n -> seq a n = seq a k ++ seq (a + k) (n - k).
Proof.
  intros Hk. rewrite <- seq_app. f_equal. lia.
Qed.

(** Every pair [i < j < n] is in [pairsOf n] exactly once. *)
Lemma pairsOf_split n i j :
  i < j < n ->
  exists before after,
    pairsOf n = before ++ (i, j) :: after /\
    ~ In (i, j) before /\ ~ In (i, j) after /\
    (forall a b, In (a, b) (pairsOf n) -> a < b < n).
Proof.
  intros Hij. unfold pairsOf.
  set (g := fun i => map (fun j => (i, j)) (seq (S i) (n - S i))).
  assert (Hin : forall a b l, In (a, b) (flat_map g l) -> In a l /\ a < b < n).
  { intros a b l H. apply in_flat_map in H as [x [Hx H]].
    unfold g in H. apply in_map_iff in H as [y [Hy H]].
    injection Hy as -> ->. apply in_seq in H. split; [exact Hx | lia]. }
  exists (flat_map g (seq 0 i) ++ map (fun j => (i, j)) (seq (S i) (j - S i))),
         (map (fun j => (i, j)) (seq (S j) (n - S j)) ++ flat_map g (seq (S i) (n - S i))).
  split.
  { rewrite (seq_split 0 n i) by lia. rewrite flat_map_app.
    replace (n - i) with (S (n - S i)) by lia. cbn [seq flat_map Nat.add].
    unfold g at 2.
    rewrite (seq_split (S i) (n - S i) (j - S i)) by lia.
    replace (S i + (j - S i)) with j by lia.
    replace (n - S i - (j - S i)) with (S (n - S j)) by lia.
    cbn [seq]. rewrite map_app. cbn [map].
    rewrite <- !app_assoc. reflexivity. }
  split.
  { intros H. apply in_app_or in H as [H | H].
    - apply Hin in H as [H _]. apply in_seq in H. lia.
    - apply in_map_iff in H as [y [Hy H]]. injection Hy as ->. apply in_seq in H. lia. }
  split.
  { intros H. apply in_app_or in H as [H | H].
    - apply in_map_iff in H as [y [Hy H]]. injection Hy as ->. apply in_seq in H. lia.
    - apply Hin in H as [H _]. apply in_seq in H. lia. }
  intros a b H. apply (Hin a b _ H).
Qed.

(** The pair steps on pairs within the array all return. *)
Lemma runPairs_total e l : forall acc,
  (forall a b, In (a, b) l -> a < length (planets e) /\ b < length (planets e)) ->
  exists acc', runPairs e l (Some acc) = Some acc'.
Proof.
  induction l as [|[a b] l IH]; intros acc Hl; [exists acc; reflexivity |].
  destruct (pairStep_in_range e a b acc) as [acc1 H1];
    try (apply (Hl a b); left; reflexivity).
  unfold runPairs. cbn [fold_left fst snd]. rewrite H1.
  apply IH. intros a' b' H. apply (Hl a' b'). right. exact H.
Qed.

(** The force phase is the pair loop run on the central accelerations. *)
Lemma accelerations_unfold e :
  accelerations e
  = calculatePlanetGravity (map (fun p => (0 + sunAccelerationX p)%float) (planets e))
                           (map (fun p => (0 + sunAccelerationY p)%float) (planets e)) e.
Proof. unfold accelerations. rewrite sun_loop_spec. reflexivity. Qed.

(** C3.  For a pair whose squared separation is below the floor
    [MIN_DISTANCE] squared, the pair is within the cutoff and is not
    skipped; the squared distance used is the floor and the distance is
    [MIN_DISTANCE]; the force is the force at exactly the floor distance, a
    finite nonzero number; and the accelerations the step adds to planet [i]
    and subtracts from planet [j] are finite, neither NaN nor infinite.
    This step is part of every [update]: the two loops of
    [calculatePlanetGravity] run the pair step on each pair [i < j] exactly
    once, so from whatever accumulators the earlier pairs have left, the
    pair gets exactly that contribution before the later pairs run; the
    force phase of [update] is that loop run on the central accelerations,
    and an [update] that returns has advanced the planets with its
    result. *)
Theorem floor_clamps_pair_force :
  forall (e : PhysicsEngine) (i j : nat) (pi pj : Planet.t) (ax ay : list float),
    nth_error (planets e) i = Some pi ->
    nth_error (planets e) j = Some pj ->
    (separationSquared pi pj <? minDistanceSquared)%float = true ->
    let r2 := separationSquared pi pj in
    let cx := fst (pairAcceleration pi pj) in
    let cy := snd (pairAcceleration pi pj) in
    (maxDistanceSquared <? r2)%float = false /\
    effectiveR2 r2 = minDistanceSquared /\
    sqrt (effectiveR2 r2) = PhysicsConstants.MIN_DISTANCE /\
    pairForce (effectiveR2 r2)
    = pairForce (PhysicsConstants.MIN_DISTANCE * PhysicsConstants.MIN_DISTANCE)%float /\
    is_finite (pairForce (effectiveR2 r2)) = true /\
    is_zero (pairForce (effectiveR2 r2)) = false /\
    cx = ((pairForce minDistanceSquared * (Planet.x pj - Planet.x pi))
          / (PhysicsConstants.MIN_DISTANCE * PlanetConstants.MASS))%float /\
    cy = ((pairForce minDistanceSquared * (Planet.y pj - Planet.y pi))
          / (PhysicsConstants.MIN_DISTANCE * PlanetConstants.MASS))%float /\
    is_finite cx = true /\ is_finite cy = true /\
    pairStep e i j (ax, ay)
    = (let ax1 := num_set ax i (num_get ax i + cx)%float in
       let ay1 := num_set ay i (num_get ay i + cy)%float in
       Some (num_set ax1 j (num_get ax1 j - cx)%float,
             num_set ay1 j (num_get ay1 j - cy)%float)) /\
    (i < j ->
     exists before after bx by_,
       pairsOf (length (planets e)) = before ++ (i, j) :: after /\
       ~ In (i, j) before /\ ~ In (i, j) after /\
       runPairs e before (Some (ax, ay)) = Some (bx, by_) /\
       calculatePlanetGravity ax ay e
       = runPairs e after
           (let bx1 := num_set bx i (num_get bx i + cx)%float in
            let by1 := num_set by_ i (num_get by_ i + cy)%float in
            Some (num_set bx1 j (num_get bx1 j - cx)%float,
                  num_set by1 j (num_get by1 j - cy)%float))) /\
    accelerations e
    = calculatePlanetGravity
        (map (fun p => (0 + sunAccelerationX p)%float) (planets e))
        (map (fun p => (0 + sunAccelerationY p)%float) (planets e)) e /\
    (forall t1 t2 b e',
        update t1 t2 e = Normal b e' ->
        exists fx fy,
          accelerations e = Some (fx, fy) /\
          planets e' = integrated fx fy b 0 (planets e)).
Proof.
  intros e i j pi pj ax ay Hpi Hpj Hlow r2 cx cy.
  pose proof (below_floor_is_within_cutoff r2 Hlow) as Hnear.
  assert (Heff : effectiveR2 r2 = minDistanceSquared).
  { unfold effectiveR2. fold r2 in Hlow. rewrite Hlow. reflexivity. }
  destruct (small_sum_of_squares_operands _ _ _ Hlow) as [Hdx Hdy].
  assert (Hcx : cx = ((pairForce minDistanceSquared * (Planet.x pj - Planet.x pi))
                      / (sqrt minDistanceSquared * PlanetConstants.MASS))%float).
  { unfold cx, pairAcceleration. fold r2. rewrite Heff. reflexivity. }
  assert (Hcy : cy = ((pairForce minDistanceSquared * (Planet.y pj - Planet.y pi))
                      / (sqrt minDistanceSquared * PlanetConstants.MASS))%float).
  { unfold cy, pairAcceleration. fold r2. rewrite Heff. reflexivity. }
  split; [exact Hnear |].
  split; [exact Heff |].
  rewrite Heff.
  split; [reflexivity |].
  split; [reflexivity |].
  split; [reflexivity |].
  split; [reflexivity |].
  split; [exact Hcx |].
  split; [exact Hcy |].
  split; [rewrite Hcx; apply floor_contribution_finite; exact Hdx |].
  split; [rewrite Hcy; apply floor_contribution_finite; exact Hdy |].
  split; [apply (pairStep_within e i j pi pj ax ay Hpi Hpj Hnear) |].
  split.
  { intros Hij.
    assert (Hj : j < length (planets e)).
    { apply nth_error_Some. rewrite Hpj. discriminate. }
    destruct (pairsOf_split (length (planets e)) i j (conj Hij Hj))
      as [before [after [Hsplit [Hb [Ha Hrange]]]]].
    destruct (runPairs_total e before (ax, ay)) as [[bx by_] Hrun].
    { intros a b Hin. assert (H : a < b < length (planets e)); [| lia].
      apply Hrange. rewrite Hsplit. apply in_or_app. left. exact Hin. }
    exists before, after, bx, by_.
    split; [exact Hsplit |]. split; [exact Hb |]. split; [exact Ha |].
    split; [exact Hrun |].
    rewrite calculatePlanetGravity_pairs, Hsplit, runPairs_app, Hrun.
    unfold runPairs at 1. cbn [fold_left fst snd].
    rewrite (pairStep_within e i j pi pj bx by_ Hpi Hpj Hnear). reflexivity. }
  split; [apply accelerations_unfold |].
  intros t1 t2 b e' Hret.
  destruct (update_returned t1 t2 e b e' Hret) as [_ [fx [fy [Hacc [_ [_ Hps]]]]]].
  exists fx, fy. auto.
Qed.

Lemma floor_clamps_pair_force_witness :
  (separationSquared (Planet.new 10 0 0 0 1) (Planet.new 10.5 0.25 0 0 2)
     <? minDistanceSquared)%float = true /\
  effectiveR2 (separationSquared (Planet.new 10 0 0 0 1) (Planet.new 10.5 0.25 0 0 2))
  = 1%float /\
  pairStep closePair 0 1 ([0; 0]%float, [0; 0]%float)
  = Some ([6.6742999999999997e-24; -6.6742999999999997e-24]%float,
          [3.3371499999999999e-24; -3.3371499999999999e-24]%float) /\
  accelerations closePair
  = pairStep closePair 0 1
      (map (fun p => (0 + sunAccelerationX p)%float) (planets closePair),
       map (fun p => (0 + sunAccelerationY p)%float) (planets closePair)).
Proof.
  split; [reflexivity |].
  destruct (floor_clamps_pair_force closePair 0 1
              (Planet.new 10 0 0 0 1) (Planet.new 10.5 0.25 0 0 2)
              [0; 0]%float [0; 0]%float eq_refl eq_refl eq_refl)
    as [_ [Heff [_ [_ [_ [_ [_ [_ [_ [_ [Hstep [_ [Hacc _]]]]]]]]]]]]].
  split; [exact Heff |].
  split; [rewrite Hstep; vm_compute; reflexivity |].
  rewrite Hacc, calculatePlanetGravity_pairs. reflexivity.
Defined.

(** ** Magnitudes that do not vanish *)

Local Open Scope Z_scope.

Lemma sf_magnitude_from_weaken E E' x :
  E' <= E -> sf_magnitude_from E x -> sf_magnitude_from E' x.
Proof. intros HE. destruct x as [?|?| |s m e]; simpl; auto. lia. Qed.

(** The root has half the digits of the radicand, no more. *)
Lemma Zdigits2_sqrt_le n : 0 < n -> Zdigits2 (Z.sqrt n) <= (Zdigits2 n + 1) / 2.
Proof.
  intros Hn.
  assert (Hs : 0 < Z.sqrt n) by (apply Z.sqrt_pos; assumption).
  rewrite !Zdigits2_pos_log2 by assumption.
  set (k := Z.log2 n).
  assert (Hk : 0 <= k) by apply Z.log2_nonneg.
  replace (k + 1 + 1) with (k + 1 * 2) by lia. rewrite Z.div_add by lia.
  assert (Hlt : Z.log2 (Z.sqrt n) < k / 2 + 1); [| lia].
  apply Z.log2_lt_pow2; [assumption |].
  assert (Hh : 0 <= k / 2) by (apply Z.div_pos; lia).
  apply Z.sqrt_lt_square; [lia | apply Z.pow_nonneg; lia |].
  rewrite <- Z.pow_add_r by lia.
  pose proof (Z.log2_spec n Hn) as [_ Hhi]. fold k in Hhi.
  assert (Hle : 2 ^ (Z.succ k) <= 2 ^ (k / 2 + 1 + (k / 2 + 1))).
  { apply Z.pow_le_mono_r; [lia |].
    pose proof (Z.mod_pos_bound k 2 ltac:(lia)) as Hmod.
    pose proof (Z.div_mod k 2 ltac:(lia)) as Hdm.
    clearbody k. clear - Hmod Hdm. lia. }
  lia.
Qed.

(** The digits of a quotient. *)
Lemma Zdigits2_div a b :
  0 < b -> b <= a -> Zdigits2 a - Zdigits2 b <= Zdigits2 (a / b).
Proof.
  intros Hb Hab.
  assert (Hq : 0 < a / b) by (apply Z.div_str_pos; lia).
  rewrite !Zdigits2_pos_log2 by lia.
  destruct (Z.le_gt_cases (Z.log2 a) (Z.log2 b)) as [Hle | Hgt].
  { pose proof (Z.log2_nonneg (a / b)). lia. }
  assert (Hlow : Z.log2 a - Z.log2 b - 1 <= Z.log2 (a / b)); [| lia].
  apply Z.log2_le_pow2; [assumption |].
  apply Z.div_le_lower_bound; [assumption |].
  pose proof (Z.log2_spec a ltac:(lia)) as [Ha _].
  pose proof (Z.log2_spec b Hb) as [_ Hbhi].
  assert (Hsplit : 2 ^ Z.log2 a
                   = 2 ^ (Z.succ (Z.log2 b)) * 2 ^ (Z.log2 a - Z.log2 b - 1)).
  { rewrite <- Z.pow_add_r by (pose proof (Z.log2_nonneg b); lia). f_equal. lia. }
  assert (Hp : 0 < 2 ^ (Z.log2 a - Z.log2 b - 1)) by (apply Z.pow_pos_nonneg; lia).
  nia.
Qed.

(** The square root of a number of magnitude below [2 ^ (E + 53)]. *)
Lemma SFsqrt_bounded x E :
  SpecFloat.valid_binary prec emax x = true ->
  sf_sign_is false x ->
  sf_bounded E x ->
  SpecFloat.emin prec emax <= (E + prec + 1) / 2 - prec ->
  (E + prec + 1) / 2 - prec + 1 <= emax - prec ->
  sf_bounded ((E + prec + 1) / 2 - prec + 1) (SFsqrt prec emax x).
Proof.
  intros Hv Hs Hx Hlo Hhi.
  destruct x as [s|s| |s m e]; simpl in Hx; try contradiction; [exact I |].
  simpl in Hs. subst s.
  destruct (valid_digits false m e Hv) as [Hd _].
  unfold SFsqrt, SFsqrt_core_binary.
  change IntDef.Z.min with Z.min. change IntDef.Z.div2 with Z.div2.
  change IntDef.Z.shiftl with Z.shiftl. change IntDef.Z.sqrtrem with Z.sqrtrem.
  set (dm := Zdigits2 (Zpos m)) in *.
  assert (Hdm : 0 < dm).
  { unfold dm. rewrite Zdigits2_pos_log2 by lia. pose proof (Z.log2_nonneg (Zpos m)). lia. }
  set (e' := Z.min (fexp prec emax (Z.div2 (dm + e + 1))) (Z.div2 e)).
  assert (He' : 2 * e' <= e /\ e' <= fexp prec emax ((dm + e + 1) / 2)).
  { pose proof (Z.le_min_r (fexp prec emax (Z.div2 (dm + e + 1))) (Z.div2 e)) as Hmin.
    pose proof (Z.le_min_l (fexp prec emax (Z.div2 (dm + e + 1))) (Z.div2 e)) as Hmin'.
    fold e' in Hmin, Hmin'. rewrite !Z.div2_div in *.
    pose proof (Z.mul_div_le e 2 ltac:(lia)) as Hhalf.
    clearbody e'. split; [clear - Hmin Hhalf; lia | exact Hmin']. }
  destruct He' as [He2 Hef].
  set (s := e - 2 * e').
  assert (Hs : 0 <= s) by (unfold s; lia).
  set (m' := match s with
             | 0 => Zpos m
             | Zpos _ => Z.shiftl (Zpos m) s
             | Zneg _ => 0
             end).
  assert (Hm' : 0 < m' /\ Zdigits2 m' = dm + s).
  { unfold m'. clearbody s. destruct s as [|p|p]; [unfold dm; lia | | lia].
    rewrite Zdigits2_shiftl by lia. split; [| reflexivity].
    rewrite Z.shiftl_mul_pow2 by lia.
    apply Z.mul_pos_pos; [lia | apply Z.pow_pos_nonneg; lia]. }
  destruct Hm' as [Hm0 Hmd].
  pose proof (Z.sqrtrem_sqrt m') as Hq.
  destruct (Z.sqrtrem m') as [q r]. cbn [fst] in Hq. subst q.
  pose proof (Zdigits2_sqrt_le m' Hm0) as Hdq.
  assert (Hq0 : 0 < Z.sqrt m') by (apply Z.sqrt_pos; assumption).
  set (l := if r =? 0 then loc_Exact else loc_Inexact (if r <=? Z.sqrt m' then Lt else Gt)).
  assert (Hhalf : (dm + s + 1) / 2 = (dm + e + 1) / 2 - e').
  { unfold s. replace (dm + (e - 2 * e') + 1) with ((dm + e + 1) + (- e') * 2) by lia.
    rewrite Z.div_add by lia. lia. }
  assert (Hmono : (dm + e + 1) / 2 <= (E + prec + 1) / 2)
    by (apply Z.div_le_mono; lia).
  pose proof (binary_round_aux_bound prec emax ltac:(reflexivity)
                false (Z.sqrt m') e' l ltac:(lia)) as H.
  cbv zeta in H. unfold fexp in H, Hef.
  rewrite Hmd, Hhalf in Hdq.
  specialize (H ltac:(lia)).
  destruct (binary_round_aux prec emax false (Z.sqrt m') e' l);
    cbn [sf_bounded]; auto. lia.
Qed.

(** The product of two numbers of magnitude at least [2 ^ (Ex + 52)] and
    [2 ^ (Ey + 52)]. *)
Lemma SFmul_magnitude_from x y Ex Ey :
  SpecFloat.valid_binary prec emax x = true ->
  SpecFloat.valid_binary prec emax y = true ->
  sf_magnitude_from Ex x -> sf_magnitude_from Ey y ->
  SpecFloat.emin prec emax < Ex -> SpecFloat.emin prec emax < Ey ->
  SpecFloat.emin prec emax <= Ex + Ey + prec - 1 ->
  sf_magnitude_from (Ex + Ey + prec - 1) (SFmul prec emax x y).
Proof.
  intros Hvx Hvy Hx Hy HEx HEy Hu.
  destruct x as [sx|sx| |sx mx ex]; simpl in Hx; try contradiction;
    destruct y as [sy|sy| |sy my ey]; simpl in Hy; try contradiction;
    try exact I.
  pose proof (valid_normal sx mx ex Hvx ltac:(lia)) as Hdx.
  pose proof (valid_normal sy my ey Hvy ltac:(lia)) as Hdy.
  pose proof (Zdigits2_mul_below mx my) as Hmul.
  unfold SFmul.
  pose proof (binary_round_aux_lower prec emax ltac:(reflexivity)
                (xorb sx sy) (Zpos (mx * my)) (ex + ey) loc_Exact ltac:(lia)) as H.
  specialize (H ltac:(lia)).
  destruct (binary_round_aux prec emax (xorb sx sy) (Zpos (mx * my)) (ex + ey)
              loc_Exact) as [?|s'| |s' m' e']; cbn [sf_magnitude_from];
    try contradiction; [exact I |].
  destruct H as [_ H]. lia.
Qed.

(** The quotient of a number of magnitude at least [2 ^ (Ex + 52)] by a
    zero or finite number of magnitude below [2 ^ (Ey + 53)]. *)
Lemma SFdiv_magnitude_from x y Ex Ey :
  SpecFloat.valid_binary prec emax x = true ->
  SpecFloat.valid_binary prec emax y = true ->
  sf_magnitude_from Ex x -> sf_bounded Ey y ->
  SpecFloat.emin prec emax < Ex ->
  SpecFloat.emin prec emax <= Ex - Ey - prec ->
  sf_magnitude_from (Ex - Ey - prec) (SFdiv prec emax x y).
Proof.
  intros Hvx Hvy Hx Hy HEx Hu.
  destruct x as [sx|sx| |sx mx ex]; simpl in Hx; try contradiction;
    destruct y as [sy|sy| |sy my ey]; simpl in Hy; try contradiction;
    try exact I.
  pose proof (valid_normal sx mx ex Hvx ltac:(lia)) as Hdx.
  destruct (valid_digits sy my ey Hvy) as [Hdy _].
  assert (Hdy0 : 0 < Zdigits2 (Zpos my)).
  { rewrite Zdigits2_pos_log2 by lia. pose proof (Z.log2_nonneg (Zpos my)). lia. }
  unfold SFdiv, SFdiv_core_binary.
  change IntDef.Z.min with Z.min. change IntDef.Z.shiftl with Z.shiftl.
  change IntDef.Z.sub with Z.sub. change IntDef.Z.div_eucl with Z.div_eucl.
  rewrite Hdx.
  set (dy := Zdigits2 (Zpos my)) in *.
  set (e' := Z.min (fexp prec emax (prec + ex - (dy + ey))) (ex - ey)).
  assert (He' : e' = ex - ey - dy).
  { unfold e', fexp. unfold SpecFloat.emin, prec, emax in *. lia. }
  set (s := ex - ey - e').
  assert (Hs : s = dy) by (unfold s; lia).
  set (m' := match s with
             | 0 => Zpos mx
             | Zpos _ => Z.shiftl (Zpos mx) s
             | Zneg _ => 0
             end).
  assert (Hm' : m' = Z.shiftl (Zpos mx) dy).
  { unfold m'. rewrite Hs. destruct dy; [lia | reflexivity | lia]. }
  assert (Hmd : Zdigits2 m' = prec + dy).
  { rewrite Hm', Zdigits2_shiftl by lia. lia. }
  assert (Hm0 : 0 < m').
  { rewrite Hm', Z.shiftl_mul_pow2 by lia.
    apply Z.mul_pos_pos; [lia | apply Z.pow_pos_nonneg; lia]. }
  assert (Hge : Zpos my <= m').
  { rewrite Hm', Z.shiftl_mul_pow2 by lia.
    pose proof (Z.log2_spec (Zpos my) ltac:(lia)) as [_ Hhi].
    fold dy in Hhi. unfold dy in *. rewrite Zdigits2_pos_log2 in * by lia.
    replace (Z.succ (Z.log2 (Zpos my))) with (Z.log2 (Zpos my) + 1) in Hhi by lia.
    nia. }
  destruct (Z.div_eucl m' (Zpos my)) as [q r] eqn:Hqr.
  assert (Hdiv : q = m' / Zpos my) by (unfold Z.div; rewrite Hqr; reflexivity).
  pose proof (Zdigits2_div m' (Zpos my) ltac:(lia) Hge) as Hdq.
  rewrite <- Hdiv, Hmd in Hdq. fold dy in Hdq.
  assert (Hq0 : 0 < q) by (subst q; apply Z.div_str_pos; lia).
  pose proof (binary_round_aux_lower prec emax ltac:(reflexivity)
                (xorb sx sy) q e' (new_location (Zpos my) r) Hq0) as H.
  specialize (H ltac:(unfold SpecFloat.emin, prec, emax in *; lia)).
  destruct (binary_round_aux prec emax (xorb sx sy) q e'
              (new_location (Zpos my) r)) as [?|s'| |s' m'' e''];
    cbn [sf_magnitude_from]; try contradiction; [exact I |].
  destruct H as [_ H]. unfold prec in *. lia.
Qed.

(** ** Comparisons of magnitudes, read on the exponents *)

Lemma abs_below_bounded (a c : float) mc ec :
  Prim2SF c = S754_finite false mc ec ->
  (abs a <? c)%float = true -> sf_bounded ec (Prim2SF a).
Proof.
  intros Hc H. rewrite ltb_spec, abs_spec, Hc in H.
  destruct (Prim2SF a) as [s|s| |s m e]; cbn [sf_bounded]; try exact I;
    try discriminate H.
  unfold SFltb, SFcompare, SFabs in H.
  destruct (Z.compare_spec e ec) as [Heq | Hlt | Hgt]; try lia; discriminate H.
Qed.

Lemma abs_from (a c : float) mc ec :
  Prim2SF c = S754_finite false mc ec ->
  (c <=? abs a)%float = true -> sf_magnitude_from ec (Prim2SF a).
Proof.
  intros Hc H. rewrite leb_spec, abs_spec, Hc in H.
  destruct (Prim2SF a) as [s|s| |s m e]; cbn [sf_magnitude_from]; try exact I;
    try discriminate H.
  unfold SFleb, SFcompare, SFabs in H.
  destruct (Z.compare_spec ec e) as [Heq | Hlt | Hgt]; try lia; discriminate H.
Qed.

Lemma abs_dominated (o d : float) s m e :
  Prim2SF d = S754_finite s m e ->
  (abs o <=? abs d)%float = true -> sf_bounded e (Prim2SF o).
Proof.
  intros Hd H. rewrite leb_spec, !abs_spec, Hd in H.
  destruct (Prim2SF o) as [so|so| |so mo eo]; cbn [sf_bounded]; try exact I;
    try discriminate H.
  unfold SFleb, SFcompare, SFabs in H.
  destruct (Z.compare_spec eo e) as [Heq | Hlt | Hgt]; try lia; discriminate H.
Qed.

(** Of two numbers, one is not larger in magnitude than the other. *)
Lemma abs_leb_total (a b : float) :
  is_nan a = false -> is_nan b = false ->
  (abs b <=? abs a)%float = true \/ (abs a <=? abs b)%float = true.
Proof.
  intros Ha Hb. apply is_nan_false_Prim2SF in Ha, Hb.
  rewrite !leb_spec, !abs_spec.
  destruct (Prim2SF a) as [sa|sa| |sa ma ea]; try congruence;
    destruct (Prim2SF b) as [sb|sb| |sb mb eb]; try congruence;
    unfold SFleb, SFcompare, SFabs; auto.
  change (Pos.compare_cont Eq mb ma) with (Pos.compare mb ma).
  change (Pos.compare_cont Eq ma mb) with (Pos.compare ma mb).
  rewrite (Z.compare_antisym ea eb), (Pos.compare_antisym ma mb).
  destruct (ea ?= eb); cbn [CompOpp]; auto.
  destruct (Pos.compare ma mb); cbn [CompOpp]; auto.
Qed.

(** A number away from zero compares strictly with zero, by its sign. *)
Lemma magnitude_negative (a : float) E :
  sf_magnitude_from E (Prim2SF a) -> sf_sign_is true (Prim2SF a) ->
  (a <? 0)%float = true.
Proof.
  intros Hm Hs. rewrite ltb_spec.
  destruct (Prim2SF a) as [s|s| |s m e]; simpl in Hm, Hs; try contradiction;
    subst s; reflexivity.
Qed.

Lemma magnitude_positive (a : float) E :
  sf_magnitude_from E (Prim2SF a) -> sf_sign_is false (Prim2SF a) ->
  (0 <? a)%float = true.
Proof.
  intros Hm Hs. rewrite ltb_spec.
  destruct (Prim2SF a) as [s|s| |s m e]; simpl in Hm, Hs; try contradiction;
    subst s; reflexivity.
Qed.

Lemma magnitude_nonzero (a : float) E :
  sf_magnitude_from E (Prim2SF a) -> (a =? 0)%float = false.
Proof.
  intros Hm. rewrite FloatAxioms.eqb_spec.
  destruct (Prim2SF a) as [s|s| |s m e]; simpl in Hm; try contradiction;
    destruct s; reflexivity.
Qed.

(** A number that is not negative and of small exponent is below a
    positive constant of larger exponent. *)
Lemma bounded_below_constant (a c : float) E mc ec :
  Prim2SF c = S754_finite false mc ec ->
  sf_bounded E (Prim2SF a) -> sf_sign_is false (Prim2SF a) -> E < ec ->
  (a <? c)%float = true.
Proof.
  intros Hc Hb Hs HE. rewrite ltb_spec, Hc.
  destruct (Prim2SF a) as [s|s| |s m e]; simpl in Hb, Hs; try contradiction.
  - reflexivity.
  - subst s. unfold SFltb, SFcompare.
    destruct (Z.compare_spec e ec) as [Heq | Hlt | Hgt]; try lia; reflexivity.
Qed.

(** ** The central acceleration away from overflow and underflow *)

(** With [d] the coordinate of larger magnitude, of exponent field [ed],
    the distance is at least [2 ^ (ed + 52)] and below [2 ^ (ed + 56)]. *)
Lemma distance_between (d o r2 : float) s m ed :
  (r2 = d * d + o * o \/ r2 = o * o + d * d)%float ->
  Prim2SF d = S754_finite s m ed ->
  sf_bounded ed (Prim2SF o) ->
  -541 <= ed <= 416 ->
  sf_positive_from ed (Prim2SF (sqrt r2)) /\ sf_bounded (ed + 3) (Prim2SF (sqrt r2)).
Proof.
  intros Hr2 Ed Ho Hed.
  pose proof (Prim2SF_valid d) as Hv. rewrite Ed in Hv.
  assert (Hdn : Prim2SF d <> S754_nan) by (rewrite Ed; discriminate).
  assert (Hon : Prim2SF o <> S754_nan).
  { destruct (Prim2SF o); simpl in Ho; try contradiction; discriminate. }
  assert (Hnum : Prim2SF r2 <> S754_nan).
  { destruct Hr2 as [-> | ->]; rewrite add_spec, !mul_spec;
      apply sum_of_squares_number; assumption. }
  assert (Hsign : sf_sign_is false (Prim2SF r2)).
  { destruct Hr2 as [-> | ->]; rewrite add_spec, !mul_spec;
      apply SFadd_nonneg; apply SFmul_self_nonneg. }
  split.
  - assert (Hsq : sf_at_least (2 * ed + 52) (Prim2SF (d * d)%float)).
    { rewrite mul_spec, Ed.
      apply (sf_at_least_weaken (2 * ed + prec - 1)); [format_lia |].
      apply (SFmul_square_at_least s m ed Hv); format_lia. }
    assert (Hsum : sf_at_least (2 * ed + 52) (Prim2SF r2)).
    { assert (Hoo : sf_sign_is false (Prim2SF (o * o)%float))
        by (rewrite mul_spec; apply SFmul_self_nonneg).
      destruct (SFadd_at_least _ _ (2 * ed + 52) (Prim2SF_valid (d * d)%float) Hoo Hsq)
        as [H1 H2]; [format_lia |].
      destruct Hr2 as [-> | ->]; rewrite add_spec; assumption. }
    pose proof (sf_positive_from_intro _ _ Hsum Hnum) as Hfrom.
    pose proof (SFsqrt_from _ (2 * ed + 52) (Prim2SF_valid r2) Hfrom ltac:(format_lia))
      as Hroot.
    rewrite sqrt_spec.
    replace ((2 * ed + 52 + prec + 1) / 2 - prec) with ed in Hroot; [exact Hroot |].
    unfold prec. replace (2 * ed + 52 + 53 + 1) with ((ed + 53) * 2) by lia.
    rewrite Z.div_mul by lia. lia.
  - assert (Hd : sf_bounded ed (Prim2SF d)) by (rewrite Ed; simpl; lia).
    assert (Hsquare : forall a : float,
               sf_bounded ed (Prim2SF a) -> sf_bounded (2 * ed + 54) (Prim2SF (a * a)%float)).
    { intros a Ha. rewrite mul_spec.
      apply (sf_bounded_weaken (Z.max (ed + ed + prec) (SpecFloat.emin prec emax) + 1));
        [format_lia |].
      apply SFmul_bounded; try apply Prim2SF_valid; try assumption. format_lia. }
    assert (Hsum : sf_bounded (2 * ed + 56) (Prim2SF r2)).
    { replace (2 * ed + 56) with (2 * ed + 54 + 2) by lia.
      destruct Hr2 as [-> | ->]; apply float_add_bounded;
        try (apply Hsquare; assumption); format_lia. }
    rewrite sqrt_spec.
    replace (ed + 3) with ((2 * ed + 56 + prec + 1) / 2 - prec + 1).
    + apply SFsqrt_bounded; try apply Prim2SF_valid; try assumption.
      * unfold prec. replace (2 * ed + 56 + 53 + 1) with ((ed + 55) * 2) by lia.
        rewrite Z.div_mul by lia. format_lia.
      * unfold prec. replace (2 * ed + 56 + 53 + 1) with ((ed + 55) * 2) by lia.
        rewrite Z.div_mul by lia. format_lia.
    + unfold prec. replace (2 * ed + 56 + 53 + 1) with ((ed + 55) * 2) by lia.
      rewrite Z.div_mul by lia. lia.
Qed.

(** One component of an attraction is finite whenever the distance [r] is
    at least [2 ^ (Er + 52)], not smaller than the component, and not so
    small that the quotients overflow. *)
Lemma attraction_component_finite (c r d : float) Er :
  sf_bounded (-45) (Prim2SF c) ->
  -544 <= Er <= 971 ->
  sf_positive_from Er (Prim2SF r) ->
  sf_bounded Er (Prim2SF d) ->
  sf_bounded (emax - prec)
    (Prim2SF (((c / (r * r * distanceScaleSquared)) * d)
              / (r * PlanetConstants.MASS))%float).
Proof.
  intros Hc HEr Hr Hd.
  assert (Hscale : sf_positive_from 7 (Prim2SF distanceScaleSquared)).
  { vm_compute. split; [reflexivity | discriminate]. }
  assert (Hmass : sf_positive_from (-35) (Prim2SF PlanetConstants.MASS)).
  { vm_compute. split; [reflexivity | discriminate]. }
  assert (Hrr : sf_positive_from (2 * Er + 52) (Prim2SF (r * r)%float)).
  { rewrite mul_spec.
    apply (sf_positive_from_weaken (Er + Er + prec - 1)); [format_lia |].
    apply SFmul_from; try apply Prim2SF_valid; try assumption; format_lia. }
  assert (Hden : sf_positive_from (2 * Er + 111)
                   (Prim2SF (r * r * distanceScaleSquared)%float)).
  { rewrite mul_spec.
    apply (sf_positive_from_weaken ((2 * Er + 52) + 7 + prec - 1)); [format_lia |].
    apply SFmul_from; try apply Prim2SF_valid; try assumption; format_lia. }
  set (Bf := Z.max (-45 - (2 * Er + 111)) (SpecFloat.emin prec emax) + 1).
  assert (Hforce : sf_bounded Bf (Prim2SF (c / (r * r * distanceScaleSquared))%float)).
  { rewrite div_spec. apply SFdiv_by_from; try apply Prim2SF_valid; try assumption.
    format_lia. }
  set (Bp := Z.max (Bf + Er + prec) (SpecFloat.emin prec emax) + 1).
  assert (Hprod : sf_bounded Bp
                    (Prim2SF ((c / (r * r * distanceScaleSquared)) * d)%float)).
  { rewrite mul_spec. apply SFmul_bounded; try apply Prim2SF_valid; try assumption.
    unfold Bf. format_lia. }
  assert (Hrm : sf_positive_from (Er + 17) (Prim2SF (r * PlanetConstants.MASS)%float)).
  { rewrite mul_spec.
    apply (sf_positive_from_weaken (Er + (-35) + prec - 1)); [format_lia |].
    apply SFmul_from; try apply Prim2SF_valid; try assumption; format_lia. }
  apply (sf_bounded_weaken (Z.max (Bp - (Er + 17)) (SpecFloat.emin prec emax) + 1)).
  { unfold Bp, Bf. format_lia. }
  rewrite div_spec. apply SFdiv_by_from; try apply Prim2SF_valid; try assumption.
  unfold Bp, Bf. format_lia.
Qed.

(** One component of an attraction does not vanish: with the component [d]
    of magnitude at least [2 ^ (Ed + 52)] and the distance [r] below
    [2 ^ (Rhi + 53)], its magnitude is at least
    [2 ^ (Ed - 3 * Rhi - 233 + 52)]. *)
Lemma attraction_component_from (c r d : float) Ed Rhi :
  sf_magnitude_from (-45) (Prim2SF c) ->
  sf_magnitude_from Ed (Prim2SF d) ->
  sf_bounded Rhi (Prim2SF r) ->
  -560 <= Rhi <= 420 ->
  SpecFloat.emin prec emax < Ed ->
  SpecFloat.emin prec emax < Ed - 2 * Rhi - 161 ->
  SpecFloat.emin prec emax <= Ed - 3 * Rhi - 233 ->
  sf_magnitude_from (Ed - 3 * Rhi - 233)
    (Prim2SF (((c / (r * r * distanceScaleSquared)) * d)
              / (r * PlanetConstants.MASS))%float).
Proof.
  intros Hc Hd Hr HR HEd Hmid Hlow.
  assert (Hscale : sf_bounded 7 (Prim2SF distanceScaleSquared)).
  { vm_compute. discriminate. }
  assert (Hmass : sf_bounded (-35) (Prim2SF PlanetConstants.MASS)).
  { vm_compute. discriminate. }
  assert (Hrr : sf_bounded (2 * Rhi + 54) (Prim2SF (r * r)%float)).
  { rewrite mul_spec.
    apply (sf_bounded_weaken (Z.max (Rhi + Rhi + prec) (SpecFloat.emin prec emax) + 1));
      [format_lia |].
    apply SFmul_bounded; try apply Prim2SF_valid; try assumption. format_lia. }
  assert (Hden : sf_bounded (2 * Rhi + 115)
                   (Prim2SF (r * r * distanceScaleSquared)%float)).
  { rewrite mul_spec.
    apply (sf_bounded_weaken
             (Z.max ((2 * Rhi + 54) + 7 + prec) (SpecFloat.emin prec emax) + 1));
      [format_lia |].
    apply SFmul_bounded; try apply Prim2SF_valid; try assumption. format_lia. }
  assert (Hforce : sf_magnitude_from (- 2 * Rhi - 213)
                     (Prim2SF (c / (r * r * distanceScaleSquared))%float)).
  { rewrite div_spec.
    apply (sf_magnitude_from_weaken (-45 - (2 * Rhi + 115) - prec)); [format_lia |].
    apply SFdiv_magnitude_from; try apply Prim2SF_valid; try assumption; format_lia. }
  assert (Hprod : sf_magnitude_from (Ed - 2 * Rhi - 161)
                    (Prim2SF ((c / (r * r * distanceScaleSquared)) * d)%float)).
  { rewrite mul_spec.
    apply (sf_magnitude_from_weaken ((- 2 * Rhi - 213) + Ed + prec - 1)); [format_lia |].
    apply SFmul_magnitude_from; try apply Prim2SF_valid; try assumption; format_lia. }
  assert (Hrm : sf_bounded (Rhi + 19) (Prim2SF (r * PlanetConstants.MASS)%float)).
  { rewrite mul_spec.
    apply (sf_bounded_weaken (Z.max (Rhi + (-35) + prec) (SpecFloat.emin prec emax) + 1));
      [format_lia |].
    apply SFmul_bounded; try apply Prim2SF_valid; try assumption. format_lia. }
  rewrite div_spec.
  apply (sf_magnitude_from_weaken ((Ed - 2 * Rhi - 161) - (Rhi + 19) - prec));
    [format_lia |].
  apply SFdiv_magnitude_from; try apply Prim2SF_valid; try assumption; format_lia.
Qed.

Local Close Scope Z_scope.

Lemma abs_below_lower (a c : float) mc ec :
  Prim2SF c = S754_finite false mc ec ->
  is_nan a = false ->
  (c <=? abs a)%float = false -> sf_bounded ec (Prim2SF a).
Proof.
  intros Hc Hn H. apply is_nan_false_Prim2SF in Hn.
  rewrite leb_spec, abs_spec, Hc in H.
  destruct (Prim2SF a) as [s|s| |s m e]; cbn [sf_bounded]; try exact I;
    try congruence; try discriminate H.
  unfold SFleb, SFcompare, SFabs in H.
  destruct (Z.compare_spec ec e) as [Heq | Hlt | Hgt]; try lia; discriminate H.
Qed.

(** In the range, the coordinate of larger magnitude is a normal number. *)
Lemma dominant_exponent (d o : float) :
  (abs o <=? abs d)%float = true ->
  ((1e-140 <=? abs d) || (1e-140 <=? abs o))%float = true ->
  (abs d <? 1e141)%float = true ->
  exists s m ed,
    Prim2SF d = S754_finite s m ed /\ (-518 <= ed <= 416)%Z /\
    sf_bounded ed (Prim2SF o).
Proof.
  intros Hdom Hlo Hhi.
  pose proof (abs_below_bounded d 1e141 _ _ eq_refl Hhi) as Hd.
  destruct (Prim2SF d) as [s|s| |s m ed] eqn:Ed; simpl in Hd; try contradiction.
  - exfalso.
    assert (Ho : exists so, Prim2SF o = S754_zero so).
    { rewrite leb_spec, !abs_spec, Ed in Hdom.
      destruct (Prim2SF o) as [so|so| |so mo eo]; try discriminate Hdom.
      exists so. reflexivity. }
    destruct Ho as [so Eo].
    apply orb_true_iff in Hlo as [H | H];
      apply (abs_from _ 1e-140 _ _ eq_refl) in H;
      rewrite ?Ed, ?Eo in H; exact H.
  - exists s, m, ed.
    pose proof (abs_dominated o d s m ed Ed Hdom) as Ho.
    split; [reflexivity |]. split; [| exact Ho].
    split; [| exact Hd].
    apply orb_true_iff in Hlo as [H | H];
      apply (abs_from _ 1e-140 _ _ eq_refl) in H.
    + rewrite Ed in H. exact H.
    + destruct (Prim2SF o) as [so|so| |so mo eo]; simpl in H, Ho; try contradiction.
      lia.
Qed.

(** The two components of the central acceleration, for a coordinate [d]
    that is the larger one in magnitude and in the range, and the other
    coordinate [o]: both are finite, and the one along [d] is not zero. *)
Lemma central_components (d o r2 : float) s m ed :
  (r2 = (- d) * (- d) + (- o) * (- o) \/ r2 = (- o) * (- o) + (- d) * (- d))%float ->
  Prim2SF d = S754_finite s m ed -> (-518 <= ed <= 416)%Z ->
  sf_bounded ed (Prim2SF o) ->
  let r := sqrt r2 in
  let force :=
    ((PhysicsConstants.G * PlanetConstants.MASS * SunConstants.MASS)
     / (r * r * distanceScaleSquared))%float in
  sf_bounded (emax - prec) (Prim2SF ((force * (- d)) / (r * PlanetConstants.MASS))%float) /\
  sf_bounded (emax - prec) (Prim2SF ((force * (- o)) / (r * PlanetConstants.MASS))%float) /\
  sf_magnitude_from (SpecFloat.emin prec emax)
    (Prim2SF ((force * (- d)) / (r * PlanetConstants.MASS))%float).
Proof.
  intros Hr2 Ed Hed Ho r force.
  assert (Ed' : Prim2SF (- d)%float = S754_finite (negb s) m ed).
  { rewrite opp_spec, Ed. reflexivity. }
  assert (Ho' : sf_bounded ed (Prim2SF (- o)%float)).
  { rewrite opp_spec. apply SFopp_bounded. exact Ho. }
  destruct (distance_between (- d) (- o) r2 (negb s) m ed Hr2 Ed' Ho' ltac:(lia))
    as [Hfrom Hbound].
  fold r in Hfrom, Hbound.
  assert (Hc : sf_bounded (-45)
                 (Prim2SF (PhysicsConstants.G * PlanetConstants.MASS
                           * SunConstants.MASS)%float)).
  { vm_compute. discriminate. }
  assert (Hc' : sf_magnitude_from (-45)
                  (Prim2SF (PhysicsConstants.G * PlanetConstants.MASS
                            * SunConstants.MASS)%float)).
  { vm_compute. discriminate. }
  assert (Hd' : sf_bounded ed (Prim2SF (- d)%float)) by (rewrite Ed'; simpl; lia).
  split; [| split].
  - apply (attraction_component_finite _ _ _ ed); try assumption. lia.
  - apply (attraction_component_finite _ _ _ ed); try assumption. lia.
  - apply (sf_magnitude_from_weaken (ed - 3 * (ed + 3) - 233)%Z); [format_lia |].
    apply attraction_component_from; try assumption; try format_lia.
    rewrite Ed'. simpl. lia.
Qed.

(** In the range, both components of the central acceleration are finite,
    and the component along the coordinate of larger magnitude is nonzero
    and of the sign opposite to the coordinate. *)
Lemma central_acceleration_in_range (p : Planet.t) :
  central_range p ->
  is_finite (sunAccelerationX p) = true /\
  is_finite (sunAccelerationY p) = true /\
  ((abs (Planet.y p) <=? abs (Planet.x p))%float = true ->
   (sunAccelerationX p =? 0)%float = false /\
   ((0 <? Planet.x p)%float = true -> (sunAccelerationX p <? 0)%float = true) /\
   ((Planet.x p <? 0)%float = true -> (0 <? sunAccelerationX p)%float = true)) /\
  ((abs (Planet.x p) <=? abs (Planet.y p))%float = true ->
   (sunAccelerationY p =? 0)%float = false /\
   ((0 <? Planet.y p)%float = true -> (sunAccelerationY p <? 0)%float = true) /\
   ((Planet.y p <? 0)%float = true -> (0 <? sunAccelerationY p)%float = true)) /\
  ((sunAccelerationX p =? 0)%float = false \/ (sunAccelerationY p =? 0)%float = false).
Proof.
  intros [Hlo [Hx Hy]].
  destruct (sun_distance_force_sign p) as [Hr Hf]. cbv zeta in Hr, Hf.
  assert (HX : (abs (Planet.y p) <=? abs (Planet.x p))%float = true ->
               sf_bounded (emax - prec) (Prim2SF (sunAccelerationX p)) /\
               sf_bounded (emax - prec) (Prim2SF (sunAccelerationY p)) /\
               sf_magnitude_from (SpecFloat.emin prec emax) (Prim2SF (sunAccelerationX p))).
  { intros Hdom.
    destruct (dominant_exponent _ _ Hdom Hlo Hx) as [s [m [ed [Ed [Hed Ho]]]]].
    apply (central_components (Planet.x p) (Planet.y p) _ s m ed (or_introl eq_refl)
             Ed Hed Ho). }
  assert (HY : (abs (Planet.x p) <=? abs (Planet.y p))%float = true ->
               sf_bounded (emax - prec) (Prim2SF (sunAccelerationX p)) /\
               sf_bounded (emax - prec) (Prim2SF (sunAccelerationY p)) /\
               sf_magnitude_from (SpecFloat.emin prec emax) (Prim2SF (sunAccelerationY p))).
  { intros Hdom. rewrite orb_comm in Hlo.
    destruct (dominant_exponent _ _ Hdom Hlo Hy) as [s [m [ed [Ed [Hed Ho]]]]].
    destruct (central_components (Planet.y p) (Planet.x p) _ s m ed (or_intror eq_refl)
                Ed Hed Ho) as [H1 [H2 H3]].
    split; [exact H2 |]. split; [exact H1 | exact H3]. }
  assert (Hnx : is_nan (Planet.x p) = false).
  { apply is_finite_not_nan.
    apply (is_finite_of_bounded _ _ (abs_below_bounded _ 1e141 _ _ eq_refl Hx)). }
  assert (Hny : is_nan (Planet.y p) = false).
  { apply is_finite_not_nan.
    apply (is_finite_of_bounded _ _ (abs_below_bounded _ 1e141 _ _ eq_refl Hy)). }
  assert (Hsx : (abs (Planet.y p) <=? abs (Planet.x p))%float = true ->
                (sunAccelerationX p =? 0)%float = false /\
                ((0 <? Planet.x p)%float = true -> (sunAccelerationX p <? 0)%float = true) /\
                ((Planet.x p <? 0)%float = true -> (0 <? sunAccelerationX p)%float = true)).
  { intros Hdom. destruct (HX Hdom) as [_ [_ Hm]].
    split; [apply (magnitude_nonzero _ _ Hm) |].
    split; intros Hpos.
    - apply (magnitude_negative _ _ Hm).
      apply (sun_component_sign _ _ _ false (positive_sign _ Hpos) Hr Hf).
    - apply (magnitude_positive _ _ Hm).
      apply (sun_component_sign _ _ _ true (negative_sign _ Hpos) Hr Hf). }
  assert (Hsy : (abs (Planet.x p) <=? abs (Planet.y p))%float = true ->
                (sunAccelerationY p =? 0)%float = false /\
                ((0 <? Planet.y p)%float = true -> (sunAccelerationY p <? 0)%float = true) /\
                ((Planet.y p <? 0)%float = true -> (0 <? sunAccelerationY p)%float = true)).
  { intros Hdom. destruct (HY Hdom) as [_ [_ Hm]].
    split; [apply (magnitude_nonzero _ _ Hm) |].
    split; intros Hpos.
    - apply (magnitude_negative _ _ Hm).
      apply (sun_component_sign _ _ _ false (positive_sign _ Hpos) Hr Hf).
    - apply (magnitude_positive _ _ Hm).
      apply (sun_component_sign _ _ _ true (negative_sign _ Hpos) Hr Hf). }
  destruct (abs_leb_total (Planet.x p) (Planet.y p) Hnx Hny) as [Hdom | Hdom].
  - destruct (HX Hdom) as [H1 [H2 _]].
    split; [apply (is_finite_of_bounded _ _ H1) |].
    split; [apply (is_finite_of_bounded _ _ H2) |].
    split; [exact Hsx |]. split; [exact Hsy |].
    left. apply (Hsx Hdom).
  - destruct (HY Hdom) as [H1 [H2 _]].
    split; [apply (is_finite_of_bounded _ _ H1) |].
    split; [apply (is_finite_of_bounded _ _ H2) |].
    split; [exact Hsx |]. split; [exact Hsy |].
    right. apply (Hsy Hdom).
Qed.

(** Every planet outside the sun whose coordinates are below [1e141] in
    magnitude is in the range. *)
Lemma outside_sun_in_range (p : Planet.t) :
  Planet.isCollidedWithSun p = false ->
  (abs (Planet.x p) <? 1e141)%float = true ->
  (abs (Planet.y p) <? 1e141)%float = true ->
  central_range p.
Proof.
  intros Hsun Hx Hy. split; [| split; assumption].
  destruct ((1e-140 <=? abs (Planet.x p)) || (1e-140 <=? abs (Planet.y p)))%float
    eqn:Hlo; [reflexivity | exfalso].
  apply orb_false_iff in Hlo as [Hlx Hly].
  assert (Hnx : is_nan (Planet.x p) = false).
  { apply is_finite_not_nan.
    apply (is_finite_of_bounded _ _ (abs_below_bounded _ 1e141 _ _ eq_refl Hx)). }
  assert (Hny : is_nan (Planet.y p) = false).
  { apply is_finite_not_nan.
    apply (is_finite_of_bounded _ _ (abs_below_bounded _ 1e141 _ _ eq_refl Hy)). }
  pose proof (abs_below_lower _ 1e-140 _ _ eq_refl Hnx Hlx) as Bx.
  pose proof (abs_below_lower _ 1e-140 _ _ eq_refl Hny Hly) as By.
  assert (Hsquare : forall a : float,
             sf_bounded (-518) (Prim2SF a) -> sf_bounded (-982) (Prim2SF (a * a)%float)).
  { intros a Ha. rewrite mul_spec.
    apply (sf_bounded_weaken
             (Z.max (-518 + -518 + prec) (SpecFloat.emin prec emax) + 1)%Z);
      [format_lia |].
    apply SFmul_bounded; try apply Prim2SF_valid; try assumption. format_lia. }
  assert (Hsum : sf_bounded (-980)
                   (Prim2SF (Planet.x p * Planet.x p + Planet.y p * Planet.y p)%float)).
  { apply (float_add_bounded _ _ (-982)%Z); try (apply Hsquare; assumption); format_lia. }
  unfold Planet.isCollidedWithSun in Hsun.
  rewrite (bounded_below_constant _ (SunConstants.RADIUS * SunConstants.RADIUS)%float
             (-980)%Z 7036874417766400%positive (-48)%Z eq_refl Hsum) in Hsun;
    [discriminate Hsun | | lia].
  rewrite add_spec, !mul_spec. apply SFadd_nonneg; apply SFmul_self_nonneg.
Qed.

(** C2, as stated, fails: [farPlanet] is beyond the cutoff from
    [innerPlanet] and at a nonzero distance from the origin, yet the
    central-mass acceleration computed for it is zero in both components
    (its squared distance overflows, so the force is 0). *)
Lemma central_acceleration_can_be_zero :
  (maxDistanceSquared <? separationSquared farPlanet innerPlanet)%float = true /\
  (Planet.x farPlanet =? 0)%float = false /\
  is_nan (Planet.x farPlanet) = false /\
  is_infinity (Planet.x farPlanet) = false /\
  (sunAccelerationX farPlanet =? 0)%float = true /\
  (sunAccelerationY farPlanet =? 0)%float = true.
Proof. repeat split; vm_compute; reflexivity. Qed.

(** C2, amended.  A pair whose squared separation exceeds the cutoff squared
    leaves both accumulators untouched; when every pair is beyond the cutoff
    the force phase yields for each planet exactly its central-mass
    acceleration [0 + accel].  That acceleration never points away from the
    origin, in either component.  For every planet in the range
    [central_range] (the larger coordinate at least [1e-140] and below
    [1e141] in magnitude), which holds every planet outside the sun with
    coordinates below [1e141], both components are finite, the acceleration
    is not zero, and the component along the coordinate of larger magnitude
    is nonzero and points strictly to the origin; for the two planets of
    [farPair] both components do. *)
Theorem cutoff_drops_pair_keeps_central :
  forall (e : PhysicsEngine) (i j : nat) (pi pj : Planet.t)
         (acc : list float * list float),
    nth_error (planets e) i = Some pi ->
    nth_error (planets e) j = Some pj ->
    (maxDistanceSquared <? separationSquared pi pj)%float = true ->
    pairStep e i j acc = Some acc /\
    (all_pairs_beyond_cutoff (planets e) ->
     accelerations e
     = Some (map (fun p => (0 + sunAccelerationX p)%float) (planets e),
             map (fun p => (0 + sunAccelerationY p)%float) (planets e))) /\
    (forall p : Planet.t,
        ((0 <? Planet.x p)%float = true -> (0 <? sunAccelerationX p)%float = false) /\
        ((Planet.x p <? 0)%float = true -> (sunAccelerationX p <? 0)%float = false) /\
        ((0 <? Planet.y p)%float = true -> (0 <? sunAccelerationY p)%float = false) /\
        ((Planet.y p <? 0)%float = true -> (sunAccelerationY p <? 0)%float = false)) /\
    (all_pairs_beyond_cutoff (planets farPair) /\
     exists ax0 ax1 ay0 ay1,
       accelerations farPair = Some ([ax0; ax1], [ay0; ay1]) /\
       (0 <? ax0)%float = true /\ (ay0 <? 0)%float = true /\
       (ax1 <? 0)%float = true /\ (0 <? ay1)%float = true) /\
    (forall p : Planet.t,
        central_range p ->
        is_finite (sunAccelerationX p) = true /\
        is_finite (sunAccelerationY p) = true /\
        ((abs (Planet.y p) <=? abs (Planet.x p))%float = true ->
         (sunAccelerationX p =? 0)%float = false /\
         ((0 <? Planet.x p)%float = true -> (sunAccelerationX p <? 0)%float = true) /\
         ((Planet.x p <? 0)%float = true -> (0 <? sunAccelerationX p)%float = true)) /\
        ((abs (Planet.x p) <=? abs (Planet.y p))%float = true ->
         (sunAccelerationY p =? 0)%float = false /\
         ((0 <? Planet.y p)%float = true -> (sunAccelerationY p <? 0)%float = true) /\
         ((Planet.y p <? 0)%float = true -> (0 <? sunAccelerationY p)%float = true)) /\
        ((sunAccelerationX p =? 0)%float = false \/
         (sunAccelerationY p =? 0)%float = false)) /\
    (forall p : Planet.t,
        Planet.isCollidedWithSun p = false ->
        (abs (Planet.x p) <? 1e141)%float = true ->
        (abs (Planet.y p) <? 1e141)%float = true ->
        central_range p).
Proof.
  intros e i j pi pj acc Hpi Hpj Hfar.
  split; [apply pairStep_skip with (pi := pi) (pj := pj); assumption |].
  split; [apply accelerations_all_skipped |].
  split; [apply sunAcceleration_never_outward |].
  assert (Hpair : all_pairs_beyond_cutoff (planets farPair)).
  { intros a b pa pb Hab Ha Hb.
    destruct a as [|[|a]], b as [|[|[|b]]]; try lia;
      simpl in Ha, Hb; try discriminate;
      try (destruct a; discriminate); try (destruct b; discriminate).
    injection Ha as <-. injection Hb as <-. vm_compute. reflexivity. }
  split.
  { split; [exact Hpair |].
    rewrite (accelerations_all_skipped farPair Hpair).
    do 4 eexists. split; [reflexivity |].
    repeat split; vm_compute; reflexivity. }
  split; [exact central_acceleration_in_range | exact outside_sun_in_range].
Qed.

Lemma cutoff_drops_pair_keeps_central_witness :
  nth_error (planets farPair) 0 = Some (Planet.new (-60) 30 0 0 1) /\
  nth_error (planets farPair) 1 = Some (Planet.new 60 (-30) 0 0 2) /\
  (maxDistanceSquared
     <? separationSquared (Planet.new (-60) 30 0 0 1) (Planet.new 60 (-30) 0 0 2))%float
  = true /\
  pairStep farPair 0 1 ([1; 2]%float, [3; 4]%float) = Some ([1; 2]%float, [3; 4]%float) /\
  central_range (Planet.new (-60) 30 0 0 1) /\
  (0 <? sunAccelerationX (Planet.new (-60) 30 0 0 1))%float = true.
Proof.
  split; [reflexivity |]. split; [reflexivity |]. split; [reflexivity |].
  destruct (@cutoff_drops_pair_keeps_central farPair 0 1
              (Planet.new (-60) 30 0 0 1) (Planet.new 60 (-30) 0 0 2)
              ([1; 2]%float, [3; 4]%float) eq_refl eq_refl eq_refl)
    as [Hstep [_ [_ [_ [Hrange Hout]]]]].
  split; [exact Hstep |].
  assert (Hin : central_range (Planet.new (-60) 30 0 0 1)).
  { apply Hout; reflexivity. }
  split; [exact Hin |].
  destruct (Hrange _ Hin) as [_ [_ [Hx _]]].
  apply (Hx eq_refl). reflexivity.
Defined.

(** ** The removal pass, on both completions *)












(** ** The collision effect *)







(** ** Trail sampling, on both completions *)



